(** * Glob: a shallow embedding of rupypy/utils/glob.py

    The Python module compiles a shell-style glob pattern into a chain of
    matcher nodes and walks that chain against the filesystem.  The embedding
    keeps the structure of the source: Python values and exceptions, the
    mutable match list as explicit state, one definition per method. *)

From Stdlib Require Import String Ascii List ZArith Lia Bool Arith.
Import ListNotations.

Open Scope string_scope.
Open Scope Z_scope.

(** ** Python values: exceptions, strings, lists *)

Module Py.

(** The exceptions the module can raise or meet. *)
Inductive exn : Type :=
| TypeError | IndexError | AssertionError | NameError | AttributeError
| OSError.

(** The result of running a piece of Python: a value, a raised exception,
    or [Timeout] when the step budget of the model is used up. *)
Inductive outcome (A : Type) : Type :=
| Ok (a : A)
| Raise (e : exn)
| Timeout.

Arguments Ok {A} a.
Arguments Raise {A} e.
Arguments Timeout {A}.

Definition obind {A B} (o : outcome A) (k : A -> outcome B) : outcome B :=
  match o with
  | Ok a => k a
  | Raise e => Raise e
  | Timeout => Timeout
  end.

(** [len(s)] *)
Definition len (s : string) : Z := Z.of_nat (String.length s).

(** Truth value of a [str] and of a [str]-or-[None]. *)
Definition truthy_str (s : string) : bool :=
  match s with EmptyString => false | String _ _ => true end.

Definition truthy (p : option string) : bool :=
  match p with None => false | Some s => truthy_str s end.

(** [s[i]], negative indices counting from the end. *)
Definition getitem (s : string) (i : Z) : outcome ascii :=
  let j := if i <? 0 then i + len s else i in
  if j <? 0 then Raise IndexError
  else match String.get (Z.to_nat j) s with
       | Some c => Ok c
       | None => Raise IndexError
       end.

(** [s[a:b]] *)
Definition slice (s : string) (a b : Z) : string :=
  let n := len s in
  let norm i := if i <? 0 then Z.max 0 (i + n) else Z.min i n in
  substring (Z.to_nat (norm a)) (Z.to_nat (norm b - norm a)) s.

(** [s[a:]] *)
Definition slice_from (s : string) (a : Z) : string := slice s a (len s).

(** [s.find(sub)] *)
Definition find (sub s : string) : Z :=
  match String.index 0 sub s with
  | Some n => Z.of_nat n
  | None => -1
  end.

(** [sub in s] *)
Definition contains (sub s : string) : bool := 0 <=? find sub s.

(** [s.replace(old, new)] for a non-empty [old], scanning left to right. *)
Fixpoint replace_fuel (fuel : nat) (old new s : string) : string :=
  match fuel with
  | O => s
  | S fuel' =>
      if String.prefix old s
      then new ++ replace_fuel fuel' old new
                    (substring (String.length old)
                               (String.length s - String.length old) s)
      else match s with
           | EmptyString => EmptyString
           | String c s' => String c (replace_fuel fuel' old new s')
           end
  end%string.

Definition replace (old new s : string) : string :=
  replace_fuel (S (String.length s)) old new s.

(** [l.pop()]: the last item and the list without it. *)
Definition pop {A} (l : list A) : outcome (A * list A) :=
  match rev l with
  | [] => Raise IndexError
  | x :: r => Ok (x, rev r)
  end.

(** [l[i]] for a list. *)
Definition index {A} (l : list A) (i : Z) : outcome A :=
  let j := if i <? 0 then i + Z.of_nat (length l) else i in
  if j <? 0 then Raise IndexError
  else match nth_error l (Z.to_nat j) with
       | Some x => Ok x
       | None => Raise IndexError
       end.

End Py.

Import Py.

(** ** State and exceptions

    A computation over a mutable state [S]: it returns the final state
    together with its outcome, so the state reached when an exception
    escapes stays visible. *)

Definition ST (S A : Type) : Type := S -> S * outcome A.

Definition ret {S A} (a : A) : ST S A := fun s => (s, Ok a).
Definition raise {S A} (e : exn) : ST S A := fun s => (s, Raise e).
Definition timeout {S A} : ST S A := fun s => (s, Timeout).
Definition lift {S A} (o : outcome A) : ST S A := fun s => (s, o).

Definition bind {S A B} (c : ST S A) (k : A -> ST S B) : ST S B :=
  fun s =>
    match c s with
    | (s', Ok a) => k a s'
    | (s', Raise e) => (s', Raise e)
    | (s', Timeout) => (s', Timeout)
    end.

Notation "x <- c ;; k" := (bind c (fun x => k))
  (at level 61, c at next level, right associativity).
Notation "c ;;; k" := (bind c (fun _ => k))
  (at level 61, right associativity).

(** [try: c except OSError: pass] *)
Definition catch_OSError {S} (c : ST S unit) : ST S unit :=
  fun s =>
    match c s with
    | (s', Raise OSError) => (s', Ok tt)
    | r => r
    end.

(** [for x in l: body(x)] *)
Fixpoint for_each {S A} (l : list A) (body : A -> ST S unit) : ST S unit :=
  match l with
  | [] => ret tt
  | x :: l' => body x ;;; for_each l' body
  end.

(** ** The filesystem seen through [os] *)

Record FS : Type := {
  exists_ : string -> bool;                 (* os.path.exists *)
  isdir : string -> bool;                   (* os.path.isdir *)
  listdir : string -> option (list string)  (* os.listdir; None: OSError *)
}.

Definition os_listdir {S} (fs : FS) (p : string) : ST S (list string) :=
  match listdir fs p with
  | None => raise OSError
  | Some l => ret l
  end.

(** ** Flags *)

Definition FNM_NOESCAPE : Z := 1.
Definition FNM_DOTMATCH : Z := 4.

(** Truth value of an [int]. *)
Definition truthy_int (z : Z) : bool := negb (z =? 0).

(** ** Matcher nodes

    One constructor per class of node object, holding the attributes the
    methods read: [next], [flags], [separator], and the class's own. *)

#[warnings="-register-all"]
Inductive node : Type :=
| ConstantDirectory (nxt : option node) (flags : Z) (separator : option string)
    (dir : string)
| ConstantEntry (nxt : option node) (flags : Z) (separator : option string)
    (name : string) (suffixes : list string)
| RootDirectory (nxt : option node) (flags : Z) (separator : option string)
| RecursiveDirectories (nxt : option node) (flags : Z)
    (separator : option string)
| StartRecursiveDirectories (nxt : option node) (flags : Z)
    (separator : option string)
| DirectoryMatch (nxt : option node) (flags : Z) (separator : option string)
    (glob : string)
| EntryMatch (nxt : option node) (flags : Z) (separator : option string)
    (glob : string) (suffixes : list string)
| DirectoriesOnly (nxt : option node) (flags : Z) (separator : option string).

Definition node_next (n : node) : option node :=
  match n with
  | ConstantDirectory nxt _ _ _ | ConstantEntry nxt _ _ _ _
  | RootDirectory nxt _ _ | RecursiveDirectories nxt _ _
  | StartRecursiveDirectories nxt _ _ | DirectoryMatch nxt _ _ _
  | EntryMatch nxt _ _ _ _ | DirectoriesOnly nxt _ _ => nxt
  end.

Definition node_separator (n : node) : option string :=
  match n with
  | ConstantDirectory _ _ s _ | ConstantEntry _ _ s _ _
  | RootDirectory _ _ s | RecursiveDirectories _ _ s
  | StartRecursiveDirectories _ _ s | DirectoryMatch _ _ s _
  | EntryMatch _ _ s _ _ | DirectoriesOnly _ _ s => s
  end.

(** [Node.set_separator] *)
Definition set_separator (n : node) (value : option string) : node :=
  match n with
  | ConstantDirectory nxt fl _ d => ConstantDirectory nxt fl value d
  | ConstantEntry nxt fl _ nm su => ConstantEntry nxt fl value nm su
  | RootDirectory nxt fl _ => RootDirectory nxt fl value
  | RecursiveDirectories nxt fl _ => RecursiveDirectories nxt fl value
  | StartRecursiveDirectories nxt fl _ =>
      StartRecursiveDirectories nxt fl value
  | DirectoryMatch nxt fl _ g => DirectoryMatch nxt fl value g
  | EntryMatch nxt fl _ g su => EntryMatch nxt fl value g su
  | DirectoriesOnly nxt fl _ => DirectoriesOnly nxt fl value
  end.

(** [Node.get_separator]: [self.separator or "/"] *)
Definition get_separator (separator : option string) : string :=
  match separator with
  | Some s => if truthy_str s then s else "/"
  | None => "/"
  end.

(** [Node.path_join] *)
Definition path_join (separator : option string) (parent : option string)
    (ent : string) : string :=
  match parent with
  | None => ent
  | Some p =>
      if negb (truthy_str p) then ent
      else if String.eqb p "/" then "/" ++ ent
      else p ++ get_separator separator ++ ent
  end.

(** *** Constructors ([__init__]) *)

(** [Node.__init__]: the separator starts as [None]. *)
Definition ConstantDirectory_init (nxt : option node) (flags : Z)
    (dir : string) : outcome node :=
  Ok (ConstantDirectory nxt flags None dir).

(** [ConstantEntry.__init__] calls [Glob.ConstantEntry.__init__] again, with
    four arguments where the method takes five: the call is a [TypeError]
    and no attribute is ever set. *)
Definition ConstantEntry_init (nxt : option node) (flags : Z)
    (name : string) (suffixes : list string) : outcome node :=
  Raise TypeError.

Definition RootDirectory_init (nxt : option node) (flags : Z) : outcome node :=
  Ok (RootDirectory nxt flags None).

Definition RecursiveDirectories_init (nxt : option node) (flags : Z)
  : outcome node :=
  Ok (RecursiveDirectories nxt flags None).

Definition StartRecursiveDirectories_init (nxt : option node) (flags : Z)
  : outcome node :=
  Ok (StartRecursiveDirectories nxt flags None).

(** [DirectoryMatch.__init__]: [self.glob.replace("**", "*")] builds a new
    string and drops it; [self.glob] stays as [Match.__init__] set it. *)
Definition DirectoryMatch_init (nxt : option node) (flags : Z)
    (glob : string) : outcome node :=
  let self_glob := glob in
  let _ := Py.replace "**" "*" self_glob in
  Ok (DirectoryMatch nxt flags None self_glob).

Definition EntryMatch_init (nxt : option node) (flags : Z) (globs : string)
    (suffixes : list string) : outcome node :=
  Ok (EntryMatch nxt flags None globs suffixes).

Definition DirectoriesOnly_init (nxt : option node) (flags : Z)
  : outcome node :=
  Ok (DirectoriesOnly nxt flags None).

(** The pattern a [Match] node tests names against. *)
Definition node_glob (n : node) : option string :=
  match n with
  | DirectoryMatch _ _ _ g | EntryMatch _ _ _ g _ => Some g
  | _ => None
  end.

(** ** The node execution engine: the [call] methods

    The environment [env] is its one attribute, the list [env.matches]. *)

Definition env : Type := list string.

(** [env.matches.append(p)] *)
Definition matches_append (p : string) : ST env unit :=
  fun m => ((m ++ [p])%list, Ok tt).

(** The state of a recursive-descent walk: the worklist [stack] and the
    environment, and next to them [pushed], every path appended to the
    worklist so far, oldest first.  [pushed] is a record of the run; no
    method reads it. *)
Record walk : Type := {
  stack : list string;
  pushed : list string;
  wenv : env
}.

(** A computation on the environment, run inside a walk. *)
Definition in_walk {A} (c : ST env A) : ST walk A :=
  fun w =>
    let (m, r) := c (wenv w) in
    ({| stack := stack w; pushed := pushed w; wenv := m |}, r).

(** [stack.append(p)] *)
Definition stack_append (p : string) : ST walk unit :=
  fun w =>
    ({| stack := (stack w ++ [p])%list; pushed := (pushed w ++ [p])%list;
        wenv := wenv w |},
     Ok tt).

(** [stack.pop()] *)
Definition stack_pop : ST walk string :=
  fun w =>
    match Py.pop (stack w) with
    | Ok (p, rest) =>
        ({| stack := rest; pushed := pushed w; wenv := wenv w |}, Ok p)
    | Raise e => (w, Raise e)
    | Timeout => (w, Timeout)
    end.

Section Engine.

(** [fnmatch.fnmatch(name, pattern)] of the Python library and the
    filesystem the walk runs against. *)
Variable fnmatch : string -> string -> bool.
Variable fs : FS.

(** [Match.ismatch]: the node's flags are not consulted. *)
Definition ismatch (glob : string) (s : string) : bool := fnmatch s glob.

(** [RecursiveDirectories.allow_dots]: [self.flags & FNM_DOTMATCH != 0],
    where [&] binds tighter than the comparison. *)
Definition allow_dots (flags : Z) : bool :=
  negb (Z.land flags FNM_DOTMATCH =? 0).

(** [ConstantDirectory.call] *)
Definition ConstantDirectory_call (next_call : option string -> ST env unit)
    (separator : option string) (dir : string) (path : option string)
  : ST env unit :=
  let full := path_join separator path dir in
  next_call (Some full).

(** [ConstantEntry.call] *)
Definition ConstantEntry_call (separator : option string) (name : string)
    (suffixes : list string) (parent : option string) : ST env unit :=
  let stem := path_join separator parent name in
  for_each suffixes (fun s =>
    let path := (stem ++ s)%string in
    if exists_ fs path then matches_append path else ret tt).

(** [RootDirectory.call] *)
Definition RootDirectory_call (next_call : option string -> ST env unit)
    (path : option string) : ST env unit :=
  next_call (Some "/").

(** The test and the two statements under it that both recursive-descent
    loops run for an entry [ent] whose path is [full]:
    [if os.path.isdir(full) and (self.allow_dots() or ent[0] != "."):
         stack.append(full); self.next.call(env, full)] *)
Definition descend (next_call : option string -> ST env unit) (flags : Z)
    (full ent : string) : ST walk unit :=
  wanted <-
    (if isdir fs full
     then if allow_dots flags then ret true
          else c <- lift (getitem ent 0) ;; ret (negb (Ascii.eqb c "."))
     else ret false) ;;
  if (wanted : bool)
  then stack_append full ;;; in_walk (next_call (Some full))
  else ret tt.

(** The [while stack:] loop of [call_with_stack]. *)
Fixpoint while_stack (fuel : nat) (next_call : option string -> ST env unit)
    (flags : Z) (separator : option string) : ST walk unit :=
  fun w =>
    match stack w with
    | [] => (w, Ok tt)
    | _ :: _ =>
        match fuel with
        | O => (w, Timeout)
        | S fuel' =>
            (path <- stack_pop ;;
             catch_OSError
               (ents <- os_listdir fs path ;;
                for_each ents (fun ent =>
                  let full := path_join separator (Some path) ent in
                  descend next_call flags full ent)) ;;;
             while_stack fuel' next_call flags separator) w
        end
    end.

(** [RecursiveDirectories.call_with_stack]; [switched_call] is the [call]
    of the copy of [self.next] that carries [self.separator]. *)
Definition call_with_stack (fuel : nat)
    (next_call switched_call : option string -> ST env unit)
    (flags : Z) (separator : option string) (start : option string)
  : ST walk unit :=
  in_walk (switched_call start) ;;;
  while_stack fuel next_call flags separator.

(** A walk begun on the worklist [stk]. *)
Definition new_walk (stk : list string) (m : env) : walk :=
  {| stack := stk; pushed := stk; wenv := m |}.

(** [RecursiveDirectories.call], with the record of the walk;
    [os.path.exists(None)] is a [TypeError]. *)
Definition RecursiveDirectories_walk (fuel : nat)
    (next_call switched_call : option string -> ST env unit)
    (flags : Z) (separator : option string) (start : option string)
  : env -> walk * outcome unit :=
  fun m =>
    match start with
    | None => (new_walk [] m, Raise TypeError)
    | Some s =>
        if negb (exists_ fs s) then (new_walk [] m, Ok tt)
        else call_with_stack fuel next_call switched_call flags separator
               start (new_walk [s] m)
    end.

(** [StartRecursiveDirectories.call], with the record of the walk.
    [raise "invalid usage"] raises a string, which is a [TypeError]. *)
Definition StartRecursiveDirectories_walk (fuel : nat)
    (next_call switched_call : option string -> ST env unit)
    (flags : Z) (separator : option string) (start : option string)
  : env -> walk * outcome unit :=
  fun m =>
    if truthy start then (new_walk [] m, Raise TypeError)
    else
      (ents <- os_listdir fs "." ;;
       for_each ents (fun ent => descend next_call flags ent ent) ;;;
       call_with_stack fuel next_call switched_call flags separator start)
      (new_walk [] m).

(** What a [call] leaves behind: the environment and the outcome. *)
Definition end_walk (r : walk * outcome unit) : env * outcome unit :=
  (wenv (fst r), snd r).

(** [path if path else "."] *)
Definition path_or_dot (path : option string) : string :=
  match path with
  | Some p => if truthy_str p then p else "."
  | None => "."
  end.

(** [DirectoryMatch.call] *)
Definition DirectoryMatch_call (next_call : option string -> ST env unit)
    (separator : option string) (glob : string) (path : option string)
  : ST env unit :=
  if match path with
     | Some p => truthy_str p && negb (exists_ fs p)
     | None => false
     end
  then ret tt
  else
    ents <- os_listdir fs (path_or_dot path) ;;
    for_each ents (fun ent =>
      if ismatch glob ent
      then let full := path_join separator path ent in
           if isdir fs full then next_call (Some full) else ret tt
      else ret tt).

(** [EntryMatch.call] *)
Definition EntryMatch_call (separator : option string) (glob : string)
    (suffixes : list string) (path : option string) : ST env unit :=
  if match path with
     | Some p => truthy_str p && negb (exists_ fs (p ++ "/."))
     | None => false
     end
  then ret tt
  else
    fun m =>
      match os_listdir fs (path_or_dot path) m with
      | (m', Raise OSError) => (m', Ok tt)
      | (m', Raise e) => (m', Raise e)
      | (m', Timeout) => (m', Timeout)
      | (m', Ok entries) =>
          for_each entries (fun f =>
            for_each suffixes (fun suffix =>
              let ent := (f ++ suffix)%string in
              if ismatch glob ent
              then matches_append (path_join separator path ent)
              else ret tt)) m'
      end.

(** [DirectoriesOnly.call] *)
Definition DirectoriesOnly_call (path : option string) : ST env unit :=
  match path with
  | Some p =>
      if truthy_str p && exists_ fs (p ++ "/.")
      then matches_append (p ++ "/")
      else ret tt
  | None => ret tt
  end.

(** [self.next.call(env, p)], where [recur] is [call]: on a [None]
    continuation the attribute lookup is an [AttributeError]. *)
Definition call_next (recur : node -> option string -> ST env unit)
    (nxt : option node) (p : option string) : ST env unit :=
  match nxt with
  | Some n' => recur n' p
  | None => raise AttributeError
  end.

(** [switched = copy.copy(self.next); switched.set_separator(separator);
    switched.call(env, p)] *)
Definition call_switched (recur : node -> option string -> ST env unit)
    (nxt : option node) (separator : option string) (p : option string)
  : ST env unit :=
  match nxt with
  | Some n' => recur (set_separator n' separator) p
  | None => raise AttributeError
  end.

(** [node.call(env, path)].  Each call of a method uses one unit of [fuel];
    the worklist loop of a recursive-descent node uses one per turn. *)
Fixpoint call (fuel : nat) (n : node) (path : option string) : ST env unit :=
  match fuel with
  | O => timeout
  | S fuel' =>
      match n with
      | ConstantDirectory nxt _ sep dir =>
          ConstantDirectory_call (call_next (call fuel') nxt) sep dir path
      | ConstantEntry _ _ sep name suffixes =>
          ConstantEntry_call sep name suffixes path
      | RootDirectory nxt _ _ =>
          RootDirectory_call (call_next (call fuel') nxt) path
      | RecursiveDirectories nxt flags sep =>
          fun m => end_walk
            (RecursiveDirectories_walk fuel' (call_next (call fuel') nxt)
               (call_switched (call fuel') nxt sep) flags sep path m)
      | StartRecursiveDirectories nxt flags sep =>
          fun m => end_walk
            (StartRecursiveDirectories_walk fuel' (call_next (call fuel') nxt)
               (call_switched (call fuel') nxt sep) flags sep path m)
      | DirectoryMatch nxt _ sep glob =>
          DirectoryMatch_call (call_next (call fuel') nxt) sep glob path
      | EntryMatch _ _ sep glob suffixes =>
          EntryMatch_call sep glob suffixes path
      | DirectoriesOnly _ _ _ =>
          DirectoriesOnly_call path
      end
  end.

End Engine.

(** ** Regular expressions

    Modelled from the spec: [rupypy.utils.regexp] and the [rsre_core]
    search it drives are not among the sources.  The module searches with
    three fixed expressions, and the spec says what each one finds:
    ["/+"] locates "every run of one-or-more separator characters";
    ["^[a-zA-Z0-9._]+$"] accepts a name that "consists solely of
    letters/digits/./_"; ["^[^\*\?\]]+"] accepts a segment with "no wildcard
    metacharacter" at the start of its leading run. *)

Module Regexp.

(** Length of the run of ["/"] that [s] starts with. *)
Fixpoint slash_run (s : string) : nat :=
  match s with
  | String c s' => if Ascii.eqb c "/" then S (slash_run s') else O
  | EmptyString => O
  end.

(** The first run of ["/"] in [s], whose first character stands at [pos]. *)
Fixpoint first_slash_run (s : string) (pos : nat) : option (nat * nat) :=
  match s with
  | EmptyString => None
  | String c s' =>
      if Ascii.eqb c "/" then Some (pos, (pos + slash_run s)%nat)
      else first_slash_run s' (S pos)
  end.

(** Search for ["/+"] in [s] from offset [from]: start and end of the
    match. *)
Definition search_separators (s : string) (from : Z) : option (Z * Z) :=
  let k := Z.to_nat from in
  match first_slash_run (substring k (String.length s - k) s) k with
  | Some (a, b) => Some (Z.of_nat a, Z.of_nat b)
  | None => None
  end.

Definition is_name_char (c : ascii) : bool :=
  let n := nat_of_ascii c in
  ((97 <=? n) && (n <=? 122) || (65 <=? n) && (n <=? 90)
   || (48 <=? n) && (n <=? 57) || (n =? 46) || (n =? 95))%nat.

Fixpoint all_chars (f : ascii -> bool) (s : string) : bool :=
  match s with
  | EmptyString => true
  | String c s' => f c && all_chars f s'
  end.

(** Search for ["^[a-zA-Z0-9._]+$"]. *)
Definition search_constant (s : string) : bool :=
  truthy_str s && all_chars is_name_char s.

Definition is_wildcard_char (c : ascii) : bool :=
  Ascii.eqb c "*" || Ascii.eqb c "?" || Ascii.eqb c "]".

(** Search for ["^[^\*\?\]]+"]. *)
Definition search_literal (s : string) : bool :=
  match s with
  | EmptyString => false
  | String c _ => negb (is_wildcard_char c)
  end.

End Regexp.

(** ** The path splitter *)

(** The [while rsre_core.search_context(ctx)] loop of [path_split]. *)
Fixpoint path_split_loop (fuel : nat) (s : string) (last_end : Z)
    (ret : list string) : outcome (Z * list string) :=
  match Regexp.search_separators s last_end with
  | None => Ok (last_end, ret)
  | Some (cur_start, cur_end) =>
      match fuel with
      | O => Timeout
      | S fuel' =>
          if negb (0 <=? cur_start) then Raise AssertionError
          else if negb (cur_start <=? cur_end) then Raise AssertionError
          else path_split_loop fuel' s cur_end
                 (ret ++ [slice s last_end cur_start;
                          slice s cur_start cur_end])%list
      end
  end.

(** [while len(ret[-1]) == 0: ret.pop()] *)
Fixpoint drop_empty_tail (fuel : nat) (ret : list string)
  : outcome (list string) :=
  obind (Py.index ret (-1)) (fun x =>
    if len x =? 0
    then match fuel with
         | O => Timeout
         | S fuel' =>
             obind (Py.pop ret) (fun '(_, ret') => drop_empty_tail fuel' ret')
         end
    else Ok ret).

(** [Glob.path_split] *)
Definition path_split (s : string) : outcome (list string) :=
  obind (path_split_loop (S (String.length s)) s 0 []) (fun '(last_end, ret) =>
    let ret := if 0 <? last_end
               then (ret ++ [slice_from s last_end])%list
               else (ret ++ [s])%list in
    match ret with
    | [] => Ok ret
    | _ :: _ => drop_empty_tail (S (length ret)) ret
    end).

(** ** The pattern compiler *)

(** The inner [while rsre_core.search_context(ctx)] loop of
    [single_compile]: fold the literal segments before [dir] into it.
    [found] is the result of the search on [parts[partidx]]. *)
Fixpoint fold_literals (fuel : nat) (parts : list string) (dir : string)
    (found : bool) : outcome (string * list string) :=
  if found then
    match fuel with
    | O => Timeout
    | S fuel' =>
        obind (Py.pop parts) (fun '(next_sep, parts) =>
        obind (Py.pop parts) (fun '(next_sect, parts) =>
        let dir := (next_sect ++ next_sep ++ dir)%string in
        let partidx := Z.of_nat (length parts) - 2 in
        if negb (0 <=? partidx) then Raise AssertionError
        else obind (Py.index parts partidx) (fun sect =>
             fold_literals fuel' parts dir (Regexp.search_literal sect))))
    end
  else Ok (dir, parts).

(** The [while parts:] loop of [single_compile]. *)
Fixpoint compile_dirs (fuel : nat) (parts : list string) (last : node)
    (flags : Z) : outcome node :=
  match parts with
  | [] => Ok last
  | _ :: _ =>
      match fuel with
      | O => Timeout
      | S fuel' =>
          obind (Py.pop parts) (fun '(sep, parts) =>
          let last := set_separator last (Some sep) in
          obind (Py.pop parts) (fun '(dir, parts) =>
          if String.eqb dir "**" then
            match parts with
            | _ :: _ =>
                obind (RecursiveDirectories_init (Some last) flags)
                  (fun last => compile_dirs fuel' parts last flags)
            | [] =>
                obind (StartRecursiveDirectories_init (Some last) flags)
                  (fun last => compile_dirs fuel' parts last flags)
            end
          else if Regexp.search_literal dir then
            let partidx := Z.of_nat (length parts) - 2 in
            if negb (0 <=? partidx) then Raise AssertionError
            else
              obind (Py.index parts partidx) (fun sect =>
              obind (fold_literals (length parts) parts dir
                       (Regexp.search_literal sect)) (fun '(dir, parts) =>
              obind (ConstantDirectory_init (Some last) flags dir)
                (fun last => compile_dirs fuel' parts last flags)))
          else if 0 <? len dir then
            obind (DirectoryMatch_init (Some last) flags dir)
              (fun last => compile_dirs fuel' parts last flags)
          else compile_dirs fuel' parts last flags))
      end
  end.

(** [Glob.single_compile].  The method returns the node [last], and a node
    object is always true: the callers' [if node:] never takes its else
    branch. *)
Definition single_compile (glob : string) (flags : Z)
    (suffixes : option (list string)) : outcome node :=
  obind (path_split glob) (fun parts =>
  obind (getitem glob (-1)) (fun c =>
  obind
    (if Ascii.eqb c "/" then
       obind (DirectoriesOnly_init None flags) (fun last => Ok (last, parts))
     else
       obind (Py.pop parts) (fun '(file, parts) =>
       let suffixes := match suffixes with
                       | None => [""]
                       | Some l => l
                       end in
       if Regexp.search_constant file then
         obind (ConstantEntry_init None flags file suffixes)
           (fun last => Ok (last, parts))
       else
         obind (EntryMatch_init None flags file suffixes)
           (fun last => Ok (last, parts))))
    (fun '(last, parts) =>
  obind (compile_dirs (length parts) parts last flags) (fun last =>
  obind (getitem glob 0) (fun c0 =>
  if Ascii.eqb c0 "/" then RootDirectory_init (Some last) flags
  else Ok last))))).

(** ** The brace expander *)

(** [escape = flags & FNM_NOESCAPE == 0], where [&] binds tighter than
    the comparison: a [bool], which is the [int] 1 or 0. *)
Definition escape_of (flags : Z) : Z :=
  Z.b2z (Z.land flags FNM_NOESCAPE =? 0).

(** The first [while i < len(pattern)] loop of [compile]; it returns
    [lbrace] and [rbrace].  [escapes = true] reads a name that is not
    defined, a [NameError]. *)
Fixpoint scan_braces (fuel : nat) (pattern : string) (escape : Z)
    (i nest lbrace : Z) : outcome (Z * Z) :=
  if i <? len pattern then
    match fuel with
    | O => Timeout
    | S fuel' =>
        obind (getitem pattern i) (fun char =>
        let '(lbrace, nest) :=
          if Ascii.eqb char "{" then (i, nest + 1)
          else if Ascii.eqb char "}" then (lbrace, nest - 1)
          else (lbrace, nest) in
        if nest =? 0 then Ok (lbrace, i)
        else if Ascii.eqb char "\" && truthy_int escape then Raise NameError
        else scan_braces fuel' pattern escape (i + 1) nest lbrace)
    end
  else Ok (lbrace, -1).

(** The inner [while] of the alternatives loop; it returns [pos]. *)
Fixpoint scan_alternative (fuel : nat) (pattern : string) (escape : Z)
    (rbrace pos nest : Z) : outcome Z :=
  if pos <? rbrace then
    obind (getitem pattern pos) (fun c =>
    if Ascii.eqb c "?" && (nest =? 0) then Ok pos
    else
      match fuel with
      | O => Timeout
      | S fuel' =>
          let nest := if Ascii.eqb c "{" then nest + 1
                      else if Ascii.eqb c "}" then nest - 1
                      else nest in
          if Ascii.eqb c "\" && truthy_int escape then
            let pos := pos + 1 in
            if pos =? rbrace then Ok pos
            else scan_alternative fuel' pattern escape rbrace (pos + 1) nest
          else scan_alternative fuel' pattern escape rbrace (pos + 1) nest
      end)
  else Ok pos.

(** The [while pos < rbrace] loop of [compile]; [recur] is the recursive
    call [self.compile(brace_pattern, flags, patterns)]. *)
Fixpoint alternatives (fuel : nat)
    (recur : string -> list node -> outcome (list node))
    (pattern : string) (escape : Z) (front back : string)
    (rbrace pos : Z) (patterns : list node) : outcome (list node) :=
  if pos <? rbrace then
    match fuel with
    | O => Timeout
    | S fuel' =>
        let pos := pos + 1 in
        let last := pos in
        obind (scan_alternative (String.length pattern) pattern escape
                 rbrace pos 0) (fun pos =>
        let brace_pattern := (front ++ slice pattern last pos ++ back)%string in
        obind (recur brace_pattern patterns) (fun patterns =>
        alternatives fuel' recur pattern escape front back rbrace pos
          patterns))
    end
  else Ok patterns.

(** [Glob.compile]; [patterns] is the list the method appends to. *)
Fixpoint compile (fuel : nat) (pattern : string) (flags : Z)
    (patterns : list node) : outcome (list node) :=
  match fuel with
  | O => Timeout
  | S fuel' =>
      let escape := escape_of flags in
      let i := Py.find "{" pattern in
      obind (if -1 <? i
             then scan_braces (String.length pattern) pattern escape i 0 (-1)
             else Ok (-1, -1)) (fun '(lbrace, rbrace) =>
      if (-1 <? lbrace) && (-1 <? rbrace) then
        let pos := lbrace in
        let front := slice pattern 0 lbrace in
        let back := slice pattern (rbrace + 1) (len pattern) in
        alternatives (String.length pattern)
          (fun brace_pattern patterns =>
             compile fuel' brace_pattern flags patterns)
          pattern escape front back rbrace pos patterns
      else
        obind (single_compile pattern flags None) (fun node =>
        Ok (patterns ++ [node])%list))
  end.

(** ** Running a chain *)

Section Glob.

Variable fnmatch : string -> string -> bool.
Variable fs : FS.

(** [Glob.run] with a list passed for [matches]: the environment is built
    around that same list, and [env.matches] is returned. *)
Definition run (fuel : nat) (n : node) : ST env (list string) :=
  call fnmatch fs fuel n None ;;; (fun m => (m, Ok m)).

(** [Glob.glob].  The state is the list [matches]; the value is what the
    method returns, [None] when it runs off its end without a [return]. *)
Definition glob (fuel : nat) (pattern : string) (flags : Z)
  : ST env (option (list string)) :=
  if Py.contains "{" pattern then
    patterns <- lift (compile (S (String.length pattern)) pattern flags []) ;;
    for_each patterns (fun n => run fuel n ;;; ret tt) ;;;
    ret None
  else
    n <- lift (single_compile pattern flags None) ;;
    r <- run fuel n ;;
    ret (Some r).

End Glob.

(** ** A matcher for the examples

    [fnmatch.fnmatch] is Python's; on a pattern made of [*], [?] and
    ordinary characters (no bracket) it accepts a name exactly when the
    pattern, with [*] for any run of characters and [?] for any one
    character, covers the whole name.  A leading dot is not special. *)
Fixpoint wild_match (pat : list ascii) (s : list ascii) : bool :=
  match pat with
  | [] => match s with [] => true | _ => false end
  | p :: pat' =>
      if Ascii.eqb p "*" then
        (fix star (s : list ascii) : bool :=
           wild_match pat' s
           || match s with [] => false | _ :: s' => star s' end) s
      else
        match s with
        | [] => false
        | c :: s' =>
            (Ascii.eqb p "?" || Ascii.eqb p c) && wild_match pat' s'
        end
  end.

Definition fnmatch_plain (name pat : string) : bool :=
  wild_match (list_ascii_of_string pat) (list_ascii_of_string name).

(** * Vocabulary of the properties *)

(** ** Runs of a computation *)

(** [m'] is [m] with items added at its end. *)
Definition extends (m m' : env) : Prop := exists new, m' = (m ++ new)%list.

(** A computation on a state that holds the match list under [proj] is
    append-only when every run leaves a list that extends the one it
    found. *)
Definition append_only {S A} (proj : S -> env) (c : ST S A) : Prop :=
  forall s, extends (proj s) (proj (fst (c s))).

(** A computation that returns normally from every state. *)
Definition returns {S} (c : ST S unit) : Prop :=
  forall s, snd (c s) = Ok tt.

(** [c'] does what [c] does wherever [c] is not cut short. *)
Definition refines {S A} (c c' : ST S A) : Prop :=
  forall s, snd (c s) <> Timeout -> c' s = c s.

(** A computation indexed by its step budget. *)
Definition mono {S A} (c : nat -> ST S A) : Prop :=
  forall f f', (f <= f')%nat -> refines (c f) (c f').

(** Some budget lets [c] end from the state [s]. *)
Definition halts_at {S A} (c : nat -> ST S A) (s : S) : Prop :=
  exists f, snd (c f s) <> Timeout.

(** The length of the chain that starts at a node. *)
Fixpoint chain_length (n : node) : nat :=
  S (match node_next n with
     | Some n' => chain_length n'
     | None => O
     end).

(** ** Paths, names and trees *)

(** No ["/"] in [s]. *)
Definition slash_free (s : string) : bool :=
  Regexp.all_chars (fun c => negb (Ascii.eqb c "/")) s.

(** A name a directory listing can hold: not empty and without ["/"]. *)
Definition name_ok (e : string) : bool := truthy_str e && slash_free e.

(** Nothing but ["/"] in [s]. *)
Definition all_slashes (s : string) : bool :=
  Regexp.all_chars (fun c => Ascii.eqb c "/") s.

(** A separator as [path_split] finds them: a run of ["/"], or unset. *)
Definition sep_ok (separator : option string) : Prop :=
  match separator with
  | None => True
  | Some s => all_slashes s = true
  end.

(** Listings hold each name once, and only names. *)
Definition names_ok (fs : FS) : Prop :=
  forall p ents, listdir fs p = Some ents ->
    NoDup ents /\ Forall (fun e => name_ok e = true) ents.

(** The directory structure is a finite tree below every path: going down
    into a listed subdirectory lowers a rank, so no chain of
    subdirectories is endless and none comes back to where it began. *)
Definition tree_like (fs : FS) : Prop :=
  exists rank : string -> nat,
    forall separator p ents e,
      listdir fs p = Some ents -> In e ents ->
      isdir fs (path_join separator (Some p) e) = true ->
      (rank (path_join separator (Some p) e) < rank p)%nat.

(** [path_join] puts a text that depends on the parent before the entry. *)
Definition join_prefix (separator : option string) (p : string) : string :=
  if negb (truthy_str p) then ""
  else if String.eqb p "/" then "/"
  else p ++ get_separator separator.

(** [below separator q y]: [y] is reached from [q] by joining one name
    after another. *)
Inductive below (separator : option string) (q : string) : string -> Prop :=
| below_child (e : string) :
    name_ok e = true -> below separator q (path_join separator (Some q) e)
| below_step (y e : string) :
    below separator q y -> name_ok e = true ->
    below separator q (path_join separator (Some y) e).

(** ** Walks *)

(** The invariant of a walk: no path was appended twice, the worklist is
    part of what was appended, and no appended path lies below a path that
    still waits on the worklist. *)
Record walk_inv (separator : option string) (w : walk) : Prop := {
  inv_pushed : NoDup (pushed w);
  inv_stack : NoDup (stack w);
  inv_incl : incl (stack w) (pushed w);
  inv_below : forall y q, In y (pushed w) -> In q (stack w) ->
                          ~ below separator q y
}.

(** [w] is [w0] after some children of [parent], taken from the entries
    [done], were appended. *)
Definition children_added (separator : option string)
    (parent : option string) (w0 : walk) (done : list string) (w : walk)
  : Prop :=
  exists new,
    stack w = (stack w0 ++ new)%list /\ pushed w = (pushed w0 ++ new)%list
    /\ NoDup new
    /\ forall c, In c new ->
         exists e, In e done /\ c = path_join separator parent e.

(** The body of one turn of the worklist loop, for the popped [path]. *)
Definition turn (fs : FS) (next_call : option string -> ST env unit)
    (flags : Z) (separator : option string) (path : string)
  : ST walk unit :=
  catch_OSError
    (ents <- os_listdir fs path ;;
     for_each ents (fun ent =>
       let full := path_join separator (Some path) ent in
       descend fs next_call flags full ent)).

(** The worklist loop ends from [w] under some pair of budgets: [a] turns
    of the loop, [b] steps for the continuation. *)
Definition loop_halts (fs : FS)
    (next_call : nat -> option string -> ST env unit) (flags : Z)
    (separator : option string) (w : walk) : Prop :=
  exists a b,
    snd (while_stack fs a (next_call b) flags separator w) <> Timeout.

(** ** What the leaves and the walk append *)

(** The matches an [EntryMatch] leaf finds among [entries]. *)
Definition entry_matches (fnmatch : string -> string -> bool)
    (separator : option string) (glob : string) (suffixes : list string)
    (path : option string) (entries : list string) : list string :=
  flat_map (fun f =>
    flat_map (fun suffix =>
      if fnmatch (f ++ suffix)%string glob
      then [path_join separator path (f ++ suffix)]
      else []) suffixes) entries.

(** A path the walk may append: a directory, the joined path of an entry
    listed in [dir], whose name does not start with a dot unless
    [allow_dots] holds.  The entry is joined to [dir], or to nothing when
    it is an entry of the working directory. *)
Definition listed_subdirectory (fs : FS) (flags : Z)
    (separator : option string) (p : string) : Prop :=
  isdir fs p = true
  /\ exists dir ents ent,
       listdir fs dir = Some ents /\ In ent ents
       /\ (p = path_join separator (Some dir) ent \/ (dir = "." /\ p = ent))
       /\ (allow_dots flags = true
           \/ exists c, String.get 0 ent = Some c /\ c <> "."%char).

(** Every path in the record is the seed or a listed subdirectory. *)
Definition pushed_sound (fs : FS) (flags : Z) (separator : option string)
    (seed : option string) (w : walk) : Prop :=
  forall p, In p (pushed w) ->
    seed = Some p \/ listed_subdirectory fs flags separator p.

(** ** The parts of a pattern *)

(** ["".join(parts)] *)
Definition join_parts (parts : list string) : string :=
  fold_right append "" parts.

(** [s] does not begin with ["/"]. *)
Definition no_leading_slash (s : string) : bool :=
  match s with
  | String c _ => negb (Ascii.eqb c "/")
  | EmptyString => true
  end.

(** Parts as [path_split] returns them: segments without ["/"] and runs of
    ["/"] in turn, a segment first; no run is empty, and no segment is,
    but for the first one when [strict] is off. *)
Fixpoint alternates (strict : bool) (parts : list string) : Prop :=
  match parts with
  | [] => True
  | [seg] => slash_free seg = true /\ seg <> ""
  | seg :: sep :: rest =>
      slash_free seg = true /\ (strict = true -> seg <> "")
      /\ all_slashes sep = true /\ sep <> ""
      /\ alternates true rest
  end.

(** Segment and run pairs, as the splitting loop collects them. *)
Fixpoint pairs_ok (strict : bool) (mid : list string) : Prop :=
  match mid with
  | [] => True
  | [_] => False
  | seg :: sep :: rest =>
      slash_free seg = true /\ (strict = true -> seg <> "")
      /\ all_slashes sep = true /\ sep <> ""
      /\ pairs_ok true rest
  end.

(** The text of [s] before its first ["/"]. *)
Fixpoint first_segment (s : string) : string :=
  match s with
  | EmptyString => EmptyString
  | String c s' =>
      if Ascii.eqb c "/" then EmptyString else String c (first_segment s')
  end.

(** The text of [s] after its last ["/"]. *)
Fixpoint last_segment (s : string) : string :=
  match s with
  | EmptyString => EmptyString
  | String c s' =>
      if slash_free s' then (if Ascii.eqb c "/" then s' else s)
      else last_segment s'
  end.

(** ** Compiled chains *)

(** A separator the compiler has set: a run of ["/"] that is not empty. *)
Definition slash_sep (separator : option string) : Prop :=
  exists r, separator = Some r /\ r <> "" /\ all_slashes r = true.

(** A chain below the root: directory nodes, each with a continuation that
    carries a separator, down to an [EntryMatch] or [DirectoriesOnly] leaf
    without continuation; every node holds the flags [fl]. *)
Fixpoint inner_chain (fl : Z) (n : node) : Prop :=
  match n with
  | EntryMatch None f _ _ _ => f = fl
  | DirectoriesOnly None f _ => f = fl
  | ConstantDirectory (Some n') f _ _ =>
      f = fl /\ slash_sep (node_separator n') /\ inner_chain fl n'
  | DirectoryMatch (Some n') f _ _ =>
      f = fl /\ slash_sep (node_separator n') /\ inner_chain fl n'
  | RecursiveDirectories (Some n') f _ =>
      f = fl /\ slash_sep (node_separator n') /\ inner_chain fl n'
  | StartRecursiveDirectories (Some n') f _ =>
      f = fl /\ slash_sep (node_separator n') /\ inner_chain fl n'
  | _ => False
  end.

(** A compiled chain: an inner chain whose first node has no separator,
    or a [RootDirectory] over an inner chain. *)
Definition compiled_chain (fl : Z) (n : node) : Prop :=
  (inner_chain fl n /\ node_separator n = None)
  \/ exists n', n = RootDirectory (Some n') fl None
                /\ slash_sep (node_separator n') /\ inner_chain fl n'.

(** ** Exceptions *)

(** Every exception [c] can end in satisfies [P]. *)
Definition raises_only {S A} (P : exn -> Prop) (c : ST S A) : Prop :=
  forall s e, snd (c s) = Raise e -> P e.

(** The exceptions of a walk over the filesystem. *)
Definition walk_error (e : exn) : Prop :=
  e = OSError \/ e = IndexError \/ e = TypeError.

(** The exceptions of the compiler. *)
Definition compile_error (e : exn) : Prop :=
  e = IndexError \/ e = TypeError \/ e = AssertionError.

(** The exceptions of the brace expander: those of the compiler, and
    [NameError] where escaping is on. *)
Definition expand_error (fl : Z) (e : exn) : Prop :=
  compile_error e \/ (e = NameError /\ Z.land fl FNM_NOESCAPE = 0).

(** What a compilation that appends to [pats] may end in; [Q] holds of
    the chains in the list. *)
Definition compile_ends (fl : Z) (Q : node -> Prop) (pats : list node)
    (r : outcome (list node)) : Prop :=
  match r with
  | Ok l => Forall Q l /\ exists new, l = (pats ++ new)%list
  | Raise e => expand_error fl e
  | Timeout => True
  end.

(** ** Groups of braces *)

(** [sep.join(parts)] for a separator of one character. *)
Fixpoint join_with (sep : ascii) (parts : list string) : string :=
  match parts with
  | [] => ""
  | [b] => b
  | b :: rest => b ++ String sep (join_with sep rest)
  end.

(** No ["{"] in [s]. *)
Definition brace_free (s : string) : bool :=
  Regexp.all_chars (fun c => negb (Ascii.eqb c "{")) s.

(** A character the first scan of [compile] passes over: no brace and no
    backslash. *)
Definition scan_plain_char (c : ascii) : bool :=
  negb (Ascii.eqb c "{" || Ascii.eqb c "}" || Ascii.eqb c "\").

(** No brace and no backslash in [s]. *)
Definition scan_plain (s : string) : bool :=
  Regexp.all_chars scan_plain_char s.

(** No brace, no backslash and no ["?"] in [s]. *)
Definition plain_alternative (s : string) : bool :=
  Regexp.all_chars
    (fun c => scan_plain_char c && negb (Ascii.eqb c "?")) s.

(** The recursive calls of [compile] for the alternatives [bs], in turn,
    each on the list the one before has left. *)
Fixpoint expand_each (recur : string -> list node -> outcome (list node))
    (front back : string) (bs : list string) (pats : list node)
  : outcome (list node) :=
  match bs with
  | [] => Ok pats
  | b :: bs' =>
      obind (recur (front ++ b ++ back) pats)
        (fun pats' => expand_each recur front back bs' pats')
  end.

(** ** Chains and filesystems of the examples *)

(** Modelled from the spec: the chain for ["a/b/c.txt"] "with folding
    disabled (one ConstantDirectory node per segment)"; the compiler has no
    such mode.  Separators are the ones [path_split] finds. *)
Definition unfolded_a_b_c (flags : Z) : node :=
  ConstantDirectory
    (Some (ConstantDirectory
             (Some (ConstantEntry None flags (Some "/") "c.txt" [""]))
             flags (Some "/") "b"))
    flags None "a".

(** A filesystem that holds the one path [p]. *)
Definition fs_only (p : string) : FS :=
  {| exists_ := String.eqb p;
     isdir := fun _ => false;
     listdir := fun _ => None |}.

(** A directory that holds [.hidden] and [visible]. *)
Definition fs_hidden : FS :=
  {| exists_ := fun _ => true;
     isdir := fun _ => false;
     listdir := fun p => if String.eqb p "." then Some [".hidden"; "visible"]
                         else None |}.

(** A working directory with one subdirectory [d] that cannot be listed. *)
Definition fs_unreadable : FS :=
  {| exists_ := fun _ => true;
     isdir := fun p => String.eqb p "d";
     listdir := fun p => if String.eqb p "." then Some ["d"] else None |}.

(** A small tree: the working directory holds the directory [a] and the
    file [f]; [a] holds the directory [b], which is empty. *)
Definition fs_tree : FS :=
  {| exists_ := fun _ => true;
     isdir := fun p => String.eqb p "a" || String.eqb p "a/b";
     listdir := fun p =>
       if String.eqb p "." then Some ["a"; "f"]
       else if String.eqb p "a" then Some ["b"]
       else if String.eqb p "a/b" then Some []
       else None |}.

(** A rank on [fs_tree]: the height of a directory, and more for all
    else. *)
Definition rank_tree (p : string) : nat :=
  if String.eqb p "a/b" then 0%nat
  else if String.eqb p "a" then 1%nat
  else 2%nat.

(** The leaf of the chain that ["**/*"] compiles to. *)
Definition leaf_star : node := EntryMatch None 0 (Some "/") "*" [""].

(** A root directory that holds [bin] and [etc]. *)
Definition fs_root : FS :=
  {| exists_ := fun _ => true;
     isdir := fun _ => false;
     listdir := fun p => if String.eqb p "/" then Some ["bin"; "etc"]
                         else None |}.

(** * Properties *)

(** ** Strings *)

Lemma append_nil_r (s : string) : s ++ "" = s.
Proof. induction s; cbn; congruence. Qed.

Lemma append_assoc (a b c : string) : (a ++ b) ++ c = a ++ b ++ c.
Proof. induction a; cbn; congruence. Qed.

Lemma length_append (a b : string) :
  String.length (a ++ b) = (String.length a + String.length b)%nat.
Proof. induction a; cbn; congruence. Qed.

Lemma append_inv_tail (a a' s : string) : a ++ s = a' ++ s -> a = a'.
Proof.
  revert a'. induction a as [| c a IH]; intros [| c' a'] H; cbn in H.
  - reflexivity.
  - apply (f_equal String.length) in H. cbn in H.
    rewrite length_append in H. lia.
  - apply (f_equal String.length) in H. cbn in H.
    rewrite length_append in H. lia.
  - injection H as -> H. f_equal. now apply IH.
Qed.

(** ** The match list only grows *)

Lemma extends_refl (m : env) : extends m m.
Proof. exists []. now rewrite app_nil_r. Qed.

Lemma extends_trans (m1 m2 m3 : env) :
  extends m1 m2 -> extends m2 m3 -> extends m1 m3.
Proof.
  intros [a ->] [b ->]. exists (a ++ b)%list. now rewrite app_assoc.
Qed.

Lemma extends_append (m : env) (p : string) : extends m (m ++ [p])%list.
Proof. now exists [p]. Qed.

Create HintDb glob.

#[local] Hint Resolve extends_refl extends_append : glob.

Section AppendOnly.

Context {S : Type} (proj : S -> env).

Lemma append_only_ret {A} (a : A) : append_only proj (ret a).
Proof. intros s; cbn; auto with glob. Qed.

Lemma append_only_raise {A} (e : exn) : append_only proj (@raise S A e).
Proof. intros s; cbn; auto with glob. Qed.

Lemma append_only_timeout {A} : append_only proj (@timeout S A).
Proof. intros s; cbn; auto with glob. Qed.

Lemma append_only_lift {A} (o : outcome A) : append_only proj (lift o).
Proof. intros s; cbn; auto with glob. Qed.

Lemma append_only_bind {A B} (c : ST S A) (k : A -> ST S B) :
  append_only proj c -> (forall a, append_only proj (k a)) ->
  append_only proj (bind c k).
Proof.
  intros Hc Hk s. unfold bind. specialize (Hc s).
  destruct (c s) as [s' [a | e |]]; cbn in *; auto.
  eapply extends_trans; [exact Hc | apply Hk].
Qed.

Lemma append_only_catch (c : ST S unit) :
  append_only proj c -> append_only proj (catch_OSError c).
Proof.
  intros Hc s. unfold catch_OSError. specialize (Hc s).
  destruct (c s) as [s' [[] | [] |]]; cbn in *; auto.
Qed.

Lemma append_only_for_each {A} (l : list A) (body : A -> ST S unit) :
  (forall x, append_only proj (body x)) ->
  append_only proj (for_each l body).
Proof.
  intros Hb. induction l as [| x l IH]; cbn.
  - apply append_only_ret.
  - apply append_only_bind; auto.
Qed.

Lemma append_only_if {A} (b : bool) (c1 c2 : ST S A) :
  append_only proj c1 -> append_only proj c2 ->
  append_only proj (if b then c1 else c2).
Proof. now destruct b. Qed.

End AppendOnly.

#[local] Hint Resolve append_only_ret append_only_raise append_only_timeout
  append_only_lift append_only_bind append_only_catch append_only_for_each
  append_only_if : glob.

Lemma append_only_matches_append (p : string) :
  append_only (fun m => m) (matches_append p).
Proof. intros m; cbn; auto with glob. Qed.

Lemma append_only_in_walk {A} (c : ST env A) :
  append_only (fun m => m) c -> append_only wenv (in_walk c).
Proof.
  intros Hc w. unfold in_walk. specialize (Hc (wenv w)).
  destruct (c (wenv w)) as [m r]; cbn in *; auto.
Qed.

Lemma append_only_stack_append (p : string) :
  append_only wenv (stack_append p).
Proof. intros w; cbn; auto with glob. Qed.

Lemma append_only_stack_pop : append_only wenv stack_pop.
Proof.
  intros w. unfold stack_pop.
  destruct (Py.pop (stack w)) as [[p rest] | e |]; cbn; auto with glob.
Qed.

Lemma append_only_os_listdir {S} (proj : S -> env) (fs : FS) (p : string) :
  append_only proj (os_listdir fs p).
Proof. unfold os_listdir. destruct (listdir fs p); auto with glob. Qed.

#[local] Hint Resolve append_only_matches_append append_only_in_walk
  append_only_stack_append append_only_stack_pop append_only_os_listdir
  : glob.

Section EngineAppendOnly.

Variable fnmatch : string -> string -> bool.
Variable fs : FS.

#[local] Abbreviation env_only := (append_only (fun m : env => m)).

Lemma append_only_ConstantEntry sep name suffixes parent :
  env_only (ConstantEntry_call fs sep name suffixes parent).
Proof.
  unfold ConstantEntry_call. apply append_only_for_each. intros s.
  apply append_only_if; auto with glob.
Qed.

Lemma append_only_DirectoriesOnly path :
  env_only (DirectoriesOnly_call fs path).
Proof.
  unfold DirectoriesOnly_call. destruct path; auto with glob.
Qed.

Lemma append_only_EntryMatch sep glob suffixes path :
  env_only (EntryMatch_call fnmatch fs sep glob suffixes path).
Proof.
  unfold EntryMatch_call. apply append_only_if; auto with glob.
  intros m. unfold os_listdir.
  destruct (listdir fs _) as [entries |]; cbn; auto with glob.
  apply (append_only_for_each (fun m : env => m)). intros f.
  apply append_only_for_each. intros suffix.
  apply append_only_if; auto with glob.
Qed.

Lemma append_only_DirectoryMatch next_call sep glob path :
  (forall p, env_only (next_call p)) ->
  env_only (DirectoryMatch_call fnmatch fs next_call sep glob path).
Proof.
  intros Hn. unfold DirectoryMatch_call.
  apply append_only_if; [apply append_only_ret |].
  apply append_only_bind; [apply append_only_os_listdir |]. intros ents.
  apply append_only_for_each. intros ent.
  repeat apply append_only_if; auto with glob.
Qed.

Lemma append_only_descend next_call flags full ent :
  (forall p, env_only (next_call p)) ->
  append_only wenv (descend fs next_call flags full ent).
Proof.
  intros Hn. unfold descend.
  apply append_only_bind.
  - repeat apply append_only_if; auto with glob.
  - intros []; auto with glob.
Qed.

Lemma append_only_while_stack fuel next_call flags sep :
  (forall p, env_only (next_call p)) ->
  append_only wenv (while_stack fs fuel next_call flags sep).
Proof.
  intros Hn. induction fuel as [| fuel IH]; intros w; cbn.
  - destruct (stack w); cbn; auto with glob.
  - destruct (stack w) eqn:E; cbn; auto with glob.
    revert w E. intros w _.
    apply (append_only_bind wenv); auto with glob. intros path.
    apply append_only_bind; auto.
    apply append_only_catch. apply append_only_bind; auto with glob.
    intros ents. apply append_only_for_each. intros ent.
    now apply append_only_descend.
Qed.

Lemma append_only_call_with_stack fuel next_call switched_call flags sep
    start :
  (forall p, env_only (next_call p)) ->
  (forall p, env_only (switched_call p)) ->
  append_only wenv
    (call_with_stack fs fuel next_call switched_call flags sep start).
Proof.
  intros Hn Hs. unfold call_with_stack.
  apply append_only_bind; auto with glob. intros _.
  now apply append_only_while_stack.
Qed.

Lemma append_only_RecursiveDirectories fuel next_call switched_call flags
    sep start :
  (forall p, env_only (next_call p)) ->
  (forall p, env_only (switched_call p)) ->
  env_only (fun m => end_walk
    (RecursiveDirectories_walk fs fuel next_call switched_call flags sep
       start m)).
Proof.
  intros Hn Hs m. unfold RecursiveDirectories_walk, end_walk.
  destruct start as [s |]; cbn; auto with glob.
  destruct (exists_ fs s); cbn; auto with glob.
  apply (append_only_call_with_stack fuel next_call switched_call flags sep
           (Some s) Hn Hs (new_walk [s] m)).
Qed.

Lemma append_only_StartRecursiveDirectories fuel next_call switched_call
    flags sep start :
  (forall p, env_only (next_call p)) ->
  (forall p, env_only (switched_call p)) ->
  env_only (fun m => end_walk
    (StartRecursiveDirectories_walk fs fuel next_call switched_call flags
       sep start m)).
Proof.
  intros Hn Hs m. unfold StartRecursiveDirectories_walk, end_walk.
  destruct (truthy start); cbn -[bind]; auto with glob.
  refine (append_only_bind wenv _ _ _ _ (new_walk [] m));
    auto with glob.
  intros ents. apply append_only_bind.
  - apply append_only_for_each. intros ent. now apply append_only_descend.
  - intros _. now apply append_only_call_with_stack.
Qed.

Lemma append_only_call fuel :
  forall n path, env_only (call fnmatch fs fuel n path).
Proof.
  induction fuel as [| fuel IH]; intros n path; [apply append_only_timeout |].
  assert (Hn : forall nxt p,
             env_only (call_next (call fnmatch fs fuel) nxt p)).
  { intros [n' |] p; cbn; auto with glob. }
  assert (Hs : forall nxt sep p,
             env_only (call_switched (call fnmatch fs fuel) nxt sep p)).
  { intros [n' |] sep p; cbn; auto with glob. }
  destruct n; cbn [call].
  - apply Hn.
  - apply append_only_ConstantEntry.
  - apply Hn.
  - apply append_only_RecursiveDirectories; auto.
  - apply append_only_StartRecursiveDirectories; auto.
  - apply append_only_DirectoryMatch; auto.
  - apply append_only_EntryMatch.
  - apply append_only_DirectoriesOnly.
Qed.

End EngineAppendOnly.

(** C8.  Whatever the node, the path, the filesystem and the step budget,
    and whether the call returns, raises or is cut short, the match list a
    [call] leaves is the list it was given, unchanged and in order, with
    the new matches after it. *)
Theorem call_appends_only :
  forall fnmatch fs fuel n path (m : env),
    exists new, fst (call fnmatch fs fuel n path m) = (m ++ new)%list.
Proof.
  intros. apply (append_only_call fnmatch fs fuel n path m).
Qed.

(** ** Calls that always return *)

Lemma returns_ret {S} : returns (@ret S unit tt).
Proof. now intros s. Qed.

Lemma returns_bind {S} (c : ST S unit) (k : unit -> ST S unit) :
  returns c -> returns (k tt) -> returns (bind c k).
Proof.
  intros Hc Hk s. unfold bind. specialize (Hc s).
  destruct (c s) as [s' r]; cbn in Hc; subst r. apply Hk.
Qed.

Lemma returns_for_each {S A} (l : list A) (body : A -> ST S unit) :
  (forall x, returns (body x)) -> returns (for_each l body).
Proof.
  intros Hb. induction l as [| x l IH]; cbn.
  - apply returns_ret.
  - now apply returns_bind.
Qed.

Lemma returns_matches_append (p : string) : returns (matches_append p).
Proof. now intros m. Qed.

(** [EntryMatch.call] returns whatever the filesystem does: the listing
    error is caught. *)
Lemma EntryMatch_call_returns fnmatch fs sep glob suffixes path :
  returns (EntryMatch_call fnmatch fs sep glob suffixes path).
Proof.
  unfold EntryMatch_call.
  destruct (match path with Some _ => _ | None => _ end);
    [apply returns_ret |].
  intros m. unfold os_listdir.
  destruct (listdir fs _) as [entries |]; cbn; [| reflexivity].
  apply returns_for_each. intros f. apply returns_for_each. intros suffix.
  destruct (ismatch _ _ _); [apply returns_matches_append | apply returns_ret].
Qed.

(** ** What the compiler builds *)

Example path_split_literal :
  path_split "a/b/c.txt" = Ok ["a"; "/"; "b"; "/"; "c.txt"].
Proof. reflexivity. Qed.

Example path_split_root : path_split "/a//b" = Ok [""; "/"; "a"; "//"; "b"].
Proof. reflexivity. Qed.

Example path_split_empty : path_split "" = Raise IndexError.
Proof. reflexivity. Qed.

Example single_compile_star (flags : Z) :
  single_compile "*" flags None = Ok (EntryMatch None flags None "*" [""]).
Proof. reflexivity. Qed.

Example single_compile_rooted (flags : Z) :
  single_compile "/a/b/*" flags None =
  Ok (RootDirectory
        (Some (ConstantDirectory
                 (Some (EntryMatch None flags (Some "/") "*" [""]))
                 flags (Some "/") "a/b"))
        flags None).
Proof. reflexivity. Qed.

(** A relative pattern whose directory part is literal stops in the folding
    code: once the first segment is taken, [partidx] is [-2] and the
    assertion on it fails. *)
Example single_compile_relative_literal (flags : Z) :
  single_compile "a/b/*" flags None = Raise AssertionError.
Proof. reflexivity. Qed.

Example single_compile_directory (flags : Z) :
  single_compile "dir/" flags None = Raise AssertionError.
Proof. reflexivity. Qed.

(** A leaf made of name characters is handed to [ConstantEntry]. *)
Example single_compile_constant (flags : Z) :
  single_compile "foo" flags None = Raise TypeError.
Proof. reflexivity. Qed.

Example compile_nested_braces (flags : Z) :
  compile 13 "a{b{c,d},e}f" flags [] =
  Ok [EntryMatch None flags None "abc,d,ef" [""]].
Proof. destruct flags; reflexivity. Qed.

Example compile_question_mark (flags : Z) :
  compile 8 "x{*?.*}" flags [] =
  Ok [EntryMatch None flags None "x*" [""];
      EntryMatch None flags None "x.*" [""]].
Proof. destruct flags; reflexivity. Qed.

(** ** The claims on [glob] *)

Lemma bind_eq {S A B} (c : ST S A) (k : A -> ST S B) (s s' : S) (a : A) :
  c s = (s', Ok a) -> bind c k s = k a s'.
Proof. intros H. unfold bind. now rewrite H. Qed.

Lemma returns_eq {S} (c : ST S unit) (s : S) :
  returns c -> c s = (fst (c s), Ok tt).
Proof. intros H. specialize (H s). destruct (c s); cbn in *. now subst. Qed.

(** [run] on an [EntryMatch] leaf returns the list the leaf has filled. *)
Lemma run_EntryMatch fnmatch fs fuel nxt fl sep g su (m : env) :
  run fnmatch fs (S fuel) (EntryMatch nxt fl sep g su) m =
  (fst (EntryMatch_call fnmatch fs sep g su None m),
   Ok (fst (EntryMatch_call fnmatch fs sep g su None m))).
Proof.
  unfold run. erewrite bind_eq; [reflexivity |]. cbn [call].
  apply returns_eq, EntryMatch_call_returns.
Qed.

(** C1.  On a pattern with a brace the method runs every chain and then
    falls off its end: the call returns [None], not the list.  Shown on
    ["{*}"], for every matcher, filesystem, flag set and list passed in. *)
Theorem glob_brace_returns_None :
  forall fnmatch fs fuel flags (m : env),
    snd (glob fnmatch fs (S fuel) "{*}" flags m) = Ok None.
Proof.
  intros. unfold glob.
  change (Py.contains "{" "{*}") with true. cbv iota.
  assert (E : compile (S (String.length "{*}")) "{*}" flags [] =
              Ok [EntryMatch None flags None "*" [""]]).
  { destruct flags; reflexivity. }
  rewrite E. erewrite bind_eq by reflexivity.
  erewrite bind_eq; [reflexivity |]. cbn [for_each].
  erewrite bind_eq; [reflexivity |].
  erewrite bind_eq; [reflexivity |]. apply run_EntryMatch.
Qed.

(** The same pattern without the brace returns the list. *)
Lemma glob_star_returns_list :
  forall fnmatch fs fuel flags (m : env),
    exists l, glob fnmatch fs (S fuel) "*" flags m = (l, Ok (Some l)).
Proof.
  intros. unfold glob. change (Py.contains "{" "*") with false. cbv iota.
  rewrite single_compile_star. erewrite bind_eq by reflexivity.
  erewrite bind_eq by apply run_EntryMatch. now eexists.
Qed.

(** Whatever the pattern, once it holds a brace [glob] returns no list. *)
Lemma glob_brace_no_list fnmatch fs fuel pattern flags (m : env) l :
  Py.contains "{" pattern = true ->
  snd (glob fnmatch fs fuel pattern flags m) <> Ok (Some l).
Proof.
  intros H. unfold glob. rewrite H. unfold bind, lift, ret.
  destruct (compile _ pattern flags []) as [patterns | e |]; cbn;
    try discriminate.
  destruct (for_each patterns _ m) as [m' [[] | e |]]; cbn; discriminate.
Qed.

(** C2.  [compile] splits the brace body at ["?"], not at [","]: for
    ["a{b,c}d"] it builds one chain, whose leaf matches the text
    ["ab,cd"], where two chains for ["abd"] and ["acd"] are claimed. *)
Theorem compile_comma_not_split :
  forall flags,
    compile (S (String.length "a{b,c}d")) "a{b,c}d" flags [] =
    Ok [EntryMatch None flags None "ab,cd" [""]].
Proof. intros flags. destruct flags; reflexivity. Qed.

(** C3.  The empty pattern makes [path_split] read [ret[-1]] on the list it
    has just emptied: [glob] raises [IndexError] and returns no list. *)
Theorem glob_empty_raises :
  forall fnmatch fs fuel flags (m : env),
    glob fnmatch fs fuel "" flags m = (m, Raise IndexError).
Proof. reflexivity. Qed.

(** C4.  With folding, as the compiler does it, ["a/b/c.txt"] is not
    compiled at all: [glob] raises [TypeError] on every filesystem.  The
    unfolded chain, walked where the file exists, yields the path. *)
Theorem glob_literal_path_raises :
  (forall fnmatch fs fuel flags (m : env),
      glob fnmatch fs fuel "a/b/c.txt" flags m = (m, Raise TypeError))
  /\ (forall fnmatch flags,
      run fnmatch (fs_only "a/b/c.txt") 3 (unfolded_a_b_c flags) [] =
      (["a/b/c.txt"], Ok ["a/b/c.txt"])).
Proof. split; reflexivity. Qed.

(** Joining [a] and then [b] gives the path that joining the folded
    [a + sep_b + b] gives. *)
Lemma folded_path_join sep sep_b path a b :
  truthy_str sep_b = true -> truthy_str a = true -> a <> "/" ->
  path_join (Some sep_b) (Some (path_join sep path a)) b =
  path_join sep path (a ++ sep_b ++ b).
Proof.
  intros Hs Ha Hn.
  assert (Hget : get_separator (Some sep_b) = sep_b).
  { cbn. now rewrite Hs. }
  assert (Hlong : forall x y z : string,
             truthy_str x = true -> truthy_str y = true ->
             path_join (Some sep_b) (Some (x ++ y ++ z)) b =
             (x ++ y ++ z) ++ sep_b ++ b).
  { intros x y z Hx Hy. unfold path_join at 1. rewrite Hget.
    destruct x as [| c x]; [discriminate |].
    destruct y as [| d y]; [discriminate |].
    cbn [append truthy_str negb].
    destruct (String.eqb_spec (String c (x ++ String d (y ++ z))) "/")
      as [E | _]; [| reflexivity].
    injection E as _ E. destruct x; discriminate. }
  unfold path_join at 2 3.
  destruct path as [p |].
  - destruct (truthy_str p) eqn:Hp; cbn [negb].
    + destruct (String.eqb_spec p "/") as [-> | Hp'].
      * change ("/" ++ a) with ("/" ++ "" ++ a).
        destruct a as [| c a]; [discriminate |].
        unfold path_join. rewrite Hget. cbn. reflexivity.
      * rewrite Hlong; auto.
        -- now rewrite !append_assoc.
        -- destruct sep as [[| c s] |]; reflexivity.
    + unfold path_join. rewrite Ha, Hget. cbn [negb].
      destruct (String.eqb_spec a "/"); [contradiction | reflexivity].
  - unfold path_join. rewrite Ha, Hget. cbn [negb].
    destruct (String.eqb_spec a "/"); [contradiction | reflexivity].
Qed.

(** The engine walks a folded literal directory as it walks the two nodes
    it stands for. *)
Lemma folded_same_call fnmatch fs fuel nxt fl fl' sep sep_b a b path :
  truthy_str sep_b = true -> truthy_str a = true -> a <> "/" ->
  call fnmatch fs (S (S fuel))
    (ConstantDirectory
       (Some (ConstantDirectory nxt fl' (Some sep_b) b)) fl sep a) path =
  call fnmatch fs (S fuel)
    (ConstantDirectory nxt fl sep (a ++ sep_b ++ b)) path.
Proof.
  intros Hs Ha Hn. cbn [call call_next]. unfold ConstantDirectory_call.
  cbn [call call_next]. unfold ConstantDirectory_call.
  now rewrite folded_path_join.
Qed.

(** A name character is not ["/"], and a text of name characters holds
    neither a brace nor a separator. *)
Lemma name_char_not_slash (c : ascii) :
  Regexp.is_name_char c = true -> Ascii.eqb c "/" = false.
Proof.
  intros H. destruct (Ascii.eqb_spec c "/") as [-> | _]; [| reflexivity].
  discriminate.
Qed.

Lemma name_chars_no_brace (s : string) :
  Regexp.all_chars Regexp.is_name_char s = true ->
  String.index 0 "{" s = None.
Proof.
  induction s as [| b s IH]; [reflexivity |].
  cbn [Regexp.all_chars]. intros H. apply andb_prop in H as [Hb Hs].
  cbn [String.index].
  destruct (String.prefix "{" (String b s)) eqn:E.
  - apply prefix_correct in E. cbn in E. injection E as ->. discriminate.
  - now rewrite (IH Hs).
Qed.

Lemma name_chars_no_slash_run (s : string) (pos : nat) :
  Regexp.all_chars Regexp.is_name_char s = true ->
  Regexp.first_slash_run s pos = None.
Proof.
  revert pos. induction s as [| b s IH]; intros pos; [reflexivity |].
  cbn [Regexp.all_chars Regexp.first_slash_run]. intros H.
  apply andb_prop in H as [Hb Hs].
  rewrite (name_char_not_slash b Hb). now apply IH.
Qed.

Lemma substring_all (s : string) : substring 0 (String.length s) s = s.
Proof. induction s as [| c s IH]; cbn; congruence. Qed.

Lemma name_chars_no_separator (s : string) :
  Regexp.all_chars Regexp.is_name_char s = true ->
  Regexp.search_separators s 0 = None.
Proof.
  intros H. unfold Regexp.search_separators. cbn [Z.to_nat].
  rewrite Nat.sub_0_r, substring_all.
  now rewrite name_chars_no_slash_run.
Qed.

(** A pattern without separator is its own single part. *)
Lemma path_split_name (s : string) :
  Regexp.search_constant s = true -> path_split s = Ok [s].
Proof.
  unfold Regexp.search_constant. intros H. apply andb_prop in H as [Hne Hs].
  unfold path_split. cbn [path_split_loop].
  rewrite (name_chars_no_separator s Hs). cbn [obind Z.ltb Z.compare app].
  cbn [drop_empty_tail length]. unfold Py.index. cbn.
  destruct s as [| c s]; [discriminate |]. reflexivity.
Qed.

Lemma get_last (f : ascii -> bool) (s : string) :
  truthy_str s = true -> Regexp.all_chars f s = true ->
  exists c, String.get (String.length s - 1) s = Some c /\ f c = true.
Proof.
  induction s as [| a s IH]; [discriminate |].
  intros _ H. cbn [Regexp.all_chars] in H. apply andb_prop in H as [Ha Hs].
  destruct s as [| b s].
  - exists a. auto.
  - destruct (IH eq_refl Hs) as (c & Hc & Hf). exists c. split; [| exact Hf].
    replace (String.length (String a (String b s)) - 1)%nat
      with (S (String.length (String b s) - 1))%nat by (cbn; lia).
    exact Hc.
Qed.

Lemma getitem_last (f : ascii -> bool) (s : string) :
  truthy_str s = true -> Regexp.all_chars f s = true ->
  exists c, getitem s (-1) = Ok c /\ f c = true.
Proof.
  intros Hne Hs. destruct (get_last f s Hne Hs) as (c & Hc & Hf).
  exists c. split; [| exact Hf]. unfold getitem, len.
  assert (Hlen : (0 < String.length s)%nat)
    by (destruct s; [discriminate | cbn; lia]).
  cbn [Z.ltb Z.compare].
  destruct (-1 + Z.of_nat (String.length s) <? 0) eqn:E;
    [apply Z.ltb_lt in E; lia |].
  replace (Z.to_nat (-1 + Z.of_nat (String.length s)))
    with (String.length s - 1)%nat by lia.
  now rewrite Hc.
Qed.

(** Every pattern of name characters is compiled to a [ConstantEntry]
    leaf, and the constructor raises. *)
Lemma single_compile_name (s : string) (flags : Z) suffixes :
  Regexp.search_constant s = true ->
  single_compile s flags suffixes = Raise TypeError.
Proof.
  intros H. unfold single_compile. rewrite (path_split_name s H).
  cbn [obind].
  pose proof H as H'. unfold Regexp.search_constant in H'.
  apply andb_prop in H' as [Hne Hs].
  destruct (getitem_last _ s Hne Hs) as (c & -> & Hc). cbn [obind].
  rewrite (name_char_not_slash c Hc). cbn. now rewrite H.
Qed.

(** C5.  A pattern of name characters only never reaches the filesystem:
    building its [ConstantEntry] leaf raises [TypeError], whether or not
    the entry exists, and [glob] returns neither [[pattern]] nor [[]]. *)
Theorem glob_constant_raises :
  forall fnmatch fs fuel pattern flags (m : env),
    Regexp.search_constant pattern = true ->
    glob fnmatch fs fuel pattern flags m = (m, Raise TypeError).
Proof.
  intros fnmatch fs fuel pattern flags m H. unfold glob.
  assert (Hb : Py.contains "{" pattern = false).
  { unfold Py.contains, Py.find. unfold Regexp.search_constant in H.
    apply andb_prop in H as [_ Hs].
    now rewrite (name_chars_no_brace pattern Hs). }
  rewrite Hb. now rewrite (single_compile_name pattern flags None H).
Qed.

(** The pattern ["foo"], on a filesystem where [foo] exists. *)
Lemma glob_foo_raises :
  Regexp.search_constant "foo" = true
  /\ glob fnmatch_plain (fs_only "foo") 1 "foo" 0 [] = ([], Raise TypeError).
Proof.
  split; [reflexivity |].
  apply (glob_constant_raises fnmatch_plain (fs_only "foo") 1 "foo" 0 []).
  reflexivity.
Defined.

(** The method [ConstantEntry.call] itself, run on a node that has its
    attributes, appends every existing [stem + suffix], in suffix order. *)
Lemma ConstantEntry_call_filter fs sep name suffixes parent (m : env) :
  ConstantEntry_call fs sep name suffixes parent m =
  ((m ++ filter (exists_ fs)
          (map (fun s => path_join sep parent name ++ s)%string suffixes))%list,
   Ok tt).
Proof.
  unfold ConstantEntry_call. revert m.
  induction suffixes as [| s l IH]; intros m; cbn.
  - now rewrite app_nil_r.
  - unfold bind.
    destruct (exists_ fs (path_join sep parent name ++ s)) eqn:E; cbn.
    + rewrite IH. now rewrite <- app_assoc.
    + now rewrite IH.
Qed.

(** [ismatch] is not given the flags: the outcome of ["*"] is the same
    under any two flag sets. *)
Lemma glob_star_ignores_flags :
  forall fnmatch fs fuel flags1 flags2 (m : env),
    glob fnmatch fs fuel "*" flags1 m = glob fnmatch fs fuel "*" flags2 m.
Proof.
  intros. unfold glob. change (Py.contains "{" "*") with false. cbv iota.
  rewrite !single_compile_star. unfold lift, run, bind.
  destruct fuel; reflexivity.
Qed.

(** C6.  In a directory that holds [.hidden] and [visible], [glob("*")]
    returns both names without the dot-match flag, as it does with it. *)
Theorem glob_star_matches_hidden :
  glob fnmatch_plain fs_hidden 1 "*" 0 [] =
    ([".hidden"; "visible"], Ok (Some [".hidden"; "visible"]))
  /\ glob fnmatch_plain fs_hidden 1 "*" FNM_DOTMATCH [] =
    ([".hidden"; "visible"], Ok (Some [".hidden"; "visible"])).
Proof. split; reflexivity. Qed.

(** C7.  [DirectoryMatch.call] lists its directory outside any [try]: when
    [d] cannot be listed, the [OSError] leaves [glob("*/*/*")].  The
    sibling [EntryMatch.call] meets the same failure under ["*/*"] and
    returns with no match. *)
Theorem glob_listing_error_escapes :
  (forall fuel,
      glob fnmatch_plain fs_unreadable (S (S fuel)) "*/*/*" 0 [] =
      ([], Raise OSError))
  /\ (forall fuel,
      glob fnmatch_plain fs_unreadable (S (S fuel)) "*/*" 0 [] =
      ([], Ok (Some []))).
Proof. split; reflexivity. Qed.


(** The rewrite would have changed the text: ["***"] becomes ["**"], and
    the node keeps ["***"]. *)
Example DirectoryMatch_triple_star (flags : Z) :
  Py.replace "**" "*" "***" = "**"
  /\ single_compile "***/*" flags None =
     Ok (DirectoryMatch (Some (EntryMatch None flags (Some "/") "*" [""]))
           flags None "***").
Proof. split; reflexivity. Qed.

(** ** Paths as strings *)

Lemma slash_free_append (a b : string) :
  slash_free (a ++ b) = slash_free a && slash_free b.
Proof.
  unfold slash_free. induction a as [| c a IH]; cbn; [reflexivity |].
  rewrite IH. now rewrite andb_assoc.
Qed.

Lemma slash_free_slash (a b : string) : slash_free (a ++ String "/" b) = false.
Proof.
  rewrite slash_free_append. cbn. apply andb_false_r.
Qed.

(** A text is cut in one way only at its last ["/"]. *)
Lemma last_slash_unique (a a' e e' : string) :
  slash_free e = true -> slash_free e' = true ->
  a ++ String "/" e = a' ++ String "/" e' -> a = a' /\ e = e'.
Proof.
  intros He He'. revert a'.
  induction a as [| c a IH]; intros [| c' a'] H; cbn in H.
  - injection H as ->. auto.
  - injection H as _ H. subst e. now rewrite slash_free_slash in He.
  - injection H as _ H. subst e'. now rewrite slash_free_slash in He'.
  - injection H as -> H. destruct (IH _ H) as [-> ->]. auto.
Qed.

Lemma all_slashes_snoc (s : string) :
  all_slashes s = true -> String "/" s = s ++ "/".
Proof.
  unfold all_slashes. induction s as [| c s IH]; cbn; [reflexivity |].
  intros H. apply andb_prop in H as [Hc Hs].
  apply Ascii.eqb_eq in Hc. subst c. now rewrite <- IH.
Qed.

(** The separator a node joins with ends in ["/"]. *)
Lemma get_separator_snoc (separator : option string) :
  sep_ok separator ->
  exists s0, get_separator separator = s0 ++ "/".
Proof.
  destruct separator as [[| c s] |]; cbn; intros H.
  - now exists "".
  - unfold all_slashes in H. cbn in H. apply andb_prop in H as [Hc Hs].
    apply Ascii.eqb_eq in Hc. subst c. exists s.
    now apply all_slashes_snoc.
  - now exists "".
Qed.

Lemma path_join_prefix separator p e :
  path_join separator (Some p) e = join_prefix separator p ++ e.
Proof.
  unfold path_join, join_prefix.
  destruct (negb (truthy_str p)); [reflexivity |].
  destruct (String.eqb p "/"); [reflexivity |].
  now rewrite append_assoc.
Qed.

Lemma name_ok_inv e : name_ok e = true -> e <> "" /\ slash_free e = true.
Proof.
  unfold name_ok. intros H. apply andb_prop in H as [H1 H2].
  split; [| assumption]. now destruct e.
Qed.

(** A joined path is longer than its parent. *)
Lemma path_join_longer separator p e :
  name_ok e = true ->
  (String.length p < String.length (path_join separator (Some p) e))%nat.
Proof.
  intros He. apply name_ok_inv in He as [He _].
  assert (0 < String.length e)%nat by (destruct e; cbn; [congruence | lia]).
  unfold path_join.
  destruct p as [| c p]; cbn [truthy_str negb]; [assumption |].
  destruct (String.eqb_spec (String c p) "/") as [-> | _].
  - cbn. lia.
  - rewrite !length_append. lia.
Qed.

Lemma snoc_append (a e : string) : (a ++ "/") ++ e = a ++ String "/" e.
Proof. now rewrite append_assoc. Qed.

Lemma append_eq_nil (a b : string) : a ++ b = "" -> a = "".
Proof. now destruct a. Qed.

(** The text before the entry is empty for an empty parent and ends in
    ["/"] otherwise. *)
Lemma join_prefix_cases separator s0 p :
  get_separator separator = s0 ++ "/" ->
  (p = "" /\ join_prefix separator p = "")
  \/ (p <> "" /\ exists a,
        join_prefix separator p = a ++ "/"
        /\ ((a = "" /\ p = "/") \/ (a = p ++ s0 /\ p <> "/"))).
Proof.
  intros Hs0. unfold join_prefix. rewrite Hs0.
  destruct p as [| c p]; cbn [truthy_str negb]; [now left |].
  right. split; [discriminate |].
  destruct (String.eqb_spec (String c p) "/") as [-> | Hp].
  - exists "". auto.
  - exists (String c p ++ s0). rewrite append_assoc. auto.
Qed.

(** Parent and entry can be read back from a joined path. *)
Lemma path_join_inj separator p p' e e' :
  sep_ok separator -> name_ok e = true -> name_ok e' = true ->
  path_join separator (Some p) e = path_join separator (Some p') e' ->
  p = p' /\ e = e'.
Proof.
  intros Hsep He He'.
  apply name_ok_inv in He as [_ He]. apply name_ok_inv in He' as [_ He'].
  rewrite !path_join_prefix.
  destruct (get_separator_snoc separator Hsep) as [s0 Hs0].
  destruct (join_prefix_cases separator s0 p Hs0)
    as [[-> ->] | [Hp (a & -> & Ha)]];
    destruct (join_prefix_cases separator s0 p' Hs0)
    as [[-> ->] | [Hp' (a' & -> & Ha')]];
    rewrite ?snoc_append; cbn [append].
  - auto.
  - intros ->. now rewrite slash_free_slash in He.
  - intros <-. now rewrite slash_free_slash in He'.
  - intros H. apply last_slash_unique in H as [<- ->]; auto.
    split; [| reflexivity].
    destruct Ha as [[-> ->] | [-> _]]; destruct Ha' as [[Ha' ->] | [Ha' _]].
    + reflexivity.
    + symmetry in Ha'. apply append_eq_nil in Ha'. congruence.
    + apply append_eq_nil in Ha'. congruence.
    + now apply append_inv_tail in Ha'.
Qed.

Lemma append_inv_head (a e e' : string) : a ++ e = a ++ e' -> e = e'.
Proof.
  induction a as [| c a IH]; cbn; intros H; [assumption |].
  injection H as H. auto.
Qed.

(** One parent, two entries: the joined paths differ with the entries. *)
Lemma path_join_inj_entry separator parent e e' :
  path_join separator parent e = path_join separator parent e' -> e = e'.
Proof.
  destruct parent as [p |]; [| trivial].
  rewrite !path_join_prefix. apply append_inv_head.
Qed.

(** ** Paths below a path *)

Lemma below_longer separator q y :
  below separator q y -> (String.length q < String.length y)%nat.
Proof.
  induction 1 as [e He | y e _ IH He].
  - now apply path_join_longer.
  - pose proof (path_join_longer separator y e He). lia.
Qed.

Lemma below_irrefl separator q : ~ below separator q q.
Proof. intros H. apply below_longer in H. lia. Qed.

Lemma below_trans separator q y z :
  below separator q y -> below separator y z -> below separator q z.
Proof.
  intros Hqy Hyz. induction Hyz as [e He | z e _ IH He].
  - now apply below_step.
  - now apply below_step.
Qed.

(** What is below [q] and is a child of [p] sits at [p] or below it. *)
Lemma below_parent separator q p e :
  sep_ok separator -> name_ok e = true ->
  below separator q (path_join separator (Some p) e) ->
  q = p \/ below separator q p.
Proof.
  intros Hsep He H. inversion H as [e' He' Heq | y e' Hy He' Heq].
  - apply path_join_inj in Heq as [-> _]; auto.
  - apply path_join_inj in Heq as [-> _]; auto.
Qed.

(** Below a non-empty path every path has a ["/"]. *)
Lemma below_has_slash separator q y :
  sep_ok separator -> q <> "" -> below separator q y -> slash_free y = false.
Proof.
  intros Hsep Hq H.
  assert (Hjoin : forall p e, p <> "" ->
            slash_free (path_join separator (Some p) e) = false).
  { intros p e Hp. rewrite path_join_prefix.
    destruct (get_separator_snoc separator Hsep) as [s0 Hs0].
    destruct (join_prefix_cases separator s0 p Hs0)
      as [[-> _] | [_ (a & -> & _)]]; [congruence |].
    rewrite snoc_append. apply slash_free_slash. }
  destruct H as [e He | y e Hy He].
  - now apply Hjoin.
  - apply Hjoin. apply below_longer in Hy.
    destruct y; cbn in Hy; [lia | discriminate].
Qed.

(** ** The worklist holds each path once *)

Lemma pop_snoc {A} (l : list A) (x : A) : Py.pop (l ++ [x]) = Ok (x, l).
Proof.
  unfold Py.pop. rewrite rev_app_distr. cbn. now rewrite rev_involutive.
Qed.

Lemma nonempty_snoc {A} (l : list A) :
  l <> [] -> exists rest x, l = (rest ++ [x])%list.
Proof.
  intros H. destruct (exists_last H) as (rest & x & ->). eauto.
Qed.

Section WalkOnce.

Variable fs : FS.
Variable next_call : option string -> ST env unit.
Variable flags : Z.
Variable separator : option string.

Hypothesis Hsep : sep_ok separator.
Hypothesis Hnames : names_ok fs.

(** A step on the environment leaves worklist and record alone. *)
Lemma in_walk_frame {A} (c : ST env A) (w : walk) :
  stack (fst (in_walk c w)) = stack w
  /\ pushed (fst (in_walk c w)) = pushed w.
Proof. unfold in_walk. destruct (c (wenv w)); cbn. auto. Qed.

(** [descend] skips the entry, or raises on its name, or, for a
    directory, appends [full] and calls the continuation. *)
Lemma descend_cases full ent (w : walk) :
  descend fs next_call flags full ent w = (w, Ok tt)
  \/ descend fs next_call flags full ent w = (w, Raise IndexError)
  \/ (isdir fs full = true
      /\ descend fs next_call flags full ent w =
         (stack_append full ;;; in_walk (next_call (Some full))) w).
Proof.
  unfold descend.
  destruct (isdir fs full); [| left; reflexivity].
  destruct (allow_dots flags); [right; right; split; reflexivity |].
  unfold getitem. cbn [Z.ltb Z.compare Z.to_nat].
  destruct (String.get 0 ent) as [c |]; [| right; left; reflexivity].
  destruct (Ascii.eqb c ".") eqn:E.
  - left. unfold bind, lift, ret. cbn. now rewrite E.
  - right; right. split; [reflexivity |].
    unfold bind at 1 2, lift, ret. cbn. now rewrite E.
Qed.

(** [descend] appends [full] to worklist and record, or nothing. *)
Lemma descend_frame full ent (w : walk) :
  let w' := fst (descend fs next_call flags full ent w) in
  (stack w' = stack w /\ pushed w' = pushed w)
  \/ (stack w' = (stack w ++ [full])%list
      /\ pushed w' = (pushed w ++ [full])%list).
Proof.
  destruct (descend_cases full ent w) as [-> | [-> | [_ ->]]]; cbn; auto.
  right. unfold bind, stack_append.
  apply (in_walk_frame (next_call (Some full))
       {| stack := (stack w ++ [full])%list;
          pushed := (pushed w ++ [full])%list; wenv := wenv w |}).
Qed.

Lemma children_added_more parent w0 done done' w :
  incl done done' ->
  children_added separator parent w0 done w ->
  children_added separator parent w0 done' w.
Proof.
  intros Hi (new & H1 & H2 & H3 & H4). exists new. repeat split; auto.
  intros c Hc. destruct (H4 c Hc) as (e & He & ->). eauto.
Qed.

(** The [for ent in ...] loop over the entries of [parent]. *)
Lemma for_children parent w0 todo :
  forall done w,
    NoDup (done ++ todo) ->
    children_added separator parent w0 done w ->
    children_added separator parent w0 (done ++ todo)
      (fst (for_each todo (fun ent =>
              descend fs next_call flags
                (path_join separator parent ent) ent) w)).
Proof.
  induction todo as [| e todo IH]; intros done w Hnd Hw; cbn [for_each].
  - cbn. now rewrite app_nil_r.
  - assert (Hstep : children_added separator parent w0 (done ++ [e])
              (fst (descend fs next_call flags
                      (path_join separator parent e) e w))).
    { destruct Hw as (new & H1 & H2 & H3 & H4).
      destruct (descend_frame (path_join separator parent e) e w)
        as [[E1 E2] | [E1 E2]].
      - exists new. rewrite E1, E2. repeat split; auto.
        intros c Hc. destruct (H4 c Hc) as (e' & He' & ->).
        exists e'. split; [apply in_or_app; auto | reflexivity].
      - exists (new ++ [path_join separator parent e])%list.
        rewrite E1, E2, H1, H2, <- !app_assoc. repeat split; auto.
        + apply NoDup_app_remove_r in Hnd as Hd.
          apply NoDup_app; [assumption | repeat constructor; intros [] | ].
          intros c Hc [Hc' | []]. subst c.
          destruct (H4 _ Hc) as (e' & He' & Heq).
          apply path_join_inj_entry in Heq. subst e'.
          apply NoDup_remove_2 in Hnd. apply Hnd. apply in_or_app. auto.
        + intros c Hc. apply in_app_or in Hc as [Hc | [<- | []]].
          * destruct (H4 c Hc) as (e' & He' & ->).
            exists e'. split; [apply in_or_app; auto | reflexivity].
          * exists e. split; [apply in_or_app; cbn; auto | reflexivity]. }
    unfold bind.
    destruct (descend fs next_call flags (path_join separator parent e) e w)
      as [w' [[] | ex |]]; cbn [fst] in *.
    + replace (done ++ e :: todo)%list with ((done ++ [e]) ++ todo)%list
        by now rewrite <- app_assoc.
      apply IH; [now rewrite <- app_assoc | assumption].
    + eapply children_added_more; [| exact Hstep].
      intros x Hx. apply in_app_or in Hx as [Hx | [<- | []]];
        apply in_or_app; cbn; auto.
    + eapply children_added_more; [| exact Hstep].
      intros x Hx. apply in_app_or in Hx as [Hx | [<- | []]];
        apply in_or_app; cbn; auto.
Qed.


Lemma walk_inv_ext (w w' : walk) :
  stack w' = stack w -> pushed w' = pushed w ->
  walk_inv separator w -> walk_inv separator w'.
Proof.
  intros E1 E2 [H1 H2 H3 H4]. split; rewrite ?E1, ?E2; auto.
Qed.

(** After the pop of [p]: the invariant, with [p] off the worklist, nothing
    appended below [p], and [p] not below what waits. *)
Lemma walk_inv_pop (w : walk) rest p :
  walk_inv separator w -> stack w = (rest ++ [p])%list ->
  let w0 := {| stack := rest; pushed := pushed w; wenv := wenv w |} in
  walk_inv separator w0
  /\ (forall y, In y (pushed w0) -> ~ below separator p y)
  /\ (forall q, In q (stack w0) -> q <> p /\ ~ below separator q p).
Proof.
  intros [H1 H2 H3 H4] E. rewrite E in *. cbn.
  assert (Hp : In p (pushed w)) by (apply H3, in_or_app; cbn; auto).
  split; [| split].
  - split; cbn.
    + assumption.
    + now apply NoDup_app_remove_r in H2.
    + intros x Hx. apply H3, in_or_app. auto.
    + intros y q Hy Hq. apply H4; [assumption | apply in_or_app; auto].
  - intros y Hy. apply H4; [assumption | apply in_or_app; cbn; auto].
  - intros q Hq. split.
    + intros ->. apply NoDup_remove_2 in H2. rewrite app_nil_r in H2. auto.
    + apply H4; [assumption | apply in_or_app; auto].
Qed.

(** The invariant holds again once children of the popped [p] are on the
    worklist. *)
Lemma walk_inv_children (w0 w : walk) p ents :
  walk_inv separator w0 ->
  (forall y, In y (pushed w0) -> ~ below separator p y) ->
  (forall q, In q (stack w0) -> q <> p /\ ~ below separator q p) ->
  Forall (fun e => name_ok e = true) ents ->
  children_added separator (Some p) w0 ents w ->
  walk_inv separator w.
Proof.
  intros [H1 H2 H3 H4] F1 F2 Hok (new & E1 & E2 & Hnd & Hnew).
  rewrite Forall_forall in Hok.
  assert (Hc : forall c, In c new ->
            exists e, name_ok e = true /\ c = path_join separator (Some p) e).
  { intros c Hc. destruct (Hnew c Hc) as (e & He & ->). eauto. }
  assert (Hb : forall c, In c new -> below separator p c).
  { intros c Hin. destruct (Hc c Hin) as (e & He & ->).
    now apply below_child. }
  assert (Hfresh : forall c, In c new -> ~ In c (pushed w0)).
  { intros c Hin Hp. exact (F1 c Hp (Hb c Hin)). }
  split; rewrite ?E1, ?E2.
  - apply NoDup_app; auto. intros c Hc1 Hc2. exact (Hfresh c Hc2 Hc1).
  - apply NoDup_app; auto. intros c Hc1 Hc2. apply (Hfresh c Hc2), H3, Hc1.
  - intros x Hx. apply in_app_or in Hx as [Hx | Hx]; apply in_or_app; auto.
  - intros y q Hy Hq Hbel.
    apply in_app_or in Hy as [Hy | Hy]; apply in_app_or in Hq as [Hq | Hq].
    + exact (H4 y q Hy Hq Hbel).
    + apply (F1 y Hy). eapply below_trans; [apply Hb, Hq | exact Hbel].
    + destruct (Hc y Hy) as (e & He & ->).
      destruct (F2 q Hq) as [Hqp Hqb].
      apply below_parent in Hbel as [Heq | Hbel]; auto.
    + destruct (Hc y Hy) as (e & He & ->).
      apply Hb, below_longer in Hq.
      apply below_parent in Hbel as [Heq | Hbel]; auto.
      * subst q. lia.
      * apply below_longer in Hbel. lia.
Qed.

(** The same for the entries of the working directory, appended first on
    an empty worklist. *)
Lemma walk_inv_top (w0 w : walk) ents :
  stack w0 = [] -> pushed w0 = [] ->
  Forall (fun e => name_ok e = true) ents ->
  children_added separator None w0 ents w ->
  walk_inv separator w.
Proof.
  intros S0 P0 Hok (new & E1 & E2 & Hnd & Hnew).
  rewrite Forall_forall in Hok. rewrite S0 in E1. rewrite P0 in E2.
  cbn in E1, E2. split; rewrite ?E1, ?E2; auto.
  - intros x Hx. exact Hx.
  - intros y q Hy Hq Hbel.
    destruct (Hnew y Hy) as (e & He & ->).
    destruct (Hnew q Hq) as (e' & He' & ->). cbn in Hbel.
    apply Hok in He, He'.
    apply name_ok_inv in He as [_ He]. apply name_ok_inv in He' as [He' _].
    apply below_has_slash in Hbel; auto. congruence.
Qed.

Lemma catch_OSError_state {S} (c : ST S unit) (s : S) :
  fst (catch_OSError c s) = fst (c s).
Proof. unfold catch_OSError. now destruct (c s) as [s' [[] | [] |]]. Qed.

(** The state a [bind] ends in satisfies what both of its parts keep. *)
Lemma bind_state {S A B} (P : S -> Prop) (c : ST S A) (k : A -> ST S B)
    (s : S) :
  P (fst (c s)) -> (forall a s', P s' -> P (fst (k a s'))) ->
  P (fst (bind c k s)).
Proof.
  intros Hc Hk. unfold bind.
  destruct (c s) as [s' [a | e |]]; cbn in *; auto.
Qed.

(** The worklist loop keeps the invariant, wherever it stops. *)
Lemma while_stack_inv fuel :
  forall w, walk_inv separator w ->
    walk_inv separator
      (fst (while_stack fs fuel next_call flags separator w)).
Proof.
  induction fuel as [| fuel IH]; intros w Hw; cbn [while_stack].
  - destruct (stack w); cbn; assumption.
  - destruct (stack w) as [| x l] eqn:E; [assumption |].
    assert (Hne : stack w <> []) by (rewrite E; discriminate).
    clear E. destruct (nonempty_snoc _ Hne) as (rest & p & E).
    unfold bind at 1, stack_pop. rewrite E, pop_snoc.
    destruct (walk_inv_pop w rest p Hw E) as (H0 & F1 & F2).
    set (w0 := {| stack := rest; pushed := pushed w; wenv := wenv w |}) in *.
    apply bind_state; [| intros _ s' Hs'; now apply IH].
    rewrite catch_OSError_state. unfold bind, os_listdir.
    destruct (listdir fs p) as [ents |] eqn:El; cbn [raise fst]; [| exact H0].
    destruct (Hnames p ents El) as [Hnd Hok].
    cbn [ret].
    eapply walk_inv_children; eauto.
    apply (for_children (Some p) w0 ents [] w0 Hnd).
    exists []. rewrite !app_nil_r.
    repeat split; auto; [constructor | intros c []].
Qed.

Lemma call_with_stack_inv fuel switched_call start :
  forall w, walk_inv separator w ->
    walk_inv separator
      (fst (call_with_stack fs fuel next_call switched_call flags separator
              start w)).
Proof.
  intros w Hw. unfold call_with_stack.
  apply bind_state; [| intros _ s' Hs'; now apply while_stack_inv].
  destruct (in_walk_frame (switched_call start) w) as [E1 E2].
  eapply walk_inv_ext; eauto.
Qed.

Lemma walk_inv_seed (s : string) (m : env) :
  walk_inv separator (new_walk [s] m).
Proof.
  split; cbn.
  - repeat constructor. intros [].
  - repeat constructor. intros [].
  - intros x Hx. exact Hx.
  - intros y q [<- | []] [<- | []]. apply below_irrefl.
Qed.

Lemma walk_inv_empty (m : env) : walk_inv separator (new_walk [] m).
Proof.
  split; cbn; try constructor. - intros x []. - intros y q [].
Qed.

(** [RecursiveDirectories.call] appends no path twice. *)
Lemma RecursiveDirectories_walk_inv fuel switched_call start (m : env) :
  walk_inv separator
    (fst (RecursiveDirectories_walk fs fuel next_call switched_call flags
            separator start m)).
Proof.
  unfold RecursiveDirectories_walk.
  destruct start as [s |]; [| apply walk_inv_empty].
  destruct (exists_ fs s); cbn [negb]; [| apply walk_inv_empty].
  apply call_with_stack_inv, walk_inv_seed.
Qed.

(** [StartRecursiveDirectories.call] appends no path twice. *)
Lemma StartRecursiveDirectories_walk_inv fuel switched_call start (m : env) :
  walk_inv separator
    (fst (StartRecursiveDirectories_walk fs fuel next_call switched_call
            flags separator start m)).
Proof.
  unfold StartRecursiveDirectories_walk.
  destruct (truthy start); [apply walk_inv_empty |].
  unfold bind at 1, os_listdir.
  destruct (listdir fs ".") as [ents |] eqn:El; cbn [raise fst ret];
    [| apply walk_inv_empty].
  destruct (Hnames "." ents El) as [Hnd Hok].
  apply bind_state; [| intros _ s' Hs'; now apply call_with_stack_inv].
  eapply walk_inv_top with (w0 := new_walk [] m); eauto.
  apply (for_children None (new_walk [] m) ents [] (new_walk [] m) Hnd).
  exists []. repeat split; auto; [constructor | intros c []].
Qed.

End WalkOnce.

(** ** More fuel changes nothing once a run has ended *)

Lemma refines_refl {S A} (c : ST S A) : refines c c.
Proof. now intros s _. Qed.

Lemma refines_bind {S A B} (c c' : ST S A) (k k' : A -> ST S B) :
  refines c c' -> (forall a, refines (k a) (k' a)) ->
  refines (bind c k) (bind c' k').
Proof.
  intros Hc Hk s. unfold bind. specialize (Hc s).
  destruct (c s) as [s1 [a | e |]] eqn:E; cbn in Hc.
  - intros H. rewrite Hc by discriminate. now apply Hk.
  - intros _. now rewrite Hc by discriminate.
  - intros H. now elim H.
Qed.

Lemma refines_catch {S} (c c' : ST S unit) :
  refines c c' -> refines (catch_OSError c) (catch_OSError c').
Proof.
  intros Hc s. unfold catch_OSError. specialize (Hc s).
  destruct (c s) as [s1 [[] | e |]] eqn:E; cbn in Hc.
  - intros _. now rewrite Hc by discriminate.
  - intros _. now rewrite Hc by discriminate.
  - intros H. now elim H.
Qed.

Lemma refines_for_each {S A} (l : list A) (body body' : A -> ST S unit) :
  (forall x, refines (body x) (body' x)) ->
  refines (for_each l body) (for_each l body').
Proof.
  intros Hb. induction l as [| x l IH]; cbn [for_each].
  - apply refines_refl.
  - apply refines_bind; auto.
Qed.

Lemma refines_in_walk {A} (c c' : ST env A) :
  refines c c' -> refines (in_walk c) (in_walk c').
Proof.
  intros Hc w. unfold in_walk. specialize (Hc (wenv w)).
  destruct (c (wenv w)) as [m r] eqn:E. cbn. intros H.
  now rewrite Hc by exact H.
Qed.

Lemma refines_if {S A} (b : bool) (c1 c1' c2 c2' : ST S A) :
  refines c1 c1' -> refines c2 c2' ->
  refines (if b then c1 else c2) (if b then c1' else c2').
Proof. now destruct b. Qed.

Section EngineRefines.

Variable fnmatch : string -> string -> bool.
Variable fs : FS.

Lemma refines_descend next_call next_call' flags full ent :
  (forall p, refines (next_call p) (next_call' p)) ->
  refines (descend fs next_call flags full ent)
          (descend fs next_call' flags full ent).
Proof.
  intros Hn. unfold descend. apply refines_bind; [apply refines_refl |].
  intros []; [| apply refines_refl].
  apply refines_bind; [apply refines_refl |]. intros _.
  apply refines_in_walk, Hn.
Qed.

Lemma refines_while_stack next_call next_call' flags separator :
  (forall p, refines (next_call p) (next_call' p)) ->
  forall fuel fuel', (fuel <= fuel')%nat ->
    refines (while_stack fs fuel next_call flags separator)
            (while_stack fs fuel' next_call' flags separator).
Proof.
  intros Hn. induction fuel as [| fuel IH]; intros fuel' Hle w.
  - cbn [while_stack]. destruct (stack w) eqn:E.
    + intros _. destruct fuel'; cbn [while_stack]; now rewrite E.
    + intros H. now elim H.
  - destruct fuel' as [| fuel']; [lia |]. cbn [while_stack].
    destruct (stack w) eqn:E; [reflexivity |].
    apply refines_bind; [apply refines_refl |]. intros path.
    apply refines_bind.
    + apply refines_catch, refines_bind; [apply refines_refl |].
      intros ents. apply refines_for_each. intros ent.
      now apply refines_descend.
    + intros _. apply IH. lia.
Qed.

Lemma refines_call_with_stack next_call next_call' switched_call
    switched_call' flags separator start fuel fuel' :
  (forall p, refines (next_call p) (next_call' p)) ->
  (forall p, refines (switched_call p) (switched_call' p)) ->
  (fuel <= fuel')%nat ->
  refines
    (call_with_stack fs fuel next_call switched_call flags separator start)
    (call_with_stack fs fuel' next_call' switched_call' flags separator
       start).
Proof.
  intros Hn Hs Hle. unfold call_with_stack.
  apply refines_bind; [apply refines_in_walk, Hs |].
  intros _. now apply refines_while_stack.
Qed.

Lemma refines_RecursiveDirectories next_call next_call' switched_call
    switched_call' flags separator start fuel fuel' (m : env) :
  (forall p, refines (next_call p) (next_call' p)) ->
  (forall p, refines (switched_call p) (switched_call' p)) ->
  (fuel <= fuel')%nat ->
  snd (RecursiveDirectories_walk fs fuel next_call switched_call flags
         separator start m) <> Timeout ->
  RecursiveDirectories_walk fs fuel' next_call' switched_call' flags
    separator start m =
  RecursiveDirectories_walk fs fuel next_call switched_call flags
    separator start m.
Proof.
  intros Hn Hs Hle. unfold RecursiveDirectories_walk.
  destruct start as [s |]; [| reflexivity].
  destruct (negb (exists_ fs s)); [reflexivity |].
  now apply refines_call_with_stack.
Qed.

Lemma refines_StartRecursiveDirectories next_call next_call' switched_call
    switched_call' flags separator start fuel fuel' (m : env) :
  (forall p, refines (next_call p) (next_call' p)) ->
  (forall p, refines (switched_call p) (switched_call' p)) ->
  (fuel <= fuel')%nat ->
  snd (StartRecursiveDirectories_walk fs fuel next_call switched_call flags
         separator start m) <> Timeout ->
  StartRecursiveDirectories_walk fs fuel' next_call' switched_call' flags
    separator start m =
  StartRecursiveDirectories_walk fs fuel next_call switched_call flags
    separator start m.
Proof.
  intros Hn Hs Hle. unfold StartRecursiveDirectories_walk.
  destruct (truthy start); [reflexivity |].
  apply refines_bind; [apply refines_refl |]. intros ents.
  apply refines_bind.
  - apply refines_for_each. intros ent. now apply refines_descend.
  - intros _. now apply refines_call_with_stack.
Qed.

Lemma refines_DirectoryMatch next_call next_call' separator glob path :
  (forall p, refines (next_call p) (next_call' p)) ->
  refines (DirectoryMatch_call fnmatch fs next_call separator glob path)
          (DirectoryMatch_call fnmatch fs next_call' separator glob path).
Proof.
  intros Hn. unfold DirectoryMatch_call.
  apply refines_if; [apply refines_refl |].
  apply refines_bind; [apply refines_refl |]. intros ents.
  apply refines_for_each. intros ent.
  apply refines_if; [| apply refines_refl].
  apply refines_if; [apply Hn | apply refines_refl].
Qed.

(** A [call] that ends within [fuel] steps does the same with more. *)
Lemma call_refines :
  forall fuel fuel' n path, (fuel <= fuel')%nat ->
    refines (call fnmatch fs fuel n path) (call fnmatch fs fuel' n path).
Proof.
  induction fuel as [| fuel IH]; intros fuel' n path Hle.
  - intros m H. now elim H.
  - destruct fuel' as [| fuel']; [lia |].
    assert (Hle' : (fuel <= fuel')%nat) by lia.
    assert (Hn : forall nxt p,
               refines (call_next (call fnmatch fs fuel) nxt p)
                       (call_next (call fnmatch fs fuel') nxt p)).
    { intros [n' |] p; cbn; [now apply IH | apply refines_refl]. }
    assert (Hs : forall nxt sep p,
               refines (call_switched (call fnmatch fs fuel) nxt sep p)
                       (call_switched (call fnmatch fs fuel') nxt sep p)).
    { intros [n' |] sep p; cbn; [now apply IH | apply refines_refl]. }
    destruct n; cbn [call].
    + apply Hn.
    + apply refines_refl.
    + apply Hn.
    + intros m H. unfold end_walk in *.
      now rewrite (refines_RecursiveDirectories _ _ _ _ _ _ _ fuel fuel' m
                     (Hn nxt) (Hs nxt separator) Hle') by exact H.
    + intros m H. unfold end_walk in *.
      now rewrite (refines_StartRecursiveDirectories _ _ _ _ _ _ _ fuel fuel'
                     m (Hn nxt) (Hs nxt separator) Hle') by exact H.
    + now apply refines_DirectoryMatch.
    + apply refines_refl.
    + apply refines_refl.
Qed.

End EngineRefines.

(** ** The walk ends *)

Lemma mono_const {S A} (c : ST S A) : mono (fun _ => c).
Proof. intros f f' _. apply refines_refl. Qed.

Lemma mono_bind {S A B} (c : nat -> ST S A) (k : nat -> A -> ST S B) :
  mono c -> (forall a, mono (fun f => k f a)) ->
  mono (fun f => bind (c f) (k f)).
Proof.
  intros Mc Mk f f' Hle. apply refines_bind; [now apply Mc |].
  intros a. now apply (Mk a).
Qed.

Lemma mono_for_each {S A} (l : list A) (body : nat -> A -> ST S unit) :
  (forall x, mono (fun f => body f x)) ->
  mono (fun f => for_each l (body f)).
Proof.
  intros Mb f f' Hle. apply refines_for_each. intros x. now apply (Mb x).
Qed.

Lemma halts_at_const {S A} (c : ST S A) (s : S) :
  snd (c s) <> Timeout -> halts_at (fun _ => c) s.
Proof. intros H. now exists O. Qed.

Lemma halts_at_bind {S A B} (c : nat -> ST S A) (k : nat -> A -> ST S B)
    (s : S) :
  mono c -> (forall a, mono (fun f => k f a)) ->
  halts_at c s ->
  (forall f a s', c f s = (s', Ok a) -> halts_at (fun f => k f a) s') ->
  halts_at (fun f => bind (c f) (k f)) s.
Proof.
  intros Mc Mk [f1 H1] Hk.
  destruct (c f1 s) as [s1 [a | e |]] eqn:E; cbn in H1.
  - destruct (Hk f1 a s1 E) as [f2 H2].
    exists (Nat.max f1 f2). unfold bind.
    rewrite (Mc f1 (Nat.max f1 f2) (Nat.le_max_l _ _) s)
      by (rewrite E; discriminate).
    rewrite E.
    now rewrite (Mk a f2 (Nat.max f1 f2) (Nat.le_max_r _ _) s1) by exact H2.
  - exists f1. unfold bind. rewrite E. discriminate.
  - now elim H1.
Qed.

Lemma halts_at_for_each {S A} (l : list A) (body : nat -> A -> ST S unit) :
  (forall x, mono (fun f => body f x)) ->
  (forall x s, halts_at (fun f => body f x) s) ->
  forall s, halts_at (fun f => for_each l (body f)) s.
Proof.
  intros Mb Hb. induction l as [| x l IH]; intros s; cbn [for_each].
  - now apply halts_at_const.
  - apply (halts_at_bind (fun f => body f x) (fun f _ => for_each l (body f))).
    + apply Mb.
    + intros _. now apply mono_for_each.
    + apply Hb.
    + intros f a s' _. apply IH.
Qed.

Lemma halts_at_catch {S} (c : nat -> ST S unit) (s : S) :
  halts_at c s -> halts_at (fun f => catch_OSError (c f)) s.
Proof.
  intros [f H]. exists f. unfold catch_OSError.
  destruct (c f s) as [s' [[] | [] |]]; cbn in *; congruence.
Qed.

Lemma halts_at_in_walk {A} (c : nat -> ST env A) (w : walk) :
  halts_at c (wenv w) -> halts_at (fun f => in_walk (c f)) w.
Proof.
  intros [f H]. exists f. unfold in_walk.
  now destruct (c f (wenv w)) as [m r].
Qed.

Lemma chain_length_set_separator (n : node) (sep : option string) :
  chain_length (set_separator n sep) = chain_length n.
Proof. now destruct n. Qed.

Lemma chain_length_next (n n' : node) :
  node_next n = Some n' -> (chain_length n' < chain_length n)%nat.
Proof. intros H. destruct n; cbn in *; rewrite H; lia. Qed.

Section WalkHalts.

Variable fs : FS.
Variable flags : Z.
Variable separator : option string.

(** The continuation, indexed by its budget: more budget changes nothing
    once it ends, and it ends from every state. *)
Variable next_call : nat -> option string -> ST env unit.
Hypothesis next_mono : forall p, mono (fun f => next_call f p).
Hypothesis next_halts : forall p m, halts_at (fun f => next_call f p) m.

Variable rank : string -> nat.
Hypothesis Hrank :
  forall p ents e,
    listdir fs p = Some ents -> In e ents ->
    isdir fs (path_join separator (Some p) e) = true ->
    (rank (path_join separator (Some p) e) < rank p)%nat.

Lemma descend_mono full ent :
  mono (fun f => descend fs (next_call f) flags full ent).
Proof.
  intros f f' Hle. apply refines_descend. intros p. now apply next_mono.
Qed.

Lemma descend_halts full ent (w : walk) :
  halts_at (fun f => descend fs (next_call f) flags full ent) w.
Proof.
  destruct (next_halts (Some full) (wenv w)) as [f Hf].
  exists f.
  destruct (descend_cases fs (next_call f) flags full ent w)
    as [-> | [-> | [_ ->]]]; [discriminate | discriminate |].
  unfold bind, stack_append, in_walk. cbn [wenv].
  now destruct (next_call f (Some full) (wenv w)) as [m r].
Qed.

(** The worklist after the loop over the entries of [parent]: what was
    there, then listed subdirectories of [parent]. *)
Lemma for_children_dirs nc parent ents :
  forall w,
    exists new,
      stack (fst (for_each ents (fun ent =>
                    descend fs nc flags (path_join separator parent ent) ent)
                    w)) = (stack w ++ new)%list
      /\ Forall (fun c => exists e, In e ents
                          /\ c = path_join separator parent e
                          /\ isdir fs c = true) new.
Proof.
  induction ents as [| e ents IH]; intros w; cbn [for_each].
  - exists []. cbn. now rewrite app_nil_r.
  - assert (Hstep : exists new,
              stack (fst (descend fs nc flags
                            (path_join separator parent e) e w))
              = (stack w ++ new)%list
              /\ Forall (fun c => c = path_join separator parent e
                                  /\ isdir fs c = true) new).
    { destruct (descend_cases fs nc flags
                  (path_join separator parent e) e w)
        as [-> | [-> | [Hd ->]]].
      - exists []. cbn. now rewrite app_nil_r.
      - exists []. cbn. now rewrite app_nil_r.
      - exists [path_join separator parent e].
        split; [| now repeat constructor].
        unfold bind, stack_append.
        apply (in_walk_frame (nc (Some (path_join separator parent e)))
           {| stack := (stack w ++ [path_join separator parent e])%list;
              pushed := (pushed w ++ [path_join separator parent e])%list;
              wenv := wenv w |}). }
    destruct Hstep as (new1 & E1 & F1).
    assert (F1' : Forall (fun c => exists e0, In e0 (e :: ents)
                          /\ c = path_join separator parent e0
                          /\ isdir fs c = true) new1).
    { eapply Forall_impl; [| exact F1]. cbn. intros c [-> Hc]. eauto. }
    unfold bind.
    destruct (descend fs nc flags (path_join separator parent e) e w)
      as [w1 [[] | ex |]]; cbn [fst] in *; eauto.
    destruct (IH w1) as (new2 & E2 & F2).
    exists (new1 ++ new2)%list. split.
    + now rewrite E2, E1, app_assoc.
    + apply Forall_app. split; [assumption |].
      eapply Forall_impl; [| exact F2]. cbn.
      intros c (e0 & He0 & Hc). eauto.
Qed.

Lemma loop_halts_nil (w : walk) :
  stack w = [] -> loop_halts fs next_call flags separator w.
Proof.
  intros E. exists O, O. cbn [while_stack]. rewrite E. discriminate.
Qed.

Lemma turn_mono path :
  mono (fun b => turn fs (next_call b) flags separator path).
Proof.
  intros b b' Hle. unfold turn. apply refines_catch.
  apply refines_bind; [apply refines_refl |]. intros ents.
  apply refines_for_each. intros ent. now apply descend_mono.
Qed.

Lemma turn_halts path (w : walk) :
  halts_at (fun b => turn fs (next_call b) flags separator path) w.
Proof.
  unfold turn. apply halts_at_catch.
  apply (halts_at_bind (fun _ => os_listdir fs path)
           (fun b ents => for_each ents (fun ent =>
              descend fs (next_call b) flags
                (path_join separator (Some path) ent) ent))).
  - apply mono_const.
  - intros ents. apply mono_for_each. intros ent. apply descend_mono.
  - apply halts_at_const. unfold os_listdir.
    destruct (listdir fs path); discriminate.
  - intros _ ents w' _.
    apply (halts_at_for_each ents (fun b ent =>
             descend fs (next_call b) flags
               (path_join separator (Some path) ent) ent)).
    + intros ent. apply descend_mono.
    + intros ent s. apply descend_halts.
Qed.

(** After a turn for [path] the worklist holds, beyond what it held,
    paths of lower rank. *)
Lemma turn_stack b path (w : walk) :
  exists new,
    stack (fst (turn fs (next_call b) flags separator path w))
    = (stack w ++ new)%list
    /\ Forall (fun c => (rank c < rank path)%nat) new.
Proof.
  unfold turn. rewrite catch_OSError_state. unfold bind, os_listdir.
  destruct (listdir fs path) as [ents |] eqn:El; cbn [raise ret fst].
  - destruct (for_children_dirs (next_call b) (Some path) ents w)
      as (new & E & F).
    exists new. split; [exact E |].
    eapply Forall_impl; [| exact F]. cbn.
    intros c (e & He & -> & Hd). now apply (Hrank path ents).
  - exists []. now rewrite app_nil_r.
Qed.

Lemma while_stack_turn a b (w : walk) rest p :
  stack w = (rest ++ [p])%list ->
  while_stack fs (S a) (next_call b) flags separator w =
  (turn fs (next_call b) flags separator p ;;;
   while_stack fs a (next_call b) flags separator)
    {| stack := rest; pushed := pushed w; wenv := wenv w |}.
Proof.
  intros E. cbn [while_stack].
  destruct (stack w) as [| x l] eqn:E0.
  - destruct rest; discriminate.
  - unfold bind at 1, stack_pop. rewrite E0, E, pop_snoc. reflexivity.
Qed.

Lemma loop_halts_step :
  forall k p, (rank p < k)%nat ->
  forall rest,
    (forall w', stack w' = rest ->
                loop_halts fs next_call flags separator w') ->
    forall w, stack w = (rest ++ [p])%list ->
              loop_halts fs next_call flags separator w.
Proof.
  induction k as [| k IH]; intros p Hp rest Hrest w E; [lia |].
  set (w0 := {| stack := rest; pushed := pushed w; wenv := wenv w |}).
  destruct (turn_halts p w0) as [b1 Hb1].
  destruct (turn_stack b1 p w0) as (new & En & Fn).
  assert (Hnew : forall new, Forall (fun c => (rank c < k)%nat) new ->
            forall w1, stack w1 = (rest ++ new)%list ->
                       loop_halts fs next_call flags separator w1).
  { clear - IH Hrest. intros new. induction new as [| c new IHn] using rev_ind;
      intros F w1 E1.
    - rewrite app_nil_r in E1. now apply Hrest.
    - apply Forall_app in F as [F Fc]. inversion Fc as [| ? ? Hc _]; subst.
      rewrite app_assoc in E1.
      apply (IH c Hc (rest ++ new)%list); auto. }
  destruct (turn fs (next_call b1) flags separator p w0) as [w1 r] eqn:Et.
  cbn [fst snd] in *.
  destruct r as [[] | e |]; [| | now elim Hb1].
  - assert (F' : Forall (fun c => (rank c < k)%nat) new).
    { eapply Forall_impl; [| exact Fn]. cbn. intros c Hc. lia. }
    destruct (Hnew new F' w1 En) as (a2 & b2 & H2).
    exists (S a2), (Nat.max b1 b2).
    rewrite (while_stack_turn _ _ w rest p E). fold w0. unfold bind.
    rewrite (turn_mono p b1 (Nat.max b1 b2) (Nat.le_max_l _ _) w0)
      by (rewrite Et; discriminate).
    rewrite Et.
    rewrite (refines_while_stack fs (next_call b2)
               (next_call (Nat.max b1 b2)) flags separator
               (fun q => next_mono q b2 _ (Nat.le_max_r _ _))
               a2 a2 (Nat.le_refl _) w1 H2).
    exact H2.
  - exists 1%nat, b1.
    rewrite (while_stack_turn _ _ w rest p E). fold w0. unfold bind.
    rewrite Et. discriminate.
Qed.

Lemma loop_halts_all (w : walk) : loop_halts fs next_call flags separator w.
Proof.
  remember (stack w) as stk eqn:E. symmetry in E. revert w E.
  induction stk as [| p stk IH] using rev_ind; intros w E.
  - now apply loop_halts_nil.
  - apply (loop_halts_step (S (rank p)) p (Nat.lt_succ_diag_r _) stk IH w E).
Qed.

(** The loop, with one budget for its turns and for the continuation. *)
Lemma while_stack_mono :
  mono (fun f => while_stack fs f (next_call f) flags separator).
Proof.
  intros f f' Hle. apply refines_while_stack; [| exact Hle].
  intros p. now apply next_mono.
Qed.

Lemma while_stack_halts (w : walk) :
  halts_at (fun f => while_stack fs f (next_call f) flags separator) w.
Proof.
  destruct (loop_halts_all w) as (a & b & H).
  exists (Nat.max a b).
  rewrite (refines_while_stack fs (next_call b) (next_call (Nat.max a b))
             flags separator
             (fun q => next_mono q b _ (Nat.le_max_r _ _))
             a (Nat.max a b) (Nat.le_max_l _ _) w H).
  exact H.
Qed.

End WalkHalts.

Section WalksHalt.

Variable fs : FS.
Variable flags : Z.
Variable separator : option string.
Variable next_call switched_call : nat -> option string -> ST env unit.
Hypothesis next_mono : forall p, mono (fun f => next_call f p).
Hypothesis next_halts : forall p m, halts_at (fun f => next_call f p) m.
Hypothesis switched_mono : forall p, mono (fun f => switched_call f p).
Hypothesis switched_halts :
  forall p m, halts_at (fun f => switched_call f p) m.
Variable rank : string -> nat.
Hypothesis Hrank :
  forall p ents e,
    listdir fs p = Some ents -> In e ents ->
    isdir fs (path_join separator (Some p) e) = true ->
    (rank (path_join separator (Some p) e) < rank p)%nat.

Lemma call_with_stack_halts start (w : walk) :
  halts_at (fun f => call_with_stack fs f (next_call f) (switched_call f)
                       flags separator start) w.
Proof.
  unfold call_with_stack.
  apply (halts_at_bind (fun f => in_walk (switched_call f start))
           (fun f _ => while_stack fs f (next_call f) flags separator)).
  - intros f f' Hle. apply refines_in_walk. now apply switched_mono.
  - intros _. now apply while_stack_mono.
  - apply halts_at_in_walk, switched_halts.
  - intros _ _ w' _. now apply (while_stack_halts fs flags separator
                                  next_call next_mono next_halts rank).
Qed.

Lemma call_with_stack_mono start :
  mono (fun f => call_with_stack fs f (next_call f) (switched_call f)
                   flags separator start).
Proof.
  intros f f' Hle. apply refines_call_with_stack; auto.
  - intros p. now apply next_mono.
  - intros p. now apply switched_mono.
Qed.

Lemma RecursiveDirectories_walk_halts start (m : env) :
  exists f,
    snd (RecursiveDirectories_walk fs f (next_call f) (switched_call f)
           flags separator start m) <> Timeout.
Proof.
  unfold RecursiveDirectories_walk.
  destruct start as [s |]; [| exists O; discriminate].
  destruct (negb (exists_ fs s)); [exists O; discriminate |].
  apply call_with_stack_halts.
Qed.

Lemma StartRecursiveDirectories_walk_halts start (m : env) :
  exists f,
    snd (StartRecursiveDirectories_walk fs f (next_call f) (switched_call f)
           flags separator start m) <> Timeout.
Proof.
  unfold StartRecursiveDirectories_walk.
  destruct (truthy start); [exists O; discriminate |].
  apply (halts_at_bind (fun _ => os_listdir fs ".")
           (fun f ents =>
              for_each ents (fun ent => descend fs (next_call f) flags ent ent)
              ;;; call_with_stack fs f (next_call f) (switched_call f)
                    flags separator start)).
  - apply mono_const.
  - intros ents.
    apply (mono_bind
             (fun f => for_each ents (fun ent =>
                         descend fs (next_call f) flags ent ent))
             (fun f _ => call_with_stack fs f (next_call f) (switched_call f)
                           flags separator start)).
    + apply mono_for_each. intros ent.
      now apply (descend_mono fs flags next_call next_mono).
    + intros _. apply call_with_stack_mono.
  - apply halts_at_const. unfold os_listdir.
    destruct (listdir fs "."); discriminate.
  - intros _ ents w' _.
    apply (halts_at_bind
             (fun f => for_each ents (fun ent =>
                         descend fs (next_call f) flags ent ent))
             (fun f _ => call_with_stack fs f (next_call f) (switched_call f)
                           flags separator start)).
    + apply mono_for_each. intros ent.
      now apply (descend_mono fs flags next_call next_mono).
    + intros _. apply call_with_stack_mono.
    + apply (halts_at_for_each ents (fun f ent =>
               descend fs (next_call f) flags ent ent)).
      * intros ent. now apply (descend_mono fs flags next_call next_mono).
      * intros ent s.
        now apply (descend_halts fs flags next_call next_halts).
    + intros _ _ w'' _. apply call_with_stack_halts.
Qed.

End WalksHalt.

Section CallHalts.

Variable fnmatch : string -> string -> bool.
Variable fs : FS.
Hypothesis Htree : tree_like fs.

Lemma DirectoryMatch_call_halts
    (next_call : nat -> option string -> ST env unit) sep glob path (m : env) :
  (forall p, mono (fun f => next_call f p)) ->
  (forall p m, halts_at (fun f => next_call f p) m) ->
  halts_at (fun f => DirectoryMatch_call fnmatch fs (next_call f) sep glob
                       path) m.
Proof.
  intros Mn Hn. unfold DirectoryMatch_call.
  destruct (match path with Some _ => _ | None => _ end);
    [now apply halts_at_const |].
  apply (halts_at_bind (fun _ => os_listdir fs _)
           (fun f ents => for_each ents (fun ent =>
              if ismatch fnmatch glob ent
              then if isdir fs (path_join sep path ent)
                   then next_call f (Some (path_join sep path ent))
                   else ret tt
              else ret tt))).
  - apply mono_const.
  - intros ents. apply mono_for_each. intros ent f f' Hle.
    apply refines_if; [| apply refines_refl].
    apply refines_if; [now apply Mn | apply refines_refl].
  - apply halts_at_const. unfold os_listdir.
    destruct (listdir fs _); discriminate.
  - intros _ ents m' _.
    apply (halts_at_for_each ents (fun f ent =>
              if ismatch fnmatch glob ent
              then if isdir fs (path_join sep path ent)
                   then next_call f (Some (path_join sep path ent))
                   else ret tt
              else ret tt)).
    + intros ent f f' Hle.
      apply refines_if; [| apply refines_refl].
      apply refines_if; [now apply Mn | apply refines_refl].
    + intros ent s.
      destruct (ismatch fnmatch glob ent); [| now apply halts_at_const].
      destruct (isdir fs _); [apply Hn | now apply halts_at_const].
Qed.

(** On a finite tree every [call] ends, given budget enough. *)
Lemma call_halts :
  forall k n, (chain_length n < k)%nat ->
  forall path (m : env),
    halts_at (fun f => call fnmatch fs f n path) m.
Proof.
  destruct Htree as [rank Hrank].
  induction k as [| k IH]; intros n Hk path m; [lia |].
  assert (Mn : forall nxt p,
             mono (fun f => call_next (call fnmatch fs f) nxt p)).
  { intros [n' |] p f f' Hle; cbn;
      [now apply call_refines | apply refines_refl]. }
  assert (Ms : forall nxt sep p,
             mono (fun f => call_switched (call fnmatch fs f) nxt sep p)).
  { intros [n' |] sep p f f' Hle; cbn;
      [now apply call_refines | apply refines_refl]. }
  assert (Hn : forall p m,
             halts_at (fun f => call_next (call fnmatch fs f)
                                  (node_next n) p) m).
  { intros p m'. destruct (node_next n) as [n' |] eqn:E; cbn.
    - apply IH. apply chain_length_next in E. lia.
    - now apply halts_at_const. }
  assert (Hs : forall sep p m,
             halts_at (fun f => call_switched (call fnmatch fs f)
                                  (node_next n) sep p) m).
  { intros sep p m'. destruct (node_next n) as [n' |] eqn:E; cbn.
    - apply IH. rewrite chain_length_set_separator.
      apply chain_length_next in E. lia.
    - now apply halts_at_const. }
  destruct n as [nxt flags separator dir | nxt flags separator name suffixes
                | nxt flags separator | nxt flags separator
                | nxt flags separator | nxt flags separator g
                | nxt flags separator g suffixes | nxt flags separator];
    cbn [node_next] in Hn, Hs.
  - destruct (Hn (Some (path_join separator path dir)) m) as [f Hf].
    exists (S f). exact Hf.
  - exists 1%nat. cbn [call]. now rewrite ConstantEntry_call_filter.
  - destruct (Hn (Some "/") m) as [f Hf]. exists (S f). exact Hf.
  - destruct (RecursiveDirectories_walk_halts fs flags separator
                (fun f => call_next (call fnmatch fs f) nxt)
                (fun f => call_switched (call fnmatch fs f) nxt separator)
                (Mn nxt) Hn (Ms nxt separator) (Hs separator)
                rank (Hrank separator) path m) as [f Hf].
    exists (S f). exact Hf.
  - destruct (StartRecursiveDirectories_walk_halts fs flags separator
                (fun f => call_next (call fnmatch fs f) nxt)
                (fun f => call_switched (call fnmatch fs f) nxt separator)
                (Mn nxt) Hn (Ms nxt separator) (Hs separator)
                rank (Hrank separator) path m) as [f Hf].
    exists (S f). exact Hf.
  - destruct (DirectoryMatch_call_halts
                (fun f => call_next (call fnmatch fs f) nxt)
                separator g path m (Mn nxt) Hn) as [f Hf].
    exists (S f). exact Hf.
  - exists 1%nat. cbn [call].
    now rewrite (EntryMatch_call_returns fnmatch fs separator g suffixes
                   path m).
  - exists 1%nat. cbn [call]. unfold DirectoriesOnly_call.
    destruct path as [p |]; [| discriminate].
    destruct (truthy_str p && _); discriminate.
Qed.

End CallHalts.

Lemma fs_tree_listdir p ents :
  listdir fs_tree p = Some ents ->
  (p = "." /\ ents = ["a"; "f"]) \/ (p = "a" /\ ents = ["b"])
  \/ (p = "a/b" /\ ents = []).
Proof.
  cbn.
  destruct (String.eqb_spec p ".") as [-> | _]; [intros [= <-]; auto |].
  destruct (String.eqb_spec p "a") as [-> | _]; [intros [= <-]; auto |].
  destruct (String.eqb_spec p "a/b") as [-> | _]; [intros [= <-]; auto |].
  discriminate.
Qed.

Lemma fs_tree_names_ok : names_ok fs_tree.
Proof.
  intros p ents H.
  destruct (fs_tree_listdir p ents H) as [[_ ->] | [[_ ->] | [_ ->]]].
  - split; [| now repeat constructor].
    repeat constructor; cbn; intuition discriminate.
  - split; [| now repeat constructor].
    repeat constructor; cbn; intuition.
  - split; constructor.
Qed.

Lemma fs_tree_like : tree_like fs_tree.
Proof.
  exists rank_tree. intros sep p ents e Hl Hin Hd.
  destruct (fs_tree_listdir p ents Hl) as [[-> ->] | [[-> ->] | [-> ->]]].
  - exfalso. unfold path_join in Hd. cbn in Hd. discriminate.
  - destruct Hin as [<- | []]. unfold path_join in *.
    cbn [truthy_str negb String.eqb Ascii.eqb Bool.eqb] in Hd |- *.
    destruct (get_separator sep) as [| c s]; [discriminate |].
    set (child := ("a" ++ String c s ++ "b")%string) in *.
    assert (E0 : String.eqb child "a" = false) by reflexivity.
    unfold rank_tree. cbn [isdir fs_tree] in Hd. rewrite E0 in Hd |- *.
    destruct (String.eqb child "a/b"); [cbn; lia | discriminate].
  - destruct Hin.
Qed.

(** What [call] does for the two recursive-descent nodes is the walk, with
    its record dropped. *)
Lemma call_RecursiveDirectories fnmatch fs fuel nxt flags separator path
    (m : env) :
  call fnmatch fs (S fuel) (RecursiveDirectories nxt flags separator) path m =
  end_walk (RecursiveDirectories_walk fs fuel
              (call_next (call fnmatch fs fuel) nxt)
              (call_switched (call fnmatch fs fuel) nxt separator)
              flags separator path m).
Proof. reflexivity. Qed.

Lemma call_StartRecursiveDirectories fnmatch fs fuel nxt flags separator
    path (m : env) :
  call fnmatch fs (S fuel) (StartRecursiveDirectories nxt flags separator)
    path m =
  end_walk (StartRecursiveDirectories_walk fs fuel
              (call_next (call fnmatch fs fuel) nxt)
              (call_switched (call fnmatch fs fuel) nxt separator)
              flags separator path m).
Proof. reflexivity. Qed.



(** The walk of ["**/*"] on [fs_tree], run: [a] and [a/b] are appended
    once each, and the matches come in the order the walk meets them. *)
Example glob_recursive_on_fs_tree :
  single_compile "**/*" 0 None =
  Ok (StartRecursiveDirectories (Some leaf_star) 0 None)
  /\ StartRecursiveDirectories_walk fs_tree 4
       (call_next (call fnmatch_plain fs_tree 4) (Some leaf_star))
       (call_switched (call fnmatch_plain fs_tree 4) (Some leaf_star) None)
       0 None None [] =
     ({| stack := []; pushed := ["a"; "a/b"];
         wenv := ["a/b"; "a"; "f"] |}, Ok tt)
  /\ glob fnmatch_plain fs_tree 5 "**/*" 0 [] =
     (["a/b"; "a"; "f"], Ok (Some ["a/b"; "a"; "f"])).
Proof. repeat split; reflexivity. Qed.

(** ** What the leaves append *)

Lemma for_each_appends {A} (l : list A) (f : A -> list string)
    (body : A -> ST env unit) :
  (forall x m, body x m = ((m ++ f x)%list, Ok tt)) ->
  forall m, for_each l body m = ((m ++ flat_map f l)%list, Ok tt).
Proof.
  intros Hb. induction l as [| x l IH]; intros m; cbn [for_each flat_map].
  - now rewrite app_nil_r.
  - unfold bind. rewrite Hb, IH. now rewrite <- app_assoc.
Qed.

(** What [EntryMatch.call] leaves and returns. *)
Lemma EntryMatch_call_flat :
  forall fnmatch fs fuel nxt flags sep glob suffixes path (m : env),
    call fnmatch fs (S fuel) (EntryMatch nxt flags sep glob suffixes) path m =
    ((m ++ match path with
           | Some p =>
               if truthy_str p && negb (exists_ fs (p ++ "/."))
               then []
               else match listdir fs (path_or_dot path) with
                    | Some entries =>
                        entry_matches fnmatch sep glob suffixes path entries
                    | None => []
                    end
           | None =>
               match listdir fs "." with
               | Some entries =>
                   entry_matches fnmatch sep glob suffixes None entries
               | None => []
               end
           end)%list, Ok tt).
Proof.
  intros fnmatch fs fuel nxt flags sep glob suffixes path m.
  cbn [call]. unfold EntryMatch_call.
  assert (Hloop : forall entries m,
            for_each entries (fun f =>
              for_each suffixes (fun suffix =>
                if ismatch fnmatch glob (f ++ suffix)
                then matches_append (path_join sep path (f ++ suffix))
                else ret tt)) m =
            ((m ++ entry_matches fnmatch sep glob suffixes path entries)%list,
             Ok tt)).
  { intros entries. apply for_each_appends. intros f.
    apply for_each_appends. intros suffix m0. unfold ismatch.
    destruct (fnmatch (f ++ suffix)%string glob); cbn;
      [reflexivity | now rewrite app_nil_r]. }
  destruct path as [p |].
  - destruct (truthy_str p && negb (exists_ fs (p ++ "/."))); cbn [ret].
    + now rewrite app_nil_r.
    + unfold os_listdir.
      destruct (listdir fs (path_or_dot (Some p))) as [entries |]; cbn.
      * apply Hloop.
      * now rewrite app_nil_r.
  - unfold os_listdir. cbn [path_or_dot].
    destruct (listdir fs ".") as [entries |]; cbn.
    + apply Hloop.
    + now rewrite app_nil_r.
Qed.


(** X2.  [ConstantEntry.call] returns, and leaves the match list it found
    followed by the paths [stem + suffix] that exist, in the order of the
    suffixes, where [stem] is the name joined to the parent. *)
Theorem ConstantEntry_call_existing :
  forall fnmatch fs fuel nxt flags sep name suffixes parent (m : env),
    call fnmatch fs (S fuel) (ConstantEntry nxt flags sep name suffixes)
      parent m =
    ((m ++ filter (exists_ fs)
            (map (fun s => path_join sep parent name ++ s)%string
               suffixes))%list,
     Ok tt).
Proof. intros. cbn [call]. apply ConstantEntry_call_filter. Qed.

(** ** What the walk appends to its worklist *)

Lemma for_each_state_in {S A} (P : S -> Prop) (l : list A)
    (body : A -> ST S unit) :
  (forall x, In x l -> forall s, P s -> P (fst (body x s))) ->
  forall s, P s -> P (fst (for_each l body s)).
Proof.
  induction l as [| x l IH]; intros Hb s Hs; cbn [for_each]; [exact Hs |].
  apply bind_state.
  - apply Hb; [now left | exact Hs].
  - intros _ s' Hs'. apply IH; [| exact Hs'].
    intros y Hy. apply Hb. now right.
Qed.

Section WalkSound.

Variable fs : FS.
Variable next_call : option string -> ST env unit.
Variable flags : Z.
Variable separator : option string.

(** [descend] appends nothing, or the path of a directory whose name
    passes the dot test. *)
Lemma descend_pushed full ent (w : walk) :
  let w' := fst (descend fs next_call flags full ent w) in
  pushed w' = pushed w
  \/ (pushed w' = (pushed w ++ [full])%list
      /\ isdir fs full = true
      /\ (allow_dots flags = true
          \/ exists c, String.get 0 ent = Some c /\ c <> "."%char)).
Proof.
  assert (Hpush : forall w,
            pushed (fst ((stack_append full ;;;
                          in_walk (next_call (Some full))) w))
            = (pushed w ++ [full])%list).
  { intros w1. unfold bind, stack_append.
    apply (in_walk_frame (next_call (Some full))
       {| stack := (stack w1 ++ [full])%list;
          pushed := (pushed w1 ++ [full])%list; wenv := wenv w1 |}). }
  unfold descend.
  destruct (isdir fs full) eqn:Hd; [| left; reflexivity].
  destruct (allow_dots flags) eqn:Ha.
  - right. split; [apply Hpush | auto].
  - unfold getitem. cbn [Z.ltb Z.compare Z.to_nat].
    destruct (String.get 0 ent) as [c |] eqn:Hg; [| left; reflexivity].
    destruct (Ascii.eqb_spec c ".") as [-> | Hc].
    + left. reflexivity.
    + right. split; [| split; [reflexivity | right; eauto]].
      assert (E : Ascii.eqb c "." = false)
        by (destruct (Ascii.eqb_spec c "."); congruence).
      unfold bind at 1 2, lift, ret. cbn. rewrite E. apply Hpush.
Qed.

Variable seed : option string.

Lemma pushed_sound_ext (w w' : walk) :
  pushed w' = pushed w ->
  pushed_sound fs flags separator seed w ->
  pushed_sound fs flags separator seed w'.
Proof. intros E H p Hp. apply H. now rewrite <- E. Qed.

(** The loop over the entries of a listed directory keeps the record
    sound. *)
Lemma for_children_sound parent dir ents :
  listdir fs dir = Some ents ->
  (parent = Some dir \/ (parent = None /\ dir = ".")) ->
  forall w,
    pushed_sound fs flags separator seed w ->
    pushed_sound fs flags separator seed
      (fst (for_each ents (fun ent =>
              descend fs next_call flags
                (path_join separator parent ent) ent) w)).
Proof.
  intros Hl Hparent.
  apply for_each_state_in. intros ent Hin w Hw.
  destruct (descend_pushed (path_join separator parent ent) ent w)
    as [E | (E & Hd & Hdot)].
  - now apply (pushed_sound_ext w).
  - intros p Hp. rewrite E in Hp.
    apply in_app_or in Hp as [Hp | [<- | []]]; [now apply Hw |].
    right. split; [exact Hd |].
    exists dir, ents, ent. repeat split; auto.
    destruct Hparent as [-> | [-> ->]]; [now left | right; auto].
Qed.

Lemma while_stack_sound fuel :
  forall w,
    pushed_sound fs flags separator seed w ->
    pushed_sound fs flags separator seed
      (fst (while_stack fs fuel next_call flags separator w)).
Proof.
  induction fuel as [| fuel IH]; intros w Hw; cbn [while_stack].
  - destruct (stack w); exact Hw.
  - destruct (stack w) as [| x l] eqn:E; [exact Hw |].
    apply bind_state.
    + unfold stack_pop. destruct (Py.pop (stack w)) as [[p rest] | e |];
        cbn; exact Hw.
    + intros path w1 Hw1. apply bind_state; [| intros _ s' Hs'; now apply IH].
      rewrite catch_OSError_state. unfold bind, os_listdir.
      destruct (listdir fs path) as [ents |] eqn:El; cbn [raise ret fst];
        [| exact Hw1].
      apply (for_children_sound (Some path) path ents El); auto.
Qed.

Lemma call_with_stack_sound fuel switched_call start :
  forall w,
    pushed_sound fs flags separator seed w ->
    pushed_sound fs flags separator seed
      (fst (call_with_stack fs fuel next_call switched_call flags separator
              start w)).
Proof.
  intros w Hw. unfold call_with_stack.
  apply bind_state; [| intros _ s' Hs'; now apply while_stack_sound].
  destruct (in_walk_frame (switched_call start) w) as [_ E].
  now apply (pushed_sound_ext w).
Qed.

End WalkSound.

(** X4.  The worklist of a recursive descent receives, beyond the start,
    only listed subdirectories: each path appended is a directory, the
    joined path of a name listed in a directory (or the name itself, in
    the working directory), and the name does not start with a dot unless
    [allow_dots] holds. *)
Theorem recursive_walk_pushes_listed_subdirectories :
  forall fs fuel next_call switched_call flags separator start (m : env),
    (forall p,
        In p (pushed (fst (RecursiveDirectories_walk fs fuel next_call
                             switched_call flags separator start m))) ->
        start = Some p \/ listed_subdirectory fs flags separator p)
    /\ (forall p,
        In p (pushed (fst (StartRecursiveDirectories_walk fs fuel next_call
                             switched_call flags separator start m))) ->
        listed_subdirectory fs flags separator p).
Proof.
  intros. split.
  - unfold RecursiveDirectories_walk.
    destruct start as [s |]; [| intros p []].
    destruct (negb (exists_ fs s)); [intros p [] |].
    apply (call_with_stack_sound fs next_call flags separator (Some s)).
    intros p [<- | []]. now left.
  - assert (H : pushed_sound fs flags separator None
                  (fst (StartRecursiveDirectories_walk fs fuel next_call
                          switched_call flags separator start m))).
    { unfold StartRecursiveDirectories_walk.
      destruct (truthy start); [intros p [] |].
      unfold bind at 1, os_listdir.
      destruct (listdir fs ".") as [ents |] eqn:El; cbn [raise ret fst];
        [| intros p []].
      apply bind_state.
      - apply (for_children_sound fs next_call flags separator None
                 None "." ents El); [auto |]. intros p [].
      - intros _ s' Hs'. now apply call_with_stack_sound. }
    intros p Hp. destruct (H p Hp) as [E | Hq]; [discriminate | exact Hq].
Qed.

(** The theorem at work on [fs_tree]: a walk from [a] appends [a/b], which
    [a] lists. *)
Lemma walk_pushes_on_fs_tree :
  In "a/b"
    (pushed (fst (RecursiveDirectories_walk fs_tree 5 (fun _ => ret tt)
                    (fun _ => ret tt) 0 (Some "/") (Some "a") [])))
  /\ (Some "a" = Some "a/b"
      \/ listed_subdirectory fs_tree 0 (Some "/") "a/b").
Proof.
  split; [right; left; reflexivity |].
  apply (proj1 (recursive_walk_pushes_listed_subdirectories fs_tree 5
                  (fun _ => ret tt) (fun _ => ret tt) 0 (Some "/")
                  (Some "a") [])).
  right. left. reflexivity.
Defined.

(** ** Joined paths *)

(** X5.  [path_join] loses nothing: from the path it returns for a parent
    and a name without ["/"], parent and name can be read back. *)
Theorem path_join_reads_back :
  forall separator p p' e e',
    sep_ok separator -> name_ok e = true -> name_ok e' = true ->
    path_join separator (Some p) e = path_join separator (Some p') e' ->
    p = p' /\ e = e'.
Proof. exact path_join_inj. Qed.

(** The theorem at work on the path of [b] in [a], joined with ["//"]. *)
Lemma path_join_reads_back_a_b :
  sep_ok (Some "//") /\ name_ok "b" = true
  /\ path_join (Some "//") (Some "a") "b"
     = path_join (Some "//") (Some "a") "b"
  /\ "a" = "a" /\ "b" = "b".
Proof.
  split; [reflexivity |]. split; [reflexivity |]. split; [reflexivity |].
  apply (path_join_reads_back (Some "//") "a" "a" "b" "b"); reflexivity.
Defined.

(** X6.  The engine walks one [ConstantDirectory] node for a folded
    literal path [a ++ sep_b ++ b] exactly as it walks the node for [a]
    followed by the node for [b] with separator [sep_b]. *)
Theorem folded_directory_same_walk :
  forall fnmatch fs fuel nxt fl fl' sep sep_b a b path,
    truthy_str sep_b = true -> truthy_str a = true -> a <> "/" ->
    call fnmatch fs (S (S fuel))
      (ConstantDirectory
         (Some (ConstantDirectory nxt fl' (Some sep_b) b)) fl sep a) path =
    call fnmatch fs (S fuel)
      (ConstantDirectory nxt fl sep (a ++ sep_b ++ b)) path.
Proof. exact folded_same_call. Qed.

(** The theorem at work on [fs_tree], for [a] and [b] folded to ["a/b"]. *)
Lemma folded_directory_a_b :
  truthy_str "/" = true /\ truthy_str "a" = true /\ "a" <> "/"
  /\ call fnmatch_plain fs_tree 2
       (ConstantDirectory
          (Some (ConstantDirectory (Some leaf_star) 0 (Some "/") "b"))
          0 None "a") None =
     call fnmatch_plain fs_tree 1
       (ConstantDirectory (Some leaf_star) 0 None ("a" ++ "/" ++ "b")) None.
Proof.
  split; [reflexivity |]. split; [reflexivity |]. split; [discriminate |].
  apply (folded_directory_same_walk fnmatch_plain fs_tree 0 (Some leaf_star)
           0 0 None "/" "a" "b" None); reflexivity || discriminate.
Defined.

(** ** The parts of a split *)

Lemma substring_app_skip (pre t : string) (n : nat) :
  substring (String.length pre) n (pre ++ t) = substring 0 n t.
Proof.
  induction pre as [| c pre IH]; [reflexivity |]. cbn. exact IH.
Qed.

Lemma substring_prefix (a b : string) :
  substring 0 (String.length a) (a ++ b) = a.
Proof.
  induction a as [| c a IH]; cbn.
  - now destruct b.
  - now rewrite IH.
Qed.

(** The run of ["/"] a text starts with. *)
Lemma slash_run_split (u : string) :
  exists run rest,
    u = run ++ rest /\ String.length run = Regexp.slash_run u
    /\ all_slashes run = true /\ no_leading_slash rest = true.
Proof.
  induction u as [| c u IH].
  - exists "", "". auto.
  - cbn [Regexp.slash_run].
    destruct (Ascii.eqb_spec c "/") as [-> | Hc].
    + destruct IH as (run & rest & -> & Hl & Hr & Hn).
      exists (String "/" run), rest. cbn. rewrite Hl. auto.
    + exists "", (String c u). cbn. repeat split; auto.
      destruct (Ascii.eqb_spec c "/"); [congruence | reflexivity].
Qed.

Lemma first_slash_run_none (t : string) (k : nat) :
  Regexp.first_slash_run t k = None -> slash_free t = true.
Proof.
  revert k. induction t as [| c t IH]; intros k; [reflexivity |].
  cbn [Regexp.first_slash_run]. unfold slash_free. cbn [Regexp.all_chars].
  destruct (Ascii.eqb c "/"); [discriminate |]. intros H.
  cbn. exact (IH _ H).
Qed.

Lemma first_slash_run_some (t : string) (k a b : nat) :
  Regexp.first_slash_run t k = Some (a, b) ->
  exists seg run rest,
    t = seg ++ run ++ rest /\ slash_free seg = true
    /\ all_slashes run = true /\ run <> ""
    /\ no_leading_slash rest = true
    /\ (no_leading_slash t = true -> t <> "" -> seg <> "")
    /\ a = (k + String.length seg)%nat /\ b = (a + String.length run)%nat.
Proof.
  revert k. induction t as [| c t IH]; intros k; [discriminate |].
  cbn [Regexp.first_slash_run].
  destruct (Ascii.eqb_spec c "/") as [-> | Hc].
  - intros [= <- <-].
    destruct (slash_run_split (String "/" t))
      as (run & rest & E & Hl & Hr & Hn).
    assert (Hrun : run <> "") by (intros ->; cbn in Hl; discriminate).
    exists "", run, rest. cbn [append String.length].
    repeat split; auto; try lia; intros; discriminate.
  - intros H. destruct (IH _ H) as (seg & run & rest & -> & Hs & Hr & Hne
                                      & Hn & _ & -> & ->).
    assert (Hseg : slash_free (String c seg) = true).
    { unfold slash_free in *. cbn.
      destruct (Ascii.eqb_spec c "/"); [congruence | exact Hs]. }
    exists (String c seg), run, rest. cbn [append String.length].
    repeat split; auto; try lia; intros; discriminate.
Qed.

Lemma search_separators_at (pre t : string) :
  Regexp.search_separators (pre ++ t) (Z.of_nat (String.length pre)) =
  match Regexp.first_slash_run t (String.length pre) with
  | Some (a, b) => Some (Z.of_nat a, Z.of_nat b)
  | None => None
  end.
Proof.
  unfold Regexp.search_separators. rewrite Nat2Z.id.
  rewrite length_append.
  replace (String.length pre + String.length t - String.length pre)%nat
    with (String.length t) by lia.
  now rewrite substring_app_skip, substring_all.
Qed.

Lemma slice_nat (s : string) (a b : nat) :
  (a <= b <= String.length s)%nat ->
  slice s (Z.of_nat a) (Z.of_nat b) = substring a (b - a) s.
Proof.
  intros H. unfold slice, len.
  destruct (Z.of_nat a <? 0) eqn:Ea; [apply Z.ltb_lt in Ea; lia |].
  destruct (Z.of_nat b <? 0) eqn:Eb; [apply Z.ltb_lt in Eb; lia |].
  rewrite !Z.min_l by lia. rewrite Nat2Z.id. f_equal. lia.
Qed.

Lemma slice_middle (pre x post : string) :
  slice (pre ++ x ++ post) (Z.of_nat (String.length pre))
    (Z.of_nat (String.length pre + String.length x)) = x.
Proof.
  rewrite slice_nat by (rewrite !length_append; lia).
  replace (String.length pre + String.length x - String.length pre)%nat
    with (String.length x) by lia.
  now rewrite substring_app_skip, substring_prefix.
Qed.

Lemma join_parts_app (l1 l2 : list string) :
  join_parts (l1 ++ l2) = join_parts l1 ++ join_parts l2.
Proof.
  unfold join_parts. induction l1 as [| x l1 IH]; cbn [app fold_right];
    [reflexivity |].
  now rewrite IH, append_assoc.
Qed.

Lemma list_pair_ind {A} (P : list A -> Prop) :
  P [] -> (forall x, P [x]) ->
  (forall x y l, P l -> P (x :: y :: l)) ->
  forall l, P l.
Proof.
  intros H0 H1 H2 l.
  assert (H : P l /\ forall x, P (x :: l)).
  { induction l as [| y l [IHa IHb]]; split; auto. }
  apply H.
Qed.

Lemma pairs_ok_app (l : list string) seg sep :
  forall strict,
    pairs_ok strict l ->
    slash_free seg = true -> ((strict = true \/ l <> []) -> seg <> "") ->
    all_slashes sep = true -> sep <> "" ->
    pairs_ok strict (l ++ [seg; sep]).
Proof.
  induction l as [| x | x y l IH] using list_pair_ind;
    intros strict Hl Hs Hne Ha Hse.
  - cbn. repeat split; auto.
  - destruct Hl.
  - cbn [app pairs_ok] in Hl |- *. destruct Hl as (H1 & H2 & H3 & H4 & H5).
    repeat split; auto.
    apply IH; auto. intros _. apply Hne. right. discriminate.
Qed.

Lemma join_parts_nonempty strict (mid : list string) :
  pairs_ok strict mid -> mid <> [] -> join_parts mid <> "".
Proof.
  destruct mid as [| seg [| sep rest]]; cbn; try tauto.
  intros (_ & _ & _ & Hsep & _) _ H.
  apply append_eq_nil in H as Hseg. subst seg. cbn in H.
  apply append_eq_nil in H. contradiction.
Qed.

(** The splitting loop, started at [last_end = len(pre)] in [pre + t]:
    it collects the segment and separator pairs of [t] and stops before a
    last segment. *)
Lemma path_split_loop_spec :
  forall fuel t pre ret strict,
    (String.length t < fuel)%nat ->
    (strict = true -> no_leading_slash t = true) ->
    exists mid fin,
      path_split_loop fuel (pre ++ t) (Z.of_nat (String.length pre)) ret =
      Ok (Z.of_nat (String.length pre + String.length (join_parts mid)),
          (ret ++ mid)%list)
      /\ t = join_parts mid ++ fin
      /\ slash_free fin = true
      /\ pairs_ok strict mid.
Proof.
  induction fuel as [| fuel IH]; intros t pre ret strict Hlen Hstrict;
    [lia |].
  cbn [path_split_loop]. rewrite search_separators_at.
  destruct (Regexp.first_slash_run t (String.length pre))
    as [[a b] |] eqn:E.
  - destruct (first_slash_run_some t _ a b E)
      as (seg & run & rest & -> & Hseg & Hrun & Hne & Hrest & Hfirst
          & -> & ->).
    assert (Hrunlen : (0 < String.length run)%nat)
      by (destruct run; [congruence | cbn; lia]).
    rewrite !length_append in Hlen.
    destruct (IH rest (pre ++ seg ++ run) (ret ++ [seg; run])%list true)
      as (mid & fin & Hloop & -> & Hfin & Hmid); [lia | auto |].
    exists (seg :: run :: mid), fin.
    destruct (0 <=? Z.of_nat (String.length pre + String.length seg)) eqn:E1;
      [| apply Z.leb_gt in E1; lia].
    destruct (Z.of_nat (String.length pre + String.length seg) <=?
              Z.of_nat (String.length pre + String.length seg
                        + String.length run)) eqn:E2;
      [| apply Z.leb_gt in E2; lia].
    cbn [negb].
    rewrite (slice_middle pre seg (run ++ join_parts mid ++ fin)).
    replace (pre ++ seg ++ run ++ join_parts mid ++ fin)
      with ((pre ++ seg) ++ run ++ join_parts mid ++ fin)
      by now rewrite append_assoc.
    replace (String.length pre + String.length seg)%nat
      with (String.length (pre ++ seg)) by now rewrite length_append.
    rewrite (slice_middle (pre ++ seg) run (join_parts mid ++ fin)).
    replace ((pre ++ seg) ++ run ++ join_parts mid ++ fin)
      with ((pre ++ seg ++ run) ++ join_parts mid ++ fin)
      by now rewrite !append_assoc.
    replace (String.length (pre ++ seg) + String.length run)%nat
      with (String.length (pre ++ seg ++ run))
      by (rewrite !length_append; lia).
    rewrite Hloop. repeat split.
    + f_equal. f_equal.
      * f_equal. unfold join_parts. cbn [fold_right].
        rewrite !length_append. lia.
      * now rewrite <- app_assoc.
    + unfold join_parts. cbn [fold_right]. now rewrite !append_assoc.
    + exact Hfin.
    + exact Hseg.
    + intros Hs. apply Hfirst; [now apply Hstrict |].
      intros H. apply append_eq_nil in H as Hs0. subst seg. cbn in H.
      apply append_eq_nil in H. contradiction.
    + exact Hrun.
    + exact Hne.
    + exact Hmid.
  - exists [], t. cbn [join_parts fold_right String.length append].
    rewrite Nat.add_0_r, app_nil_r. repeat split; auto.
    + now apply first_slash_run_none in E.
Qed.

Lemma index_last {A} (l : list A) (x : A) : Py.index (l ++ [x]) (-1) = Ok x.
Proof.
  unfold Py.index. cbn [Z.ltb Z.compare].
  rewrite length_app. cbn [length].
  destruct (-1 + Z.of_nat (length l + 1) <? 0) eqn:E;
    [apply Z.ltb_lt in E; lia |].
  replace (Z.to_nat (-1 + Z.of_nat (length l + 1))) with (length l) by lia.
  rewrite nth_error_app2 by lia. now rewrite Nat.sub_diag.
Qed.

Lemma pairs_ok_last strict (mid : list string) :
  pairs_ok strict mid -> mid <> [] ->
  exists l sep, mid = (l ++ [sep])%list /\ sep <> "".
Proof.
  revert strict.
  induction mid as [| x | seg sep rest IH] using list_pair_ind;
    intros strict H Hne.
  - congruence.
  - destruct H.
  - cbn [pairs_ok] in H. destruct H as (_ & _ & _ & Hsep & Hrest).
    destruct rest as [| y rest'].
    + exists [seg], sep. auto.
    + destruct (IH true Hrest) as (l & s' & E & Hs'); [discriminate |].
      exists (seg :: sep :: l), s'. rewrite E. auto.
Qed.

Lemma alternates_of_pairs (mid : list string) :
  forall strict, pairs_ok strict mid ->
    alternates strict mid
    /\ forall fin, slash_free fin = true -> fin <> "" ->
                   alternates strict (mid ++ [fin]).
Proof.
  induction mid as [| x | seg sep rest IH] using list_pair_ind;
    intros strict H.
  - split; [exact I |]. intros fin Hf Hn. cbn. auto.
  - destruct H.
  - cbn [pairs_ok] in H. destruct H as (H1 & H2 & H3 & H4 & H5).
    destruct (IH true H5) as [Ha Hb].
    split.
    + cbn [alternates]. auto.
    + intros fin Hf Hn. cbn [app alternates]. repeat split; auto.
Qed.

Lemma drop_empty_tail_snoc fuel (l : list string) (x : string) :
  drop_empty_tail (S fuel) (l ++ [x]) =
  if len x =? 0 then drop_empty_tail fuel l else Ok (l ++ [x])%list.
Proof.
  cbn [drop_empty_tail]. rewrite index_last. cbn [obind].
  destruct (len x =? 0); [| reflexivity]. now rewrite pop_snoc.
Qed.

Lemma len_nonempty (s : string) : s <> "" -> (len s =? 0) = false.
Proof.
  intros H. unfold len. apply Z.eqb_neq. destruct s; [congruence | cbn; lia].
Qed.

(** What [path_split] returns for a pattern that is not empty: the pairs
    of segment and separator, and the last segment unless it is empty. *)
Lemma path_split_shape (s : string) :
  s <> "" ->
  exists mid fin,
    path_split s = Ok (if truthy_str fin then (mid ++ [fin])%list else mid)
    /\ s = join_parts mid ++ fin
    /\ slash_free fin = true /\ pairs_ok false mid
    /\ (fin = "" -> mid <> []).
Proof.
  intros Hs. unfold path_split.
  destruct (path_split_loop_spec (S (String.length s)) s "" [] false)
    as (mid & fin & Hloop & E & Hfin & Hmid); [lia | discriminate |].
  cbn [append String.length Nat.add app] in Hloop.
  change (Z.of_nat 0) with 0 in Hloop. rewrite Hloop. cbn [obind].
  assert (Hlast : (if 0 <? Z.of_nat (String.length (join_parts mid))
                   then (mid ++ [slice_from s
                           (Z.of_nat (String.length (join_parts mid)))])%list
                   else (mid ++ [s])%list) = (mid ++ [fin])%list).
  { destruct mid as [| seg mid'] eqn:Em.
    - cbn in E. subst fin. reflexivity.
    - rewrite <- Em in *.
      assert (Hne : mid <> []) by (subst; discriminate).
      pose proof (join_parts_nonempty _ _ Hmid Hne) as Hj.
      assert (Hpos : (0 < String.length (join_parts mid))%nat)
        by (destruct (join_parts mid); [congruence | cbn; lia]).
      destruct (0 <? Z.of_nat (String.length (join_parts mid))) eqn:E0;
        [| apply Z.ltb_ge in E0; lia].
      f_equal. f_equal.
      unfold slice_from, len. rewrite slice_nat
        by (rewrite E, length_append; lia).
      rewrite E, length_append.
      replace (String.length (join_parts mid) + String.length fin
               - String.length (join_parts mid))%nat
        with (String.length fin) by lia.
      now rewrite substring_app_skip, substring_all. }
  rewrite Hlast.
  assert (Hmatch : match (mid ++ [fin])%list with
                   | [] => Ok (mid ++ [fin])%list
                   | _ :: _ =>
                       drop_empty_tail (S (length (mid ++ [fin])))
                         (mid ++ [fin])
                   end
                   = drop_empty_tail (S (length (mid ++ [fin])))
                       (mid ++ [fin])).
  { destruct mid; reflexivity. }
  rewrite Hmatch, drop_empty_tail_snoc.
  exists mid, fin.
  assert (Hne : fin = "" -> mid <> []).
  { intros -> ->. cbn in E. congruence. }
  destruct fin as [| c fin']; cbn [truthy_str].
  - cbn [len String.length Z.of_nat Z.eqb].
    destruct (pairs_ok_last _ _ Hmid (Hne eq_refl)) as (l & sep & El & Hsep).
    rewrite length_app. cbn [length]. rewrite Nat.add_1_r.
    generalize (length mid). intros n. rewrite El at 1 2.
    rewrite drop_empty_tail_snoc, (len_nonempty sep Hsep).
    rewrite <- El. repeat split; auto.
  - rewrite len_nonempty by discriminate. repeat split; auto.
Qed.

(** X7.  For a text that is not empty [path_split] returns parts that,
    joined, give the text back: segments without ["/"] and runs of ["/"]
    in turn, a segment first, none of them empty but perhaps the first
    segment. *)
Theorem path_split_joins_back (s : string) :
  s <> "" ->
  exists parts,
    path_split s = Ok parts /\ join_parts parts = s
    /\ alternates false parts /\ parts <> [].
Proof.
  intros Hs.
  destruct (path_split_shape s Hs) as (mid & fin & Hp & E & Hfin & Hmid & Hne).
  destruct (alternates_of_pairs mid false Hmid) as [Ha Hb].
  eexists. split; [exact Hp |].
  destruct fin as [| c fin']; cbn [truthy_str].
  - repeat split; auto. rewrite E. now rewrite append_nil_r.
  - repeat split.
    + rewrite join_parts_app, E. f_equal. unfold join_parts. cbn.
      now rewrite append_nil_r.
    + apply Hb; [exact Hfin | discriminate].
    + destruct mid; discriminate.
Qed.

(** The theorem at work on ["a//b/"]. *)
Lemma path_split_joins_back_a_b :
  "a//b/" <> ""
  /\ exists parts,
       path_split "a//b/" = Ok parts /\ join_parts parts = "a//b/"
       /\ alternates false parts /\ parts <> [].
Proof.
  split; [discriminate |].
  apply (path_split_joins_back "a//b/"). discriminate.
Defined.

(** ** One-segment patterns *)

Lemma all_slashes_head (sep : string) :
  all_slashes sep = true -> sep <> "" -> exists r, sep = String "/" r.
Proof.
  destruct sep as [| c r]; [congruence |]. unfold all_slashes. cbn.
  intros H _. apply andb_prop in H as [Hc _].
  apply Ascii.eqb_eq in Hc. subst c. eauto.
Qed.

Lemma pairs_have_slash strict (mid : list string) (x : string) :
  pairs_ok strict mid -> mid <> [] ->
  slash_free (join_parts mid ++ x) = false.
Proof.
  destruct mid as [| seg [| sep rest]]; cbn [pairs_ok]; try tauto.
  intros (_ & _ & Hsep & Hne & _) _.
  destruct (all_slashes_head sep Hsep Hne) as [r ->].
  unfold join_parts. cbn [fold_right].
  rewrite append_assoc. cbn [append]. apply slash_free_slash.
Qed.

(** A pattern without ["/"] is its own single part. *)
Lemma path_split_segment (s : string) :
  s <> "" -> slash_free s = true -> path_split s = Ok [s].
Proof.
  intros Hs Hf.
  destruct (path_split_shape s Hs) as (mid & fin & Hp & E & _ & Hmid & _).
  destruct mid as [| seg mid'] eqn:Em.
  - cbn in E. subst fin. rewrite Hp.
    destruct s; [congruence | reflexivity].
  - exfalso. rewrite E in Hf.
    rewrite (pairs_have_slash false (seg :: mid') fin) in Hf;
      [discriminate | exact Hmid | discriminate].
Qed.

(** The chain of a one-segment pattern that is not a plain name: an
    [EntryMatch] leaf for the whole pattern. *)
Lemma single_compile_segment (s : string) (flags : Z) :
  s <> "" -> slash_free s = true -> Regexp.search_constant s = false ->
  single_compile s flags None = Ok (EntryMatch None flags None s [""]).
Proof.
  intros Hs Hf Hc. unfold single_compile.
  rewrite (path_split_segment s Hs Hf). cbn [obind].
  assert (Hne : truthy_str s = true) by (destruct s; [congruence | auto]).
  destruct (getitem_last _ s Hne Hf) as (c & -> & Hcl). cbn [obind].
  assert (E : Ascii.eqb c "/" = false)
    by (destruct (Ascii.eqb c "/"); [discriminate | reflexivity]).
  rewrite E. cbn [Py.pop rev app obind]. rewrite Hc.
  cbn [EntryMatch_init obind compile_dirs length].
  destruct s as [| c0 s']; [congruence |].
  unfold slash_free in Hf. cbn in Hf. apply andb_prop in Hf as [Hc0 _].
  cbn. destruct (Ascii.eqb c0 "/"); [discriminate | reflexivity].
Qed.

Lemma entry_matches_cons fnmatch sep glob suffixes path f
    (entries : list string) :
  entry_matches fnmatch sep glob suffixes path (f :: entries) =
  (flat_map (fun suffix =>
     if fnmatch (f ++ suffix)%string glob
     then [path_join sep path (f ++ suffix)]
     else []) suffixes
   ++ entry_matches fnmatch sep glob suffixes path entries)%list.
Proof. reflexivity. Qed.

Lemma entry_matches_plain fnmatch sep glob (entries : list string) :
  entry_matches fnmatch sep glob [""] None entries =
  filter (fun f => fnmatch f glob) entries.
Proof.
  induction entries as [| f l IH]; [reflexivity |].
  rewrite entry_matches_cons, IH. cbn [flat_map filter path_join].
  rewrite app_nil_r, append_nil_r.
  destruct (fnmatch f glob); reflexivity.
Qed.



(** ** Chains the compiler builds *)

Lemma inner_chain_set_separator fl n sep :
  inner_chain fl n -> inner_chain fl (set_separator n sep).
Proof. destruct n as [[]| | |[]|[]|[]|[]|[]]; cbn; auto. Qed.

Lemma node_separator_set n sep :
  node_separator (set_separator n sep) = sep.
Proof. now destruct n. Qed.

Lemma slash_sep_intro (r : string) :
  all_slashes r = true -> r <> "" -> slash_sep (Some r).
Proof. intros H1 H2. exists r. auto. Qed.

Lemma pairs_ok_weaken strict (l : list string) :
  pairs_ok strict l -> pairs_ok false l.
Proof.
  destruct l as [| x [| y l]]; cbn; auto.
  intros (H1 & _ & H3). repeat split; auto; try tauto. discriminate.
Qed.

(** The last pair of a list of pairs. *)
Lemma pairs_ok_snoc_inv (mid : list string) :
  forall strict,
    pairs_ok strict mid -> mid <> [] ->
    exists l seg sep,
      mid = (l ++ [seg; sep])%list /\ pairs_ok strict l
      /\ slash_free seg = true /\ all_slashes sep = true /\ sep <> ""
      /\ (l <> [] -> seg <> "")
      /\ (l <> [] -> hd "" l = hd "" mid).
Proof.
  induction mid as [| x | seg sep rest IH] using list_pair_ind;
    intros strict H Hne.
  - congruence.
  - destruct H.
  - cbn [pairs_ok] in H. destruct H as (H1 & H2 & H3 & H4 & H5).
    destruct rest as [| y rest'].
    + exists [], seg, sep. cbn. repeat split; auto; congruence.
    + destruct (IH true H5) as (l & sg & sp & E & Hl & Hsg & Hsp & Hspn
                                  & Hsgn & _); [discriminate |].
      exists (seg :: sep :: l), sg, sp. rewrite E. cbn [app pairs_ok hd].
      repeat split; auto.
      intros _. destruct l as [| a l'].
      * cbn in E. destruct rest'; [discriminate |].
        injection E as -> ->. 
        cbn [pairs_ok] in H5. destruct H5 as (_ & Hs & _). now apply Hs.
      * apply Hsgn. discriminate.
Qed.

Lemma pop_two {A} (l : list A) (a b : A) :
  Py.pop (l ++ [a; b]) = Ok (b, (l ++ [a])%list)
  /\ Py.pop (l ++ [a]) = Ok (a, l).
Proof.
  split; [| apply pop_snoc].
  replace (l ++ [a; b])%list with ((l ++ [a]) ++ [b])%list
    by now rewrite <- app_assoc.
  apply pop_snoc.
Qed.

Lemma index_before_last {A} (l : list A) (a b : A) :
  Py.index (l ++ [a; b]) (Z.of_nat (length (l ++ [a; b])) - 2) = Ok a.
Proof.
  unfold Py.index. rewrite length_app. cbn [length].
  destruct (Z.of_nat (length l + 2) - 2 <? 0) eqn:E;
    [apply Z.ltb_lt in E; lia |]. rewrite E.
  replace (Z.to_nat (Z.of_nat (length l + 2) - 2)) with (length l) by lia.
  rewrite nth_error_app2 by lia. now rewrite Nat.sub_diag.
Qed.

Lemma app_two_inj {A} (l l' : list A) (a b a' b' : A) :
  (l ++ [a; b] = l' ++ [a'; b'])%list -> l = l' /\ a = a' /\ b = b'.
Proof.
  intros E.
  replace (l ++ [a; b])%list with ((l ++ [a]) ++ [b])%list in E
    by now rewrite <- app_assoc.
  replace (l' ++ [a'; b'])%list with ((l' ++ [a']) ++ [b'])%list in E
    by now rewrite <- app_assoc.
  apply app_inj_tail in E as [E ->].
  apply app_inj_tail in E as [-> ->]. auto.
Qed.

Lemma pairs_ok_snoc strict (l : list string) seg sep :
  pairs_ok strict (l ++ [seg; sep]) ->
  pairs_ok strict l
  /\ slash_free seg = true /\ all_slashes sep = true /\ sep <> ""
  /\ (l <> [] -> seg <> "")
  /\ (l <> [] -> hd "" l = hd "" (l ++ [seg; sep])).
Proof.
  intros H.
  destruct (pairs_ok_snoc_inv _ strict H)
    as (l' & sg & sp & E & Hl & Hsg & Hsp & Hspn & Hsgn & Hhd);
    [destruct l; discriminate |].
  apply app_two_inj in E as (-> & -> & ->). repeat split; auto.
Qed.

Lemma length_snoc2 {A} (l : list A) (a b : A) :
  length (l ++ [a; b]) = S (S (length l)).
Proof. rewrite length_app. cbn. lia. Qed.

(** The folding loop: it stops on a segment that is not literal, with
    parts left, or it takes every part and fails its assertion, and then
    the first segment is literal. *)
Lemma fold_literals_spec :
  forall fuel l0 sect sp dir,
    pairs_ok false (l0 ++ [sect; sp]) ->
    (length (l0 ++ [sect; sp]) <= fuel)%nat ->
    (fold_literals fuel (l0 ++ [sect; sp]) dir (Regexp.search_literal sect)
     = Raise AssertionError
     /\ Regexp.search_literal (hd "" (l0 ++ [sect; sp])) = true)
    \/ exists dir' l,
         fold_literals fuel (l0 ++ [sect; sp]) dir
           (Regexp.search_literal sect) = Ok (dir', l)
         /\ l <> [] /\ pairs_ok false l
         /\ hd "" l = hd "" (l0 ++ [sect; sp])
         /\ (length l <= length (l0 ++ [sect; sp]))%nat.
Proof.
  induction fuel as [| fuel IH]; intros l0 sect sp dir Hp Hlen.
  - rewrite length_snoc2 in Hlen. lia.
  - cbn [fold_literals].
    destruct (Regexp.search_literal sect) eqn:Efound.
    + destruct (pop_two l0 sect sp) as [-> E2]. cbn [obind].
      rewrite E2. cbn [obind].
      destruct (pairs_ok_snoc _ _ _ _ Hp) as (Hl & _ & _ & _ & _ & Hhd).
      rewrite length_snoc2 in *.
      destruct l0 as [| x l0'] eqn:El0.
      * left. cbn. auto.
      * rewrite <- El0 in *.
        assert (Hne : l0 <> []) by (subst; discriminate). clear El0.
        destruct (pairs_ok_snoc_inv l0 false Hl Hne)
          as (l1 & sect' & sp' & E & _).
        rewrite <- (Hhd Hne). rewrite E in *. rewrite length_snoc2 in *.
        destruct (Z.of_nat (S (S (length l1))) - 2 <? 0) eqn:Eidx;
          [apply Z.ltb_lt in Eidx; lia |].
        replace (0 <=? Z.of_nat (S (S (length l1))) - 2) with true
          by (symmetry; apply Z.leb_le; lia).
        cbn [negb].
        pose proof (index_before_last l1 sect' sp') as Hi.
        rewrite length_snoc2 in Hi. rewrite Hi. cbn [obind].
        destruct (IH l1 sect' sp' (sect ++ sp ++ dir)%string Hl)
          as [[Hr Hh] | (dir' & l & Hr & Hln & Hlp & Hlh & Hll)];
          [rewrite length_snoc2; lia | |].
        -- left. auto.
        -- right. exists dir', l. rewrite length_snoc2 in Hll.
           repeat split; auto; lia.
    + right. exists dir, (l0 ++ [sect; sp])%list. repeat split; auto.
      destruct l0; discriminate.
Qed.

(** One turn of the [while parts:] loop, on parts that end with the
    segment [dir] and the separator [sep]. *)
Lemma compile_dirs_turn fuel (l : list string) dir sep last fl :
  compile_dirs (S fuel) (l ++ [dir; sep]) last fl =
  let last' := set_separator last (Some sep) in
  if String.eqb dir "**" then
    match l with
    | _ :: _ =>
        compile_dirs fuel l (RecursiveDirectories (Some last') fl None) fl
    | [] =>
        compile_dirs fuel l (StartRecursiveDirectories (Some last') fl None)
          fl
    end
  else if Regexp.search_literal dir then
    let partidx := Z.of_nat (length l) - 2 in
    if negb (0 <=? partidx) then Raise AssertionError
    else
      obind (Py.index l partidx) (fun sect =>
      obind (fold_literals (length l) l dir (Regexp.search_literal sect))
        (fun '(dir, parts) =>
           compile_dirs fuel parts
             (ConstantDirectory (Some last') fl None dir) fl))
  else if 0 <? len dir then
    compile_dirs fuel l (DirectoryMatch (Some last') fl None dir) fl
  else compile_dirs fuel l last' fl.
Proof.
  destruct (l ++ [dir; sep])%list as [| x r] eqn:E;
    [destruct l; discriminate |].
  cbn [compile_dirs]. rewrite <- E.
  destruct (pop_two l dir sep) as [E1 E2].
  rewrite E1. cbn [obind]. rewrite E2. cbn [obind].
  destruct (String.eqb dir "**"); [now destruct l |].
  reflexivity.
Qed.

(** The [while parts:] loop on well-formed parts: it fails its assertion
    when the first segment is literal, and builds an inner chain
    otherwise. *)
Lemma compile_dirs_spec fl :
  forall fuel parts last,
    (length parts <= fuel)%nat -> pairs_ok false parts ->
    inner_chain fl last -> parts <> [] ->
    if Regexp.search_literal (hd "" parts)
    then compile_dirs fuel parts last fl = Raise AssertionError
    else exists n,
        compile_dirs fuel parts last fl = Ok n /\ inner_chain fl n
        /\ (if truthy_str (hd "" parts) then node_separator n = None
            else slash_sep (node_separator n)).
Proof.
  induction fuel as [| fuel IH]; intros parts last Hlen Hp Hlast Hne.
  - destruct parts; [congruence | cbn in Hlen; lia].
  - destruct (pairs_ok_snoc_inv parts false Hp Hne)
      as (l & dir & sep & -> & _).
    destruct (pairs_ok_snoc _ _ _ _ Hp) as (Hl & Hdir & Hsep & Hsepn & Hdirn
                                             & Hhd).
    rewrite length_snoc2 in Hlen.
    rewrite compile_dirs_turn. cbv zeta.
    set (last' := set_separator last (Some sep)).
    assert (Hlast' : inner_chain fl last')
      by now apply inner_chain_set_separator.
    assert (Hsl : slash_sep (node_separator last')).
    { unfold last'. rewrite node_separator_set. now apply slash_sep_intro. }
    (* what the loop does with the parts [l] that are left *)
    assert (Hrest : forall N,
              inner_chain fl N -> node_separator N = None ->
              l <> [] \/ (Regexp.search_literal dir = false
                          /\ truthy_str dir = true) ->
              if Regexp.search_literal (hd "" (l ++ [dir; sep]))
              then compile_dirs fuel l N fl = Raise AssertionError
              else exists n,
                  compile_dirs fuel l N fl = Ok n /\ inner_chain fl n
                  /\ (if truthy_str (hd "" (l ++ [dir; sep]))
                      then node_separator n = None
                      else slash_sep (node_separator n))).
    { intros N HN HNs Hcase. destruct l as [| x l'] eqn:El.
      - destruct Hcase as [Hc | [Hc1 Hc2]]; [congruence |].
        cbn [app hd]. rewrite Hc1, Hc2.
        exists N. destruct fuel; cbn; auto.
      - rewrite <- El in *. assert (Hln : l <> []) by (subst; discriminate).
        rewrite <- (Hhd Hln). apply IH; auto. lia. }
    destruct (String.eqb_spec dir "**") as [-> | Hstar].
    + destruct l as [| x l'] eqn:El.
      * apply (Hrest (StartRecursiveDirectories (Some last') fl None));
          cbn; auto.
      * rewrite <- El in *.
        apply (Hrest (RecursiveDirectories (Some last') fl None));
          cbn; auto; left; subst; discriminate.
    + destruct (Regexp.search_literal dir) eqn:Elit.
      * destruct l as [| x l'] eqn:El.
        -- cbn [app hd length Z.of_nat Z.sub Z.leb negb]. rewrite Elit.
           reflexivity.
        -- rewrite <- El in *.
           assert (Hln : l <> []) by (subst; discriminate). clear El.
           destruct (pairs_ok_snoc_inv l false Hl Hln)
             as (l1 & sect & sp & E & _).
           rewrite <- (Hhd Hln). rewrite E in *. clear E.
           rewrite length_snoc2 in *.
           replace (0 <=? Z.of_nat (S (S (length l1))) - 2) with true
             by (symmetry; apply Z.leb_le; lia).
           cbn [negb].
           pose proof (index_before_last l1 sect sp) as Hi.
           rewrite length_snoc2 in Hi. rewrite Hi. cbn [obind].
           pose proof (fold_literals_spec (S (S (length l1))) l1 sect sp dir
                         Hl) as Hf.
           rewrite length_snoc2 in Hf.
           destruct (Hf (Nat.le_refl _))
             as [[Hr Hh] | (dir' & l2 & Hr & Hl2n & Hl2p & Hl2h & Hl2l)].
           ++ rewrite Hr, Hh. reflexivity.
           ++ rewrite Hr. cbn [obind]. rewrite <- Hl2h.
              apply IH; cbn; auto. lia.
      * destruct (0 <? len dir) eqn:Elen.
        -- apply (Hrest (DirectoryMatch (Some last') fl None dir));
             cbn; auto.
           destruct dir; [discriminate | auto].
        -- assert (dir = "").
           { destruct dir; [reflexivity |]. discriminate. }
           subst dir.
           assert (l = []).
           { destruct l; [reflexivity |]. exfalso. apply Hdirn; auto.
             discriminate. }
           subst l. cbn [app hd Regexp.search_literal truthy_str].
           exists last'. destruct fuel; cbn; auto.
Qed.

Lemma string_snoc (s : string) :
  s <> "" -> exists y c, s = y ++ String c "".
Proof.
  induction s as [| a s IH]; [congruence |]. intros _.
  destruct s as [| b s'].
  - exists "", a. reflexivity.
  - destruct IH as (y & c & E); [discriminate |].
    exists (String a y), c. cbn. now rewrite <- E.
Qed.

Lemma getitem_snoc (x : string) (c : ascii) :
  getitem (x ++ String c "") (-1) = Ok c.
Proof.
  unfold getitem, len. cbn [Z.ltb Z.compare]. rewrite length_append.
  cbn [String.length].
  destruct (-1 + Z.of_nat (String.length x + 1) <? 0) eqn:E;
    [apply Z.ltb_lt in E; lia |].
  replace (Z.to_nat (-1 + Z.of_nat (String.length x + 1)))
    with (String.length x) by lia.
  clear E. induction x as [| a x IH]; cbn; [reflexivity | exact IH].
Qed.

(** The joined pairs end with ["/"]. *)
Lemma join_pairs_ends strict (mid : list string) :
  pairs_ok strict mid -> mid <> [] ->
  exists x, join_parts mid = x ++ "/".
Proof.
  intros Hp Hne.
  destruct (pairs_ok_snoc_inv mid strict Hp Hne)
    as (l & seg & sep & -> & _ & _ & Hsep & Hsepn & _).
  destruct (all_slashes_head sep Hsep Hsepn) as [r ->].
  assert (Hr : all_slashes r = true).
  { unfold all_slashes in *. cbn in Hsep. exact Hsep. }
  exists (join_parts l ++ seg ++ r).
  rewrite join_parts_app. unfold join_parts at 2. cbn [fold_right].
  rewrite append_nil_r, (all_slashes_snoc r Hr).
  now rewrite !append_assoc.
Qed.

Lemma first_segment_free (s : string) :
  slash_free s = true -> first_segment s = s.
Proof.
  unfold slash_free. induction s as [| c s IH]; [reflexivity |]. cbn.
  destruct (Ascii.eqb c "/"); [discriminate |]. intros H. now rewrite IH.
Qed.

Lemma first_segment_app (seg r : string) :
  slash_free seg = true -> first_segment (seg ++ String "/" r) = seg.
Proof.
  unfold slash_free. induction seg as [| c s IH]; [reflexivity |]. cbn.
  destruct (Ascii.eqb c "/"); [discriminate |]. intros H. now rewrite IH.
Qed.

Lemma last_segment_free (s : string) :
  slash_free s = true -> last_segment s = s.
Proof.
  destruct s as [| c s]; [reflexivity |]. intros H.
  change (slash_free (String c s))
    with (negb (Ascii.eqb c "/") && slash_free s) in H.
  apply andb_prop in H as [Hc Hs]. cbn [last_segment]. rewrite Hs.
  destruct (Ascii.eqb c "/"); [discriminate | reflexivity].
Qed.

Lemma last_segment_app (x fin : string) :
  slash_free fin = true -> last_segment (x ++ String "/" fin) = fin.
Proof.
  intros Hf. induction x as [| c x IH]; cbn [append last_segment].
  - now rewrite Hf.
  - now rewrite slash_free_slash.
Qed.

(** The pattern in terms of its parts: its first and last segment, and
    whether it has a separator. *)
Lemma pattern_segments (mid : list string) (fin : string) :
  pairs_ok false mid -> slash_free fin = true ->
  last_segment (join_parts mid ++ fin) = fin
  /\ match mid with
     | [] => slash_free (join_parts mid ++ fin) = true
     | seg0 :: _ =>
         slash_free (join_parts mid ++ fin) = false
         /\ first_segment (join_parts mid ++ fin) = seg0
         /\ exists c r, join_parts mid ++ fin = String c r
                        /\ (Ascii.eqb c "/" = negb (truthy_str seg0))
     end.
Proof.
  intros Hp Hf. split.
  - destruct mid as [| seg0 mid'] eqn:E.
    + cbn. now apply last_segment_free.
    + rewrite <- E in *.
      destruct (join_pairs_ends false mid Hp) as [x ->];
        [subst; discriminate |].
      rewrite append_assoc. cbn [append]. now apply last_segment_app.
  - destruct mid as [| seg0 [| sep0 rest]]; [exact Hf | destruct Hp |].
    cbn [pairs_ok] in Hp. destruct Hp as (Hs0 & _ & Hsep & Hsepn & Hrest).
    destruct (all_slashes_head sep0 Hsep Hsepn) as [r ->].
    unfold join_parts. cbn [fold_right]. fold (join_parts rest).
    rewrite !append_assoc. cbn [append]. repeat split.
    + apply slash_free_slash.
    + now apply first_segment_app.
    + destruct seg0 as [| c s]; cbn [append truthy_str negb].
      * eexists _, _. split; reflexivity.
      * eexists _, _. split; [reflexivity |].
        unfold slash_free in Hs0. cbn in Hs0.
        destruct (Ascii.eqb c "/"); [discriminate | reflexivity].
Qed.

(** The outcome of [single_compile] on a pattern that is not empty:
    [TypeError] when the last segment is a plain name; failing that,
    [AssertionError] when there is a separator and the first segment
    starts as a literal; failing that, a compiled chain. *)
Lemma single_compile_cases :
  forall pattern flags suffixes,
    pattern <> "" ->
    if Regexp.search_constant (last_segment pattern)
    then single_compile pattern flags suffixes = Raise TypeError
    else if negb (slash_free pattern)
            && Regexp.search_literal (first_segment pattern)
    then single_compile pattern flags suffixes = Raise AssertionError
    else exists n, single_compile pattern flags suffixes = Ok n
                   /\ compiled_chain flags n.
Proof.
  intros pattern flags suffixes Hne.
  destruct (path_split_shape pattern Hne)
    as (mid & fin & Hsplit & E & Hfin & Hmid & Hfm).
  destruct (pattern_segments mid fin Hmid Hfin) as [Hlast Hfirst].
  rewrite <- E in Hlast, Hfirst. rewrite Hlast.
  (* the loop over the directories, and the root *)
  assert (Hdirs : forall leaf,
    inner_chain flags leaf -> node_separator leaf = None ->
    let r := obind (compile_dirs (length mid) mid leaf flags)
               (fun last =>
                  obind (getitem pattern 0) (fun c0 =>
                    if Ascii.eqb c0 "/"
                    then RootDirectory_init (Some last) flags
                    else Ok last)) in
    if negb (slash_free pattern)
       && Regexp.search_literal (first_segment pattern)
    then r = Raise AssertionError
    else exists n, r = Ok n /\ compiled_chain flags n).
  { intros leaf Hleaf Hlsep r. subst r.
    destruct mid as [| seg0 mid'] eqn:Em.
    - rewrite Hfirst. cbn [negb andb compile_dirs length obind].
      assert (Hc0 : exists c0 r, pattern = String c0 r
                                 /\ Ascii.eqb c0 "/" = false).
      { destruct pattern as [| c0 r]; [congruence |].
        exists c0, r. split; [reflexivity |].
        change (slash_free (String c0 r))
          with (negb (Ascii.eqb c0 "/") && slash_free r) in Hfirst.
        apply andb_prop in Hfirst as [Hc _].
        destruct (Ascii.eqb c0 "/"); [discriminate | reflexivity]. }
      destruct Hc0 as (c0 & r & -> & Hc0). cbn. rewrite Hc0.
      exists leaf. split; [reflexivity |]. left. auto.
    - rewrite <- Em in *.
      assert (Hmne : mid <> []) by (subst; discriminate).
      assert (Hhd : hd "" mid = seg0) by (subst; reflexivity).
      clear Em.
      destruct Hfirst as (Hsf & Hfs & c0 & r & Hpat & Hc0).
      rewrite Hsf, Hfs. cbn [negb andb].
      pose proof (compile_dirs_spec flags (length mid) mid leaf
                    (Nat.le_refl _) Hmid Hleaf Hmne) as Hc.
      rewrite Hhd in Hc.
      destruct (Regexp.search_literal seg0).
      + now rewrite Hc.
      + destruct Hc as (n & -> & Hn & Hsep). cbn [obind].
        rewrite Hpat. cbn. rewrite Hc0.
        destruct (truthy_str seg0); cbn [negb].
        * exists n. split; [reflexivity |]. left. auto.
        * exists (RootDirectory (Some n) flags None).
          split; [reflexivity |]. right. exists n. auto. }
  unfold single_compile. rewrite Hsplit. cbn [obind].
  destruct fin as [| cf fin'] eqn:Ef.
  - destruct (join_pairs_ends false mid Hmid (Hfm eq_refl)) as [x Hx].
    assert (Hg : getitem pattern (-1) = Ok "/"%char).
    { rewrite E, Hx, append_nil_r. apply getitem_snoc. }
    rewrite Hg.
    cbn [obind truthy_str Ascii.eqb Bool.eqb DirectoriesOnly_init].
    change (Regexp.search_constant "") with false. cbv iota.
    apply (Hdirs (DirectoriesOnly None flags None)); repeat split.
  - rewrite <- Ef in *. assert (Hfn : fin <> "") by (subst; discriminate).
    destruct (string_snoc fin Hfn) as (y & c & Ey).
    assert (Hc : Ascii.eqb c "/" = false).
    { rewrite Ey in Hfin. rewrite slash_free_append in Hfin.
      apply andb_prop in Hfin as [_ Hc].
      change (slash_free (String c ""))
        with (negb (Ascii.eqb c "/") && true) in Hc.
      destruct (Ascii.eqb c "/"); [discriminate | reflexivity]. }
    assert (Hg : getitem pattern (-1) = Ok c).
    { rewrite E, Ey, <- append_assoc. apply getitem_snoc. }
    rewrite Hg. cbn [obind]. rewrite Hc.
    replace (truthy_str fin) with true by (subst; reflexivity).
    rewrite pop_snoc. cbn [obind].
    destruct (Regexp.search_constant fin); [reflexivity |].
    cbn [obind EntryMatch_init].
    apply (Hdirs (EntryMatch None flags None fin _)); repeat split.
Qed.



(** ** The exceptions a run can end in *)

Section RaisesOnly.

Context {S : Type} (P : exn -> Prop).

Lemma raises_only_ret {A} (a : A) : raises_only P (@ret S A a).
Proof. intros s e H. discriminate. Qed.

Lemma raises_only_timeout {A} : raises_only P (@timeout S A).
Proof. intros s e H. discriminate. Qed.

Lemma raises_only_raise {A} (e : exn) : P e -> raises_only P (@raise S A e).
Proof. intros He s e' [= <-]. exact He. Qed.

Lemma raises_only_lift {A} (o : outcome A) :
  (forall e, o = Raise e -> P e) -> raises_only P (@lift S A o).
Proof. intros Ho s e H. now apply Ho. Qed.

Lemma raises_only_bind {A B} (c : ST S A) (k : A -> ST S B) :
  raises_only P c -> (forall a, raises_only P (k a)) ->
  raises_only P (bind c k).
Proof.
  intros Hc Hk s e. unfold bind. specialize (Hc s).
  destruct (c s) as [s' [a | e' |]]; cbn in *.
  - apply Hk.
  - intros [= <-]. now apply Hc.
  - discriminate.
Qed.

Lemma raises_only_catch (c : ST S unit) :
  raises_only P c -> raises_only P (catch_OSError c).
Proof.
  intros Hc s e. unfold catch_OSError. specialize (Hc s).
  destruct (c s) as [s' [[] | [] |]]; cbn in *; try discriminate;
    intros [= <-]; now apply Hc.
Qed.

Lemma raises_only_for_each {A} (l : list A) (body : A -> ST S unit) :
  (forall x, raises_only P (body x)) -> raises_only P (for_each l body).
Proof.
  intros Hb. induction l as [| x l IH]; cbn [for_each].
  - apply raises_only_ret.
  - apply raises_only_bind; auto.
Qed.

Lemma raises_only_if {A} (b : bool) (c1 c2 : ST S A) :
  raises_only P c1 -> raises_only P c2 ->
  raises_only P (if b then c1 else c2).
Proof. now destruct b. Qed.

Lemma raises_only_os_listdir (fs : FS) (p : string) :
  P OSError -> raises_only P (@os_listdir S fs p).
Proof.
  intros HP s e. unfold os_listdir.
  destruct (listdir fs p); cbn; [discriminate |]. now intros [= <-].
Qed.

End RaisesOnly.

Lemma raises_only_in_walk {A} P (c : ST env A) :
  raises_only P c -> raises_only P (in_walk c).
Proof.
  intros Hc w e. unfold in_walk. specialize (Hc (wenv w)).
  destruct (c (wenv w)) as [m r]; cbn in *. apply Hc.
Qed.

Lemma raises_only_stack_pop P : P IndexError -> raises_only P stack_pop.
Proof.
  intros HP w e. unfold stack_pop, Py.pop.
  destruct (rev (stack w)) as [| x l]; cbn; [| discriminate].
  now intros [= <-].
Qed.

Lemma getitem_raises (s : string) (i : Z) (e : exn) :
  getitem s i = Raise e -> e = IndexError.
Proof.
  unfold getitem.
  destruct ((if i <? 0 then i + len s else i) <? 0);
    [| destruct (String.get _ s)]; congruence.
Qed.

Section EngineRaises.

Variable fnmatch : string -> string -> bool.
Variable fs : FS.

#[local] Abbreviation walk_only := (raises_only walk_error).

Lemma walk_error_OSError : walk_error OSError.
Proof. now left. Qed.

Lemma walk_error_IndexError : walk_error IndexError.
Proof. right. now left. Qed.

Lemma walk_error_TypeError : walk_error TypeError.
Proof. right. now right. Qed.

Lemma raises_only_ConstantEntry sep name suffixes parent :
  walk_only (ConstantEntry_call fs sep name suffixes parent).
Proof.
  unfold ConstantEntry_call. apply raises_only_for_each. intros s.
  apply raises_only_if; [| apply raises_only_ret].
  intros m e H. discriminate.
Qed.

Lemma raises_only_DirectoriesOnly path :
  walk_only (DirectoriesOnly_call fs path).
Proof.
  unfold DirectoriesOnly_call. destruct path; [| apply raises_only_ret].
  apply raises_only_if; [| apply raises_only_ret].
  intros m e H. discriminate.
Qed.

Lemma raises_only_EntryMatch sep glob suffixes path :
  walk_only (EntryMatch_call fnmatch fs sep glob suffixes path).
Proof.
  unfold EntryMatch_call. apply raises_only_if; [apply raises_only_ret |].
  intros m e. unfold os_listdir.
  destruct (listdir fs _) as [entries |]; cbn; [| discriminate].
  apply (raises_only_for_each walk_error). intros f.
  apply raises_only_for_each. intros suffix.
  apply raises_only_if; [| apply raises_only_ret].
  intros m0 e0 H. discriminate.
Qed.

Lemma raises_only_DirectoryMatch next_call sep glob path :
  (forall p, walk_only (next_call p)) ->
  walk_only (DirectoryMatch_call fnmatch fs next_call sep glob path).
Proof.
  intros Hn. unfold DirectoryMatch_call.
  apply raises_only_if; [apply raises_only_ret |].
  apply raises_only_bind;
    [apply raises_only_os_listdir, walk_error_OSError |].
  intros ents. apply raises_only_for_each. intros ent.
  apply raises_only_if; [| apply raises_only_ret].
  apply raises_only_if; [apply Hn | apply raises_only_ret].
Qed.

Lemma raises_only_descend next_call flags full ent :
  (forall p, walk_only (next_call p)) ->
  raises_only walk_error (descend fs next_call flags full ent).
Proof.
  intros Hn. unfold descend. apply raises_only_bind.
  - apply raises_only_if; [| apply raises_only_ret].
    apply raises_only_if; [apply raises_only_ret |].
    apply raises_only_bind; [| intros c; apply raises_only_ret].
    apply raises_only_lift. intros e He.
    apply getitem_raises in He as ->. apply walk_error_IndexError.
  - intros []; [| apply raises_only_ret].
    apply raises_only_bind; [intros w e H; discriminate |].
    intros _. apply raises_only_in_walk, Hn.
Qed.

Lemma raises_only_while_stack fuel next_call flags sep :
  (forall p, walk_only (next_call p)) ->
  raises_only walk_error (while_stack fs fuel next_call flags sep).
Proof.
  intros Hn. induction fuel as [| fuel IH]; intros w e; cbn [while_stack].
  - destruct (stack w); cbn; discriminate.
  - destruct (stack w) eqn:E; [cbn; discriminate |].
    revert w E e. intros w _.
    apply (raises_only_bind walk_error);
      [apply raises_only_stack_pop, walk_error_IndexError |].
    intros path. apply raises_only_bind; [| intros _; exact IH].
    apply raises_only_catch. apply raises_only_bind;
      [apply raises_only_os_listdir, walk_error_OSError |].
    intros ents. apply raises_only_for_each. intros ent.
    now apply raises_only_descend.
Qed.

Lemma raises_only_call_with_stack fuel next_call switched_call flags sep
    start :
  (forall p, walk_only (next_call p)) ->
  (forall p, walk_only (switched_call p)) ->
  raises_only walk_error
    (call_with_stack fs fuel next_call switched_call flags sep start).
Proof.
  intros Hn Hs. unfold call_with_stack.
  apply raises_only_bind; [apply raises_only_in_walk, Hs |].
  intros _. now apply raises_only_while_stack.
Qed.

Lemma raises_only_RecursiveDirectories fuel next_call switched_call flags
    sep start :
  (forall p, walk_only (next_call p)) ->
  (forall p, walk_only (switched_call p)) ->
  walk_only (fun m => end_walk
    (RecursiveDirectories_walk fs fuel next_call switched_call flags sep
       start m)).
Proof.
  intros Hn Hs m e. unfold RecursiveDirectories_walk, end_walk.
  destruct start as [s |]; cbn [snd].
  - destruct (negb (exists_ fs s)); cbn [snd]; [discriminate |].
    apply (raises_only_call_with_stack fuel next_call switched_call flags
             sep (Some s) Hn Hs (new_walk [s] m)).
  - intros [= <-]. apply walk_error_TypeError.
Qed.

Lemma raises_only_StartRecursiveDirectories fuel next_call switched_call
    flags sep start :
  (forall p, walk_only (next_call p)) ->
  (forall p, walk_only (switched_call p)) ->
  walk_only (fun m => end_walk
    (StartRecursiveDirectories_walk fs fuel next_call switched_call flags
       sep start m)).
Proof.
  intros Hn Hs m e. unfold StartRecursiveDirectories_walk, end_walk.
  destruct (truthy start); cbn [snd].
  - intros [= <-]. apply walk_error_TypeError.
  - refine (raises_only_bind walk_error _ _ _ _ (new_walk [] m) e);
      [apply raises_only_os_listdir, walk_error_OSError |].
    intros ents. apply raises_only_bind.
    + apply raises_only_for_each. intros ent. now apply raises_only_descend.
    + intros _. now apply raises_only_call_with_stack.
Qed.

(** A chain in which every directory node has a continuation runs into no
    exception but those of the walk. *)
Lemma raises_only_inner_chain fl fuel :
  forall n path,
    inner_chain fl n -> walk_only (call fnmatch fs fuel n path).
Proof.
  induction fuel as [| fuel IH]; intros n path Hn;
    [apply raises_only_timeout |].
  destruct n as [[n' |] f sp d | nx f sp nm sf | [n' |] f sp | [n' |] f sp
                | [n' |] f sp | [n' |] f sp g | [nx |] f sp g sf
                | [nx |] f sp]; cbn [inner_chain] in Hn; try contradiction;
    cbn [call].
  - destruct Hn as (_ & _ & Hn'). unfold ConstantDirectory_call.
    cbn [call_next]. now apply IH.
  - destruct Hn as (_ & _ & Hn').
    apply raises_only_RecursiveDirectories; intros p; cbn;
      apply IH; [exact Hn' | now apply inner_chain_set_separator].
  - destruct Hn as (_ & _ & Hn').
    apply raises_only_StartRecursiveDirectories; intros p; cbn;
      apply IH; [exact Hn' | now apply inner_chain_set_separator].
  - destruct Hn as (_ & _ & Hn').
    apply raises_only_DirectoryMatch. intros p. cbn. now apply IH.
  - apply raises_only_EntryMatch.
  - apply raises_only_DirectoriesOnly.
Qed.

Lemma raises_only_compiled_chain fl fuel n path :
  compiled_chain fl n -> walk_only (call fnmatch fs fuel n path).
Proof.
  intros [[Hn _] | (n' & -> & _ & Hn')].
  - now apply (raises_only_inner_chain fl).
  - destruct fuel as [| fuel]; [apply raises_only_timeout |].
    cbn [call]. unfold RootDirectory_call. cbn [call_next].
    now apply (raises_only_inner_chain fl).
Qed.

End EngineRaises.

(** [single_compile] ends, in a compiled chain or in an exception of the
    compiler. *)
Lemma single_compile_ends pattern flags suffixes :
  match single_compile pattern flags suffixes with
  | Ok n => compiled_chain flags n
  | Raise e => compile_error e
  | Timeout => False
  end.
Proof.
  destruct (String.eqb_spec pattern "") as [-> | Hne].
  - cbn. now left.
  - pose proof (single_compile_cases pattern flags suffixes Hne) as H.
    destruct (Regexp.search_constant _).
    + rewrite H. right. now left.
    + destruct (_ && _).
      * rewrite H. right. now right.
      * destruct H as (n & -> & Hn). exact Hn.
Qed.

(** Escaping is on when the [FNM_NOESCAPE] bit is not set. *)
Lemma escape_on_iff (flags : Z) :
  truthy_int (escape_of flags) = true <-> Z.land flags FNM_NOESCAPE = 0.
Proof.
  unfold escape_of, truthy_int.
  destruct (Z.land flags FNM_NOESCAPE =? 0) eqn:E; cbn.
  - apply Z.eqb_eq in E. tauto.
  - apply Z.eqb_neq in E. split; [discriminate | contradiction].
Qed.

(** The first scan raises [NameError] at a backslash where escaping is
    on, and nothing else but for an index out of range. *)
Lemma scan_braces_raises fuel pattern flags :
  forall i nest lbrace e,
    scan_braces fuel pattern (escape_of flags) i nest lbrace = Raise e ->
    e = IndexError \/ (e = NameError /\ Z.land flags FNM_NOESCAPE = 0).
Proof.
  induction fuel as [| fuel IH]; intros i nest lbrace e; cbn [scan_braces].
  - destruct (i <? len pattern); discriminate.
  - destruct (i <? len pattern); [| discriminate].
    destruct (getitem pattern i) as [char | e' |] eqn:Hg; cbn [obind].
    + destruct (if Ascii.eqb char "{" then (i, nest + 1)
                else if Ascii.eqb char "}" then (lbrace, nest - 1)
                else (lbrace, nest)) as [lb ne].
      destruct (ne =? 0); [discriminate |].
      destruct (Ascii.eqb char "\" && truthy_int (escape_of flags)) eqn:Eb;
        [| apply IH].
      intros [= <-]. right. split; [reflexivity |].
      apply andb_prop in Eb as [_ Eb]. now apply escape_on_iff.
    + intros [= <-]. left. now apply getitem_raises in Hg.
    + discriminate.
Qed.

Lemma scan_alternative_raises fuel pattern escape rbrace :
  forall pos nest e,
    scan_alternative fuel pattern escape rbrace pos nest = Raise e ->
    e = IndexError.
Proof.
  induction fuel as [| fuel IH]; intros pos nest e;
    cbn [scan_alternative]; (destruct (pos <? rbrace); [| discriminate]);
    (destruct (getitem pattern pos) as [c | e' |] eqn:Hg; cbn [obind];
     [| intros [= <-]; now apply getitem_raises in Hg | discriminate]);
    (destruct (Ascii.eqb c "?" && (nest =? 0)); [discriminate |]).
  - discriminate.
  - destruct (Ascii.eqb c "\" && truthy_int escape); [| apply IH].
    cbv zeta. destruct (pos + 1 =? rbrace); [discriminate | apply IH].
Qed.

Section CompileEnds.

Variable fl : Z.
Variable Q : node -> Prop.
Hypothesis single_compile_Q :
  forall pattern n, single_compile pattern fl None = Ok n -> Q n.

Lemma compile_ends_trans pats l r :
  Forall Q l -> (exists new, l = (pats ++ new)%list) ->
  compile_ends fl Q l r -> compile_ends fl Q pats r.
Proof.
  intros Hl [new ->] Hr. destruct r as [l' | e |]; cbn in *; auto.
  destruct Hr as [Hf [new' ->]]. split; [exact Hf |].
  exists (new ++ new')%list. now rewrite app_assoc.
Qed.

Lemma alternatives_ends recur pattern front back rbrace fuel :
  (forall p pats, Forall Q pats -> compile_ends fl Q pats (recur p pats)) ->
  forall pos pats,
    Forall Q pats ->
    compile_ends fl Q pats
      (alternatives fuel recur pattern (escape_of fl) front back rbrace pos
         pats).
Proof.
  intros Hrec. induction fuel as [| fuel IH]; intros pos pats Hp;
    cbn [alternatives]; (destruct (pos <? rbrace);
      [| split; [exact Hp | exists []; now rewrite app_nil_r]]).
  - exact I.
  - destruct (scan_alternative _ _ _ _ _ _) as [pos' | e |] eqn:Hs;
      cbn [obind].
    + specialize (Hrec (front ++ slice pattern (pos + 1) pos' ++ back)%string
                    pats Hp).
      destruct (recur _ pats) as [l | e |]; cbn [obind];
        [| exact Hrec | exact I].
      destruct Hrec as [Hl Hnew].
      apply (compile_ends_trans pats l); auto.
    + apply scan_alternative_raises in Hs as ->. left. now left.
    + exact I.
Qed.

(** [compile] keeps the chains it was given and adds chains of
    [single_compile]; whatever the flags, it raises nothing but the
    exceptions of [single_compile]. *)
Lemma compile_ends_spec fuel :
  forall pattern pats,
    Forall Q pats -> compile_ends fl Q pats (compile fuel pattern fl pats).
Proof.
  induction fuel as [| fuel IH]; intros pattern pats Hp; [exact I |].
  cbn [compile].
  destruct (if -1 <? Py.find "{" pattern
            then scan_braces (String.length pattern) pattern (escape_of fl)
                   (Py.find "{" pattern) 0 (-1)
            else Ok (-1, -1)) as [[lbrace rbrace] | e |] eqn:Hs;
    cbn [obind].
  - destruct ((-1 <? lbrace) && (-1 <? rbrace)).
    + apply alternatives_ends; [| exact Hp]. intros p ps. apply IH.
    + pose proof (single_compile_ends pattern fl None) as Hn.
      pose proof (single_compile_Q pattern) as HQ.
      destruct (single_compile pattern fl None) as [n | e |]; cbn [obind];
        [| left; exact Hn | contradiction].
      split; [| now exists [n]].
      apply Forall_app. split; [exact Hp |]. constructor; auto.
  - destruct (-1 <? Py.find "{" pattern); [| discriminate].
    apply scan_braces_raises in Hs as [-> | H]; [left; now left | now right].
  - exact I.
Qed.

End CompileEnds.

Lemma compile_chains fl fuel pattern pats :
  Forall (compiled_chain fl) pats ->
  compile_ends fl (compiled_chain fl) pats (compile fuel pattern fl pats).
Proof.
  apply compile_ends_spec. intros p n H.
  pose proof (single_compile_ends p fl None) as Hn. now rewrite H in Hn.
Qed.

(** X10.  [compile] appends to the list it was given: when it returns,
    the list is the given one followed by new chains, and every chain in
    it is a compiled chain when those given were. *)
Theorem compile_adds_compiled_chains :
  forall fuel pattern flags pats l,
    Forall (compiled_chain flags) pats ->
    compile fuel pattern flags pats = Ok l ->
    Forall (compiled_chain flags) l /\ exists new, l = (pats ++ new)%list.
Proof.
  intros fuel pattern flags pats l Hp H.
  pose proof (compile_chains flags fuel pattern pats Hp) as Hc.
  rewrite H in Hc. exact Hc.
Qed.

(** The theorem at work on ["{a?b}*"]. *)
Lemma compile_adds_on_question_mark :
  Forall (compiled_chain 0) []
  /\ compile 7 "{a?b}*" 0 [] =
     Ok [EntryMatch None 0 None "a*" [""]; EntryMatch None 0 None "b*" [""]]
  /\ Forall (compiled_chain 0)
       [EntryMatch None 0 None "a*" [""]; EntryMatch None 0 None "b*" [""]]
  /\ exists new,
       [EntryMatch None 0 None "a*" [""]; EntryMatch None 0 None "b*" [""]]
       = ([] ++ new)%list.
Proof.
  split; [constructor |]. split; [reflexivity |].
  apply (compile_adds_compiled_chains 7 "{a?b}*" 0 []);
    [constructor | reflexivity].
Defined.

Lemma raises_only_lift_Ok {S A B} P (a : A) (k : A -> ST S B) :
  raises_only P (k a) -> raises_only P (bind (lift (Ok a)) k).
Proof. intros H s e. apply H. Qed.

(** [run] on a compiled chain raises nothing but the exceptions of the
    walk. *)
Lemma raises_only_run fnmatch fs fl fuel n :
  compiled_chain fl n -> raises_only walk_error (run fnmatch fs fuel n).
Proof.
  intros Hn. unfold run. apply raises_only_bind.
  - now apply (raises_only_compiled_chain fnmatch fs fl).
  - intros _ m e H. discriminate.
Qed.



(** ** The split of a text is the only one *)

Lemma no_leading_slash_free (s : string) :
  slash_free s = true -> no_leading_slash s = true.
Proof.
  destruct s as [| c s]; [reflexivity |]. intros H.
  change (slash_free (String c s))
    with (negb (Ascii.eqb c "/") && slash_free s) in H.
  now apply andb_prop in H as [Hc _].
Qed.

Lemma no_leading_slash_append (a b : string) :
  a <> "" -> no_leading_slash a = true -> no_leading_slash (a ++ b) = true.
Proof. destruct a; [congruence | auto]. Qed.

(** What follows a run of separators does not start with ["/"]. *)
Lemma pairs_no_leading_slash (rest : list string) (fin : string) :
  pairs_ok true rest -> slash_free fin = true ->
  no_leading_slash (join_parts rest ++ fin) = true.
Proof.
  destruct rest as [| seg [| sep rest']]; cbn [pairs_ok]; try tauto.
  - intros _ Hf. now apply no_leading_slash_free.
  - intros (Hs & Hne & _) _. unfold join_parts. cbn [fold_right].
    rewrite append_assoc.
    apply no_leading_slash_append; [now apply Hne |].
    now apply no_leading_slash_free.
Qed.

(** A text is cut in one way only at its first ["/"]. *)
Lemma first_slash_unique (a a' b b' : string) :
  slash_free a = true -> slash_free a' = true ->
  a ++ String "/" b = a' ++ String "/" b' -> a = a' /\ b = b'.
Proof.
  revert a'. induction a as [| c a IH]; intros [| c' a'] Ha Ha' H;
    cbn [append] in H.
  - injection H as ->. auto.
  - injection H as <- _. discriminate.
  - injection H as -> _. discriminate.
  - injection H as -> H.
    change (slash_free (String c' a))
      with (negb (Ascii.eqb c' "/") && slash_free a) in Ha.
    change (slash_free (String c' a'))
      with (negb (Ascii.eqb c' "/") && slash_free a') in Ha'.
    apply andb_prop in Ha as [_ Ha]. apply andb_prop in Ha' as [_ Ha'].
    destruct (IH a' Ha Ha' H) as [-> ->]. auto.
Qed.

(** A run of ["/"] before a text that starts otherwise is read back. *)
Lemma slash_run_unique (r r' x x' : string) :
  all_slashes r = true -> all_slashes r' = true ->
  no_leading_slash x = true -> no_leading_slash x' = true ->
  r ++ x = r' ++ x' -> r = r' /\ x = x'.
Proof.
  revert r'. induction r as [| c r IH]; intros [| c' r'] Hr Hr' Hx Hx' H;
    cbn [append] in H.
  - auto.
  - exfalso. subst x. unfold all_slashes in Hr'. cbn in Hr', Hx.
    apply andb_prop in Hr' as [Hc _]. now rewrite Hc in Hx.
  - exfalso. subst x'. unfold all_slashes in Hr. cbn in Hr, Hx'.
    apply andb_prop in Hr as [Hc _]. now rewrite Hc in Hx'.
  - injection H as -> H. unfold all_slashes in Hr, Hr'. cbn in Hr, Hr'.
    apply andb_prop in Hr as [_ Hr]. apply andb_prop in Hr' as [_ Hr'].
    destruct (IH r' Hr Hr' Hx Hx' H) as [-> ->]. auto.
Qed.

(** Two alternating splits of the same text are the same split. *)
Lemma split_unique (mid : list string) :
  forall strict mid' fin fin',
    pairs_ok strict mid -> pairs_ok strict mid' ->
    slash_free fin = true -> slash_free fin' = true ->
    join_parts mid ++ fin = join_parts mid' ++ fin' ->
    mid = mid' /\ fin = fin'.
Proof.
  induction mid as [| x | seg sep rest IH] using list_pair_ind;
    intros strict mid' fin fin' Hm Hm' Hf Hf' E.
  - destruct mid' as [| seg' mid'']; [auto |]. exfalso.
    change (join_parts [] ++ fin) with fin in E. rewrite E in Hf.
    rewrite (pairs_have_slash strict (seg' :: mid'') fin') in Hf;
      [discriminate | exact Hm' | discriminate].
  - destruct Hm.
  - destruct mid' as [| seg' [| sep' rest']].
    + exfalso. change (join_parts [] ++ fin') with fin' in E.
      rewrite <- E in Hf'.
      rewrite (pairs_have_slash strict (seg :: sep :: rest) fin) in Hf';
        [discriminate | exact Hm | discriminate].
    + destruct Hm'.
    + cbn [pairs_ok] in Hm, Hm'.
      destruct Hm as (Hs & _ & Hp & Hpn & Hr).
      destruct Hm' as (Hs' & _ & Hp' & Hpn' & Hr').
      destruct (all_slashes_head sep Hp Hpn) as [r ->].
      destruct (all_slashes_head sep' Hp' Hpn') as [r' ->].
      unfold join_parts in E. cbn [fold_right] in E.
      fold (join_parts rest) in E. fold (join_parts rest') in E.
      rewrite !append_assoc in E. cbn [append] in E.
      destruct (first_slash_unique _ _ _ _ Hs Hs' E) as [-> E'].
      rewrite <- !append_assoc in E'.
      assert (Hr0 : all_slashes r = true).
      { unfold all_slashes in *. cbn in Hp. exact Hp. }
      assert (Hr0' : all_slashes r' = true).
      { unfold all_slashes in *. cbn in Hp'. exact Hp'. }
      rewrite !append_assoc in E'.
      destruct (slash_run_unique r r' _ _ Hr0 Hr0'
                  (pairs_no_leading_slash rest fin Hr Hf)
                  (pairs_no_leading_slash rest' fin' Hr' Hf') E')
        as [-> E''].
      destruct (IH true rest' fin fin' Hr Hr' Hf Hf' E'') as [-> ->].
      auto.
Qed.

(** Alternating parts are pairs, and a last segment when their number is
    odd. *)
Lemma pairs_of_alternates (parts : list string) :
  forall strict, alternates strict parts ->
    exists mid fin,
      parts = (if truthy_str fin then (mid ++ [fin])%list else mid)
      /\ pairs_ok strict mid /\ slash_free fin = true.
Proof.
  induction parts as [| x | seg sep rest IH] using list_pair_ind;
    intros strict H.
  - exists [], "". cbn. auto.
  - destruct H as [Hx Hn]. exists [], x.
    destruct x; [congruence |]. cbn. auto.
  - cbn [alternates] in H. destruct H as (H1 & H2 & H3 & H4 & H5).
    destruct (IH true H5) as (mid & fin & E & Hm & Hf).
    exists (seg :: sep :: mid), fin. repeat split; auto.
    rewrite E. now destruct (truthy_str fin).
Qed.

(** [path_split] undoes the joining of alternating parts. *)
Lemma path_split_join (parts : list string) :
  alternates false parts -> parts <> [] ->
  path_split (join_parts parts) = Ok parts.
Proof.
  intros Ha Hne.
  destruct (pairs_of_alternates parts false Ha) as (mid & fin & E & Hm & Hf).
  assert (Ej : join_parts parts = join_parts mid ++ fin).
  { rewrite E. destruct fin as [| c f]; cbn [truthy_str].
    - now rewrite append_nil_r.
    - rewrite join_parts_app. unfold join_parts at 2. cbn [fold_right].
      now rewrite append_nil_r. }
  assert (Hs : join_parts parts <> "").
  { rewrite Ej. intros H0. apply append_eq_nil in H0 as Hmid.
    rewrite Hmid in H0. cbn in H0. subst fin. cbn in E. subst parts.
    destruct mid as [| a l]; [congruence |].
    now apply (join_parts_nonempty false (a :: l) Hm). }
  destruct (path_split_shape _ Hs) as (mid' & fin' & Hp & E' & Hf' & Hm' & _).
  rewrite Ej in E'.
  destruct (split_unique mid false mid' fin fin' Hm Hm' Hf Hf' E')
    as [<- <-].
  now rewrite Hp, E.
Qed.

(** X12.  [path_split] undoes the joining of parts: for segments without
    ["/"] and runs of ["/"] in turn, a segment first, none empty but
    perhaps the first segment, [path_split] of the joined text returns
    these same parts. *)
Theorem path_split_undoes_join :
  forall parts,
    alternates false parts -> parts <> [] ->
    path_split (join_parts parts) = Ok parts.
Proof. exact path_split_join. Qed.

(** The theorem at work on the parts of ["/a//b"]. *)
Lemma path_split_undoes_join_a_b :
  alternates false [""; "/"; "a"; "//"; "b"]
  /\ [""; "/"; "a"; "//"; "b"] <> []
  /\ path_split (join_parts [""; "/"; "a"; "//"; "b"])
     = Ok [""; "/"; "a"; "//"; "b"].
Proof.
  assert (H : alternates false [""; "/"; "a"; "//"; "b"]).
  { cbn. repeat split; discriminate. }
  split; [exact H |]. split; [discriminate |].
  apply (path_split_undoes_join [""; "/"; "a"; "//"; "b"]);
    [exact H | discriminate].
Defined.

(** ** Two-node chains, end to end *)

Lemma flat_map_filter {A B} (p : A -> bool) (g : A -> B) (l : list A) :
  flat_map (fun x => if p x then [g x] else []) l = map g (filter p l).
Proof.
  induction l as [| x l IH]; [reflexivity |]. cbn [flat_map filter].
  destruct (p x); cbn; now rewrite IH.
Qed.

Lemma getitem_first (c : ascii) (s : string) : getitem (String c s) 0 = Ok c.
Proof. reflexivity. Qed.

Lemma first_char_free (s : string) :
  s <> "" -> slash_free s = true ->
  exists c r, s = String c r /\ Ascii.eqb c "/" = false.
Proof.
  destruct s as [| c r]; [congruence |]. intros _ H.
  change (slash_free (String c r))
    with (negb (Ascii.eqb c "/") && slash_free r) in H.
  apply andb_prop in H as [Hc _]. exists c, r.
  destruct (Ascii.eqb c "/"); [discriminate | auto].
Qed.

Lemma last_char_free (s : string) :
  s <> "" -> slash_free s = true ->
  exists y c, s = y ++ String c "" /\ Ascii.eqb c "/" = false.
Proof.
  intros Hn Hf. destruct (string_snoc s Hn) as (y & c & E).
  exists y, c. split; [exact E |].
  rewrite E, slash_free_append in Hf. apply andb_prop in Hf as [_ Hc].
  change (slash_free (String c "")) with (negb (Ascii.eqb c "/") && true)
    in Hc.
  destruct (Ascii.eqb c "/"); [discriminate | reflexivity].
Qed.

(** The chain of a wildcard segment followed by ["/"]. *)
Lemma single_compile_directories (seg : string) (flags : Z) :
  seg <> "" -> slash_free seg = true ->
  Regexp.search_literal seg = false -> seg <> "**" ->
  single_compile (seg ++ "/") flags None =
  Ok (DirectoryMatch (Some (DirectoriesOnly None flags (Some "/"))) flags
        None seg).
Proof.
  intros Hne Hf Hl Hss. unfold single_compile.
  change (seg ++ "/") with (join_parts [seg; "/"]) at 1.
  rewrite path_split_join; [| cbn; repeat split; auto; discriminate
                            | discriminate].
  cbn [obind]. rewrite getitem_snoc. cbn [obind].
  change (Ascii.eqb "/" "/") with true. cbv iota.
  cbn [DirectoriesOnly_init obind length compile_dirs].
  change (Py.pop [seg; "/"]) with (Ok ("/", [seg])). cbn [obind].
  change (Py.pop [seg]) with (Ok (seg, @nil string)). cbn [obind].
  destruct (String.eqb_spec seg "**") as [E | _]; [contradiction |].
  rewrite Hl.
  assert (Hlen : (0 <? len seg) = true).
  { destruct seg; [congruence | reflexivity]. }
  rewrite Hlen. cbn [DirectoryMatch_init obind set_separator].
  destruct (first_char_free seg Hne Hf) as (c & r & -> & Hc).
  cbn [append]. rewrite getitem_first. cbn [obind]. now rewrite Hc.
Qed.

(** The chain of ["/"] followed by one segment that is not a plain name. *)
Lemma single_compile_root (seg : string) (flags : Z) :
  seg <> "" -> slash_free seg = true ->
  Regexp.search_constant seg = false ->
  single_compile (String "/" seg) flags None =
  Ok (RootDirectory (Some (EntryMatch None flags (Some "/") seg [""])) flags
        None).
Proof.
  intros Hne Hf Hc. unfold single_compile.
  assert (E : String "/" seg = join_parts [""; "/"; seg]).
  { unfold join_parts. cbn. now rewrite append_nil_r. }
  rewrite E at 1.
  rewrite path_split_join;
    [| cbn; repeat split; auto; discriminate | discriminate].
  cbn [obind].
  destruct (last_char_free seg Hne Hf) as (y & c & Ey & Hcl).
  assert (Hg : getitem (String "/" seg) (-1) = Ok c).
  { rewrite Ey. apply (getitem_snoc (String "/" y)). }
  rewrite Hg. cbn [obind]. rewrite Hcl.
  change (Py.pop [""; "/"; seg]) with (Ok (seg, [""; "/"])).
  cbn [obind]. rewrite Hc.
  cbn [EntryMatch_init obind length compile_dirs].
  change (Py.pop [""; "/"]) with (Ok ("/", [""])). cbn [obind].
  change (Py.pop [""]) with (Ok ("", @nil string)). cbn [obind].
  reflexivity.
Qed.

Lemma entry_matches_root fnmatch glob (entries : list string) :
  entry_matches fnmatch (Some "/") glob [""] (Some "/") entries =
  map (String "/") (filter (fun f => fnmatch f glob) entries).
Proof.
  induction entries as [| f l IH]; [reflexivity |].
  rewrite entry_matches_cons, IH. cbn [flat_map filter].
  rewrite app_nil_r, append_nil_r.
  destruct (fnmatch f glob); reflexivity.
Qed.





(** ** The list [glob] fills and returns *)

Lemma append_only_run fnmatch fs fuel n :
  append_only (fun m : env => m) (run fnmatch fs fuel n).
Proof.
  unfold run. apply append_only_bind; [apply append_only_call |].
  intros _ m. cbn. apply extends_refl.
Qed.

Lemma append_only_glob fnmatch fs fuel pattern flags :
  append_only (fun m : env => m) (glob fnmatch fs fuel pattern flags).
Proof.
  unfold glob. destruct (Py.contains "{" pattern).
  - apply append_only_bind; [apply append_only_lift |]. intros patterns.
    apply append_only_bind; [| intros _; apply append_only_ret].
    apply append_only_for_each. intros n.
    apply append_only_bind; [apply append_only_run |].
    intros _. apply append_only_ret.
  - apply append_only_bind; [apply append_only_lift |]. intros n.
    apply append_only_bind; [apply append_only_run |].
    intros r. apply append_only_ret.
Qed.

Lemma glob_returns_state fnmatch fs fuel pattern flags (m : env) l :
  snd (glob fnmatch fs fuel pattern flags m) = Ok (Some l) ->
  fst (glob fnmatch fs fuel pattern flags m) = l.
Proof.
  destruct (Py.contains "{" pattern) eqn:Hb.
  - intros H. exfalso.
    now apply (glob_brace_no_list fnmatch fs fuel pattern flags m l Hb).
  - unfold glob. rewrite Hb. unfold run, bind, lift, ret.
    destruct (single_compile pattern flags None) as [n | e |];
      [| discriminate | discriminate].
    destruct (call fnmatch fs fuel n None m) as [m' [[] | e |]];
      cbn [fst snd]; [| discriminate | discriminate].
    now intros [= ->].
Qed.

(** X15.  Whatever the pattern and however the run ends, [glob] leaves in
    [matches] the list it was given, unchanged and in order, with the new
    matches after it. *)
Theorem glob_appends_only :
  forall fnmatch fs fuel pattern flags (m : env),
    exists new,
      fst (glob fnmatch fs fuel pattern flags m) = (m ++ new)%list.
Proof.
  intros. apply (append_only_glob fnmatch fs fuel pattern flags m).
Qed.



(** ** The brace expander ends *)

Lemma substring_length_le (s : string) :
  forall n m,
    (String.length (substring n m s) <= m)%nat
    /\ (String.length (substring n m s) <= String.length s - n)%nat.
Proof.
  induction s as [| c s IH]; intros [| n] [| m]; cbn; try lia.
  - destruct (IH 0%nat m). lia.
  - destruct (IH n 0%nat). lia.
  - destruct (IH n (S m)). lia.
Qed.

(** A slice between two indices in order is no longer than their
    distance, nor than what the text holds from the first one. *)
Lemma slice_length_le (s : string) (a b : Z) :
  0 <= a <= b ->
  Z.of_nat (String.length (slice s a b)) <= b - a
  /\ (a <= len s -> Z.of_nat (String.length (slice s a b)) <= len s - a).
Proof.
  intros H. unfold slice.
  destruct (a <? 0) eqn:Ea; [apply Z.ltb_lt in Ea; lia |].
  destruct (b <? 0) eqn:Eb; [apply Z.ltb_lt in Eb; lia |].
  match goal with
  | |- context [substring ?n ?m s] =>
      destruct (substring_length_le s n m) as [H1 H2]
  end.
  unfold len in *. lia.
Qed.

Lemma getitem_ends (s : string) (i : Z) : getitem s i <> Timeout.
Proof.
  unfold getitem.
  destruct ((if i <? 0 then i + len s else i) <? 0);
    [| destruct (String.get _ s)]; discriminate.
Qed.

(** The first scan ends; when it finds a closing brace, the opening one
    it reports is not after it. *)
Lemma scan_braces_result (pattern : string) (escape : Z) (fuel : nat) :
  forall i nest lbrace,
    lbrace <= i -> 0 <= i -> len pattern - i <= Z.of_nat fuel ->
    match scan_braces fuel pattern escape i nest lbrace with
    | Ok (lb, rb) => rb = -1 \/ (lb <= rb /\ rb < len pattern)
    | Raise _ => True
    | Timeout => False
    end.
Proof.
  induction fuel as [| fuel IH]; intros i nest lbrace Hl Hi Hf;
    cbn [scan_braces]; destruct (i <? len pattern) eqn:E;
    try (now left); apply Z.ltb_lt in E; [lia |].
  pose proof (getitem_ends pattern i) as Hg.
  destruct (getitem pattern i) as [char | e |]; cbn [obind];
    [| exact I | congruence].
  assert (Hstep : forall lb ne, lb <= i ->
            match (if ne =? 0 then Ok (lb, i)
                   else if Ascii.eqb char "\" && truthy_int escape
                   then Raise NameError
                   else scan_braces fuel pattern escape (i + 1) ne lb) with
            | Ok (lb, rb) => rb = -1 \/ (lb <= rb /\ rb < len pattern)
            | Raise _ => True
            | Timeout => False
            end).
  { intros lb ne Hlb. destruct (ne =? 0); [right; lia |].
    destruct (Ascii.eqb char "\" && truthy_int escape); [exact I |].
    apply IH; lia. }
  destruct (Ascii.eqb char "{"); [apply Hstep; lia |].
  destruct (Ascii.eqb char "}"); apply Hstep; lia.
Qed.

(** The scan of one alternative ends, between where it starts and the
    closing brace. *)
Lemma scan_alternative_result (pattern : string) (escape rbrace : Z)
    (fuel : nat) :
  forall pos nest,
    pos <= rbrace -> rbrace - pos <= Z.of_nat fuel ->
    match scan_alternative fuel pattern escape rbrace pos nest with
    | Ok p => pos <= p <= rbrace
    | Raise _ => True
    | Timeout => False
    end.
Proof.
  induction fuel as [| fuel IH]; intros pos nest Hp Hf;
    cbn [scan_alternative]; destruct (pos <? rbrace) eqn:E;
    try lia; apply Z.ltb_lt in E.
  pose proof (getitem_ends pattern pos) as Hg.
  destruct (getitem pattern pos) as [c | e |]; cbn [obind];
    [| exact I | congruence].
  destruct (Ascii.eqb c "?" && (nest =? 0)); [lia |].
  cbv zeta.
  assert (Hnext : forall q n, pos < q <= rbrace ->
            match scan_alternative fuel pattern escape rbrace q n with
            | Ok p => pos <= p <= rbrace
            | Raise _ => True
            | Timeout => False
            end).
  { intros q n Hq.
    specialize (IH q n ltac:(lia) ltac:(lia)).
    destruct (scan_alternative fuel pattern escape rbrace q n); auto.
    lia. }
  destruct (Ascii.eqb c "\" && truthy_int escape).
  - destruct (pos + 1 =? rbrace) eqn:Er; [lia |].
    apply Z.eqb_neq in Er. apply Hnext. lia.
  - apply Hnext. lia.
Qed.

Section AlternativesEnd.

Variable recur : string -> list node -> outcome (list node).
Variable pattern front back : string.
Variable escape lbrace rbrace : Z.

Hypothesis recur_ends :
  forall p pats,
    (String.length p < String.length pattern)%nat ->
    recur p pats <> Timeout.
Hypothesis lbrace_pos : 0 <= lbrace.
Hypothesis rbrace_in : rbrace < len pattern.
Hypothesis front_short : Z.of_nat (String.length front) <= lbrace.
Hypothesis back_short :
  Z.of_nat (String.length back) <= len pattern - (rbrace + 1).

Lemma alternatives_end (fuel : nat) :
  forall pos pats,
    lbrace <= pos -> rbrace - pos <= Z.of_nat fuel ->
    alternatives fuel recur pattern escape front back rbrace pos pats
    <> Timeout.
Proof.
  induction fuel as [| fuel IH]; intros pos pats Hp Hf;
    cbn [alternatives]; destruct (pos <? rbrace) eqn:E;
    try discriminate; apply Z.ltb_lt in E; [lia |].
  pose proof (scan_alternative_result pattern escape rbrace
                (String.length pattern) (pos + 1) 0 ltac:(lia)
                ltac:(unfold len in *; lia)) as Hs.
  destruct (scan_alternative _ pattern escape rbrace (pos + 1) 0)
    as [p | e |]; cbn [obind]; [| discriminate | contradiction].
  assert (Hlen : (String.length (front ++ slice pattern (pos + 1) p ++ back)
                  < String.length pattern)%nat).
  { rewrite !length_append.
    destruct (slice_length_le pattern (pos + 1) p ltac:(lia)) as [H1 _].
    unfold len in *. lia. }
  pose proof (recur_ends _ pats Hlen) as Hr.
  destruct (recur _ pats) as [l | e |]; cbn [obind];
    [| discriminate | congruence].
  apply IH; lia.
Qed.

End AlternativesEnd.

(** [compile] ends when its budget exceeds the length of the pattern:
    every recursive call is on a shorter pattern. *)
Lemma compile_ends_in_budget fl (fuel : nat) :
  forall pattern pats,
    (String.length pattern < fuel)%nat ->
    compile fuel pattern fl pats <> Timeout.
Proof.
  induction fuel as [| fuel IH]; intros pattern pats Hf; [lia |].
  cbn [compile]. cbv zeta.
  assert (Hsingle :
            obind (single_compile pattern fl None)
              (fun node => Ok (pats ++ [node])%list) <> Timeout).
  { pose proof (single_compile_ends pattern fl None) as Hn.
    destruct (single_compile pattern fl None); cbn [obind];
      [discriminate | discriminate | contradiction]. }
  destruct (-1 <? Py.find "{" pattern) eqn:Ei; [| exact Hsingle].
  apply Z.ltb_lt in Ei.
  pose proof (scan_braces_result pattern (escape_of fl)
                (String.length pattern) (Py.find "{" pattern) 0 (-1)
                ltac:(lia) ltac:(lia) ltac:(unfold len; lia)) as Hs.
  destruct (scan_braces _ pattern (escape_of fl) _ 0 (-1))
    as [[lb rb] | e |];
    cbn [obind]; [| discriminate | contradiction].
  destruct (-1 <? lb) eqn:El; [| exact Hsingle].
  destruct (-1 <? rb) eqn:Er; [| exact Hsingle].
  cbn [andb]. apply Z.ltb_lt in El, Er.
  destruct Hs as [Hs | [Hlr Hrl]]; [lia |].
  apply (alternatives_end _ pattern _ _ _ lb rb).
  - intros p ps Hp. apply IH. lia.
  - lia.
  - exact Hrl.
  - destruct (slice_length_le pattern 0 lb ltac:(lia)). lia.
  - destruct (slice_length_le pattern (rb + 1) (len pattern)
                ltac:(lia)) as [_ H]. apply H. lia.
  - lia.
  - unfold len in *. lia.
Qed.

(** X17.  With the budget [glob] gives it, [compile] always ends: it
    returns a list of chains, or raises [IndexError], [TypeError],
    [AssertionError] or, where escaping is on, [NameError].  Every
    recursive call is on a shorter pattern, and every scan moves on. *)
Theorem compile_ends_or_raises :
  forall pattern flags pats,
    (exists l, compile (S (String.length pattern)) pattern flags pats = Ok l)
    \/ (exists e,
          compile (S (String.length pattern)) pattern flags pats = Raise e
          /\ (e = IndexError \/ e = TypeError \/ e = AssertionError
              \/ (e = NameError /\ Z.land flags FNM_NOESCAPE = 0))).
Proof.
  intros pattern flags pats.
  pose proof (compile_ends_in_budget flags (S (String.length pattern))
                pattern pats (Nat.lt_succ_diag_r _)) as Ht.
  pose proof (compile_ends_spec flags (fun _ => True) (fun _ _ _ => I)
                (S (String.length pattern)) pattern pats) as Hc.
  destruct (compile _ pattern flags pats) as [l | e |].
  - left. now exists l.
  - right. exists e. split; [reflexivity |].
    assert (He : expand_error flags e).
    { apply Hc. apply Forall_forall. auto. }
    destruct He as [[-> | [-> | ->]] | H]; auto.
  - congruence.
Qed.

(** ** A recursive descent under the starting one *)

(** The chain of ["**/**/"] followed by one segment that is not a plain
    name. *)
Lemma single_compile_double_recursive (seg : string) (flags : Z) :
  seg <> "" -> slash_free seg = true ->
  Regexp.search_constant seg = false ->
  single_compile ("**/**/" ++ seg) flags None =
  Ok (StartRecursiveDirectories
        (Some (RecursiveDirectories
                 (Some (EntryMatch None flags (Some "/") seg [""]))
                 flags (Some "/")))
        flags None).
Proof.
  intros Hne Hf Hc. unfold single_compile.
  assert (E : "**/**/" ++ seg = join_parts ["**"; "/"; "**"; "/"; seg]).
  { unfold join_parts. cbn. now rewrite append_nil_r. }
  rewrite E at 1.
  rewrite path_split_join;
    [| cbn; repeat split; auto; discriminate | discriminate].
  cbn [obind].
  destruct (last_char_free seg Hne Hf) as (y & c & Ey & Hcl).
  assert (Hg : getitem ("**/**/" ++ seg) (-1) = Ok c).
  { rewrite Ey. rewrite <- append_assoc. apply getitem_snoc. }
  rewrite Hg. cbn [obind]. rewrite Hcl.
  change (Py.pop ["**"; "/"; "**"; "/"; seg])
    with (Ok (seg, ["**"; "/"; "**"; "/"])).
  cbn [obind]. rewrite Hc.
  cbn [EntryMatch_init obind length compile_dirs].
  change (Py.pop ["**"; "/"; "**"; "/"]) with (Ok ("/", ["**"; "/"; "**"])).
  cbn [obind].
  change (Py.pop ["**"; "/"; "**"]) with (Ok ("**", ["**"; "/"])).
  cbn [obind]. reflexivity.
Qed.

(** A computation that never returns a value. *)
Lemma bind_never_returns {S A B} (c : ST S A) (k : A -> ST S B) :
  (forall a s, snd (k a s) = Timeout \/ exists e, snd (k a s) = Raise e) ->
  forall s, snd (bind c k s) = Timeout
            \/ exists e, snd (bind c k s) = Raise e.
Proof.
  intros Hk s. unfold bind. destruct (c s) as [s' [a | e |]]; cbn [snd].
  - apply Hk.
  - right. now exists e.
  - now left.
Qed.

(** A [RecursiveDirectories] node under a [StartRecursiveDirectories]
    node is called without a path: the call never returns. *)
Lemma start_over_recursive_never_returns fnmatch fs fuel nxt fl fl' sep sep'
    (m : env) :
  let r := snd (call fnmatch fs fuel
                  (StartRecursiveDirectories
                     (Some (RecursiveDirectories nxt fl' sep')) fl sep)
                  None m) in
  r = Timeout \/ exists e, r = Raise e.
Proof.
  destruct fuel as [| fuel]; [now left |].
  cbn [call]. unfold end_walk. cbn [snd].
  unfold StartRecursiveDirectories_walk. cbn [truthy].
  apply bind_never_returns. intros ents w.
  apply bind_never_returns. intros _ w1.
  unfold call_with_stack. clear w.
  assert (H : snd (in_walk
                     (call_switched (call fnmatch fs fuel)
                        (Some (RecursiveDirectories nxt fl' sep')) sep None)
                     w1) = Timeout
              \/ exists e,
                   snd (in_walk
                          (call_switched (call fnmatch fs fuel)
                             (Some (RecursiveDirectories nxt fl' sep')) sep
                             None) w1) = Raise e).
  { unfold in_walk. cbn [call_switched set_separator].
    destruct fuel as [| fuel]; [now left |]. cbn. right. now eexists. }
  unfold bind.
  destruct (in_walk _ w1) as [w2 [[] | e |]]; cbn [snd] in *.
  - destruct H as [H | [e H]]; discriminate.
  - right. now exists e.
  - now left.
Qed.

(** X18.  A pattern made of ["**/**/"] and one more segment never gives a
    list: the inner recursive descent is called with no path, which is a
    [TypeError] unless the run has failed before. *)
Theorem glob_double_recursive_never_returns :
  forall fnmatch fs fuel seg flags (m : env),
    seg <> "" -> slash_free seg = true ->
    Py.contains "{" ("**/**/" ++ seg) = false ->
    Regexp.search_constant seg = false ->
    let r := snd (glob fnmatch fs fuel ("**/**/" ++ seg) flags m) in
    r = Timeout \/ exists e, r = Raise e.
Proof.
  intros fnmatch fs fuel seg flags m Hne Hf Hb Hc.
  unfold glob. rewrite Hb.
  rewrite (single_compile_double_recursive seg flags Hne Hf Hc).
  erewrite bind_eq by reflexivity.
  pose proof (start_over_recursive_never_returns fnmatch fs fuel
                (Some (EntryMatch None flags (Some "/") seg [""]))
                flags flags None (Some "/") m) as H.
  cbv zeta in H. unfold run, bind.
  destruct (call fnmatch fs fuel _ None m) as [m' [[] | e |]];
    cbn [snd] in *.
  - destruct H as [H | [e H]]; discriminate.
  - right. now exists e.
  - now left.
Qed.

(** The theorem at work on [fs_tree], for ["**/**/*"]: [a/b] is matched
    before the [TypeError]. *)
Lemma glob_double_recursive_on_fs_tree :
  "*" <> "" /\ slash_free "*" = true
  /\ Py.contains "{" ("**/**/" ++ "*") = false
  /\ Regexp.search_constant "*" = false
  /\ glob fnmatch_plain fs_tree 9 ("**/**/" ++ "*") 0 [] =
     (["a/b"], Raise TypeError)
  /\ (snd (glob fnmatch_plain fs_tree 9 ("**/**/" ++ "*") 0 []) = Timeout
      \/ exists e,
           snd (glob fnmatch_plain fs_tree 9 ("**/**/" ++ "*") 0 [])
           = Raise e).
Proof.
  split; [discriminate |]. split; [reflexivity |]. split; [reflexivity |].
  split; [reflexivity |]. split; [reflexivity |].
  apply (glob_double_recursive_never_returns fnmatch_plain fs_tree 9 "*" 0
           []); try reflexivity; discriminate.
Defined.

(** ** One group of braces *)

Lemma getitem_at (a : string) (c : ascii) (b : string) :
  getitem (a ++ String c b) (Z.of_nat (String.length a)) = Ok c.
Proof.
  unfold getitem.
  destruct (Z.of_nat (String.length a) <? 0) eqn:E;
    [apply Z.ltb_lt in E; lia |].
  rewrite E, Nat2Z.id. clear E.
  induction a as [| x a IH]; cbn; [reflexivity | exact IH].
Qed.

Lemma prefix_brace (b : ascii) (s : string) :
  prefix "{" (String b s) = Ascii.eqb "{" b.
Proof.
  destruct (Ascii.eqb_spec "{" b) as [<- | Hb].
  - apply prefix_correct. destruct s; reflexivity.
  - destruct (prefix "{" (String b s)) eqn:E; [| reflexivity].
    apply prefix_correct in E.
    destruct s; cbn in E; injection E as E; congruence.
Qed.

(** [find] gives the place of the first ["{"]. *)
Lemma find_brace (front rest : string) :
  brace_free front = true ->
  Py.find "{" (front ++ String "{" rest) = Z.of_nat (String.length front).
Proof.
  intros Hf. unfold Py.find.
  assert (H : String.index 0 "{" (front ++ String "{" rest)
              = Some (String.length front)).
  { induction front as [| c front IH].
    - cbn [append String.index String.length]. now rewrite prefix_brace.
    - unfold brace_free in Hf. cbn [Regexp.all_chars] in Hf.
      apply andb_prop in Hf as [Hc Hf].
      cbn [append String.index String.length]. rewrite prefix_brace.
      rewrite Ascii.eqb_sym.
      destruct (Ascii.eqb c "{"); [discriminate |].
      now rewrite (IH Hf). }
  now rewrite H.
Qed.

Lemma snoc_char (a : string) (c : ascii) (b : string) :
  (a ++ String c "") ++ b = a ++ String c b.
Proof. now rewrite append_assoc. Qed.

Lemma len_append (a b : string) : len (a ++ b) = len a + len b.
Proof. unfold len. rewrite length_append. lia. Qed.

Lemma is_true_ltb (a b : Z) : a < b -> (a <? b) = true.
Proof. intros H. now apply Z.ltb_lt. Qed.

Lemma scan_plain_char_inv (c : ascii) :
  scan_plain_char c = true ->
  Ascii.eqb c "{" = false /\ Ascii.eqb c "}" = false
  /\ Ascii.eqb c "\" = false.
Proof.
  unfold scan_plain_char. intros H.
  apply negb_true_iff, orb_false_iff in H as [H H3].
  apply orb_false_iff in H as [H1 H2]. auto.
Qed.

(** Inside the braces the first scan passes over a text without brace
    and backslash, one character for one unit of budget. *)
Lemma scan_braces_skip (escape : Z) (body : string) :
  forall pre rest fuel lb,
    scan_plain body = true ->
    scan_braces (String.length body + fuel) (pre ++ body ++ rest) escape
      (Z.of_nat (String.length pre)) 1 lb =
    scan_braces fuel (pre ++ body ++ rest) escape
      (Z.of_nat (String.length pre + String.length body)) 1 lb.
Proof.
  induction body as [| c body IH]; intros pre rest fuel lb Hb.
  - cbn [String.length Nat.add]. now rewrite Nat.add_0_r.
  - unfold scan_plain in Hb. cbn [Regexp.all_chars] in Hb.
    apply andb_prop in Hb as [Hc Hb].
    apply scan_plain_char_inv in Hc as (Hc1 & Hc2 & Hc3).
    cbn [String.length Nat.add scan_braces append].
    rewrite is_true_ltb
      by (rewrite len_append; unfold len; cbn [String.length]; lia).
    rewrite getitem_at. cbn [obind]. rewrite Hc1, Hc2, Hc3.
    cbn [Z.eqb andb].
    rewrite <- (snoc_char pre c).
    replace (Z.of_nat (String.length pre) + 1)
      with (Z.of_nat (String.length (pre ++ String c "")))
      by (rewrite length_append; cbn [String.length]; lia).
    rewrite (IH _ rest fuel lb Hb).
    rewrite length_append. cbn [String.length]. do 2 f_equal. lia.
Qed.

(** The first scan from the opening brace, over a body without brace and
    backslash: what it does next it does at the end of the body. *)
Lemma scan_braces_open (escape : Z) (front body rest : string) (fuel : nat) :
  scan_plain body = true ->
  scan_braces (S (String.length body + fuel))
    (front ++ String "{" (body ++ rest)) escape
    (Z.of_nat (String.length front)) 0 (-1) =
  scan_braces fuel (front ++ String "{" (body ++ rest)) escape
    (Z.of_nat (String.length front + 1 + String.length body)) 1
    (Z.of_nat (String.length front)).
Proof.
  intros Hb. cbn [scan_braces].
  rewrite is_true_ltb
    by (rewrite len_append; unfold len; cbn [String.length]; lia).
  rewrite getitem_at. cbn [obind]. cbn [Ascii.eqb Bool.eqb].
  cbn [Z.add Z.eqb Pos.add]. cbv iota.
  change (0 + 1 =? 0) with false. cbv iota.
  change (Ascii.eqb "{" "\") with false. cbn [andb].
  rewrite <- (snoc_char front "{").
  replace (Z.of_nat (String.length front) + 1)
    with (Z.of_nat (String.length (front ++ String "{" "")))
    by (rewrite length_append; cbn [String.length]; lia).
  rewrite (scan_braces_skip escape body _ rest fuel _ Hb).
  rewrite length_append. cbn [String.length]. reflexivity.
Qed.

(** The first scan on one group of braces: it reports the place of each
    brace. *)
Lemma scan_braces_group (escape : Z) (front body back : string) :
  scan_plain body = true ->
  scan_braces
    (String.length (front ++ String "{" (body ++ String "}" back)))
    (front ++ String "{" (body ++ String "}" back)) escape
    (Z.of_nat (String.length front)) 0 (-1) =
  Ok (Z.of_nat (String.length front),
      Z.of_nat (String.length front + 1 + String.length body)).
Proof.
  intros Hb.
  replace (String.length (front ++ String "{" (body ++ String "}" back)))
    with (S (String.length body
             + S (String.length front + String.length back)))
    by (rewrite length_append; cbn [String.length];
        rewrite length_append; cbn [String.length]; lia).
  rewrite (scan_braces_open escape front body _ _ Hb).
  cbn [scan_braces].
  rewrite is_true_ltb
    by (rewrite len_append; unfold len; cbn [String.length];
        rewrite length_append; cbn [String.length]; lia).
  assert (E : front ++ String "{" (body ++ String "}" back)
              = (front ++ String "{" body) ++ String "}" back).
  { now rewrite append_assoc. }
  rewrite E.
  replace (Z.of_nat (String.length front + 1 + String.length body))
    with (Z.of_nat (String.length (front ++ String "{" body)))
    by (rewrite length_append; cbn [String.length]; lia).
  rewrite getitem_at. reflexivity.
Qed.

(** The first scan on a backslash inside the braces, where escaping is
    on: it reads the name [true]. *)
Lemma scan_braces_backslash (escape : Z) (front body rest : string) :
  scan_plain body = true -> truthy_int escape = true ->
  scan_braces
    (String.length (front ++ String "{" (body ++ String "\" rest)))
    (front ++ String "{" (body ++ String "\" rest)) escape
    (Z.of_nat (String.length front)) 0 (-1) =
  Raise NameError.
Proof.
  intros Hb He.
  replace (String.length (front ++ String "{" (body ++ String "\" rest)))
    with (S (String.length body
             + S (String.length front + String.length rest)))
    by (rewrite length_append; cbn [String.length];
        rewrite length_append; cbn [String.length]; lia).
  rewrite (scan_braces_open escape front body _ _ Hb).
  cbn [scan_braces].
  rewrite is_true_ltb
    by (rewrite len_append; unfold len; cbn [String.length];
        rewrite length_append; cbn [String.length]; lia).
  assert (E : front ++ String "{" (body ++ String "\" rest)
              = (front ++ String "{" body) ++ String "\" rest).
  { now rewrite append_assoc. }
  rewrite E.
  replace (Z.of_nat (String.length front + 1 + String.length body))
    with (Z.of_nat (String.length (front ++ String "{" body)))
    by (rewrite length_append; cbn [String.length]; lia).
  rewrite getitem_at. cbn [obind]. cbn. now rewrite He.
Qed.

(** X3.  Where escaping is on (the [FNM_NOESCAPE] bit is not set), a
    backslash inside the first group of braces, with no brace between
    the opening one and the backslash, makes [compile] raise
    [NameError]: the scan assigns the undefined name [true]. *)
Theorem compile_backslash_raises :
  forall fuel front body rest flags pats,
    brace_free front = true -> scan_plain body = true ->
    Z.land flags FNM_NOESCAPE = 0 ->
    compile (S fuel) (front ++ String "{" (body ++ String "\" rest))
      flags pats
    = Raise NameError.
Proof.
  intros fuel front body rest flags pats Hfront Hb Hfl.
  cbn [compile]. cbv zeta. rewrite (find_brace front _ Hfront).
  rewrite is_true_ltb by lia.
  rewrite (scan_braces_backslash (escape_of flags) front body rest Hb);
    [reflexivity |].
  now apply escape_on_iff.
Qed.

(** The theorem at work on ["a{b\,c}"], with no flag set. *)
Lemma compile_backslash_raises_on_comma :
  brace_free "a" = true /\ scan_plain "b" = true
  /\ Z.land 0 FNM_NOESCAPE = 0
  /\ compile 1 ("a" ++ String "{" ("b" ++ String "\" ",c}")) 0 []
     = Raise NameError.
Proof.
  split; [reflexivity |]. split; [reflexivity |]. split; [reflexivity |].
  apply (compile_backslash_raises 0 "a" "b" ",c}" 0 []); reflexivity.
Defined.

(** The scan of one alternative: it runs over a plain alternative to the
    ["?"] that ends it, or to the closing brace. *)
Lemma scan_alternative_segment (escape : Z) (b : string) :
  forall pre rest fuel rbrace,
    plain_alternative b = true ->
    (String.length b <= fuel)%nat ->
    ((exists r, rest = String "?" r)
     /\ Z.of_nat (String.length pre + String.length b) < rbrace)
    \/ Z.of_nat (String.length pre + String.length b) = rbrace ->
    scan_alternative fuel (pre ++ b ++ rest) escape rbrace
      (Z.of_nat (String.length pre)) 0 =
    Ok (Z.of_nat (String.length pre + String.length b)).
Proof.
  induction b as [| c b IH]; intros pre rest fuel rbrace Hb Hf Hr.
  - cbn [String.length append] in *. rewrite Nat.add_0_r in *.
    destruct Hr as [[[r ->] Hlt] | <-].
    + destruct fuel; cbn [scan_alternative];
        rewrite (is_true_ltb _ _ Hlt), getitem_at; reflexivity.
    + destruct fuel; cbn [scan_alternative]; now rewrite Z.ltb_irrefl.
  - destruct fuel as [| fuel]; [cbn in Hf; lia |].
    cbn [scan_alternative append].
    assert (Hlt : Z.of_nat (String.length pre) < rbrace).
    { cbn [String.length] in Hr. lia. }
    rewrite (is_true_ltb _ _ Hlt), getitem_at. cbn [obind].
    unfold plain_alternative in Hb. cbn [Regexp.all_chars] in Hb.
    apply andb_prop in Hb as [Hc Hb].
    apply andb_prop in Hc as [Hc Hq].
    apply scan_plain_char_inv in Hc as (Hc1 & Hc2 & Hc3).
    apply negb_true_iff in Hq.
    rewrite Hc1, Hc2, Hc3, Hq. cbn [andb].
    rewrite <- (snoc_char pre c).
    replace (Z.of_nat (String.length pre) + 1)
      with (Z.of_nat (String.length (pre ++ String c "")))
      by (rewrite length_append; cbn [String.length]; lia).
    rewrite (IH (pre ++ String c "") rest fuel rbrace Hb).
    + rewrite length_append. cbn [String.length]. f_equal. lia.
    + cbn [String.length] in Hf. lia.
    + rewrite length_append. cbn [String.length] in *.
      replace (String.length pre + 1 + String.length b)%nat
        with (String.length pre + S (String.length b))%nat by lia.
      exact Hr.
Qed.

Lemma alternatives_done fuel recur pattern escape front back rbrace pats :
  alternatives fuel recur pattern escape front back rbrace rbrace pats
  = Ok pats.
Proof. destruct fuel; cbn [alternatives]; now rewrite Z.ltb_irrefl. Qed.

(** The alternatives loop on a body of plain alternatives separated by
    ["?"]: one recursive call for each, in turn. *)
Lemma alternatives_group recur escape front back tail (bs : list string) :
  forall pre fuel pats,
    bs <> [] -> forallb plain_alternative bs = true ->
    (length bs <= fuel)%nat -> pre <> "" ->
    alternatives fuel recur (pre ++ join_with "?" bs ++ String "}" tail)
      escape front back
      (Z.of_nat (String.length pre + String.length (join_with "?" bs)))
      (Z.of_nat (String.length pre) - 1) pats =
    expand_each recur front back bs pats.
Proof.
  induction bs as [| b bs IH]; intros pre fuel pats Hne Hp Hf Hpre;
    [congruence |].
  destruct fuel as [| fuel]; [cbn in Hf; lia |].
  cbn [forallb] in Hp. apply andb_prop in Hp as [Hb Hp].
  cbn [alternatives expand_each].
  rewrite is_true_ltb by lia.
  replace (Z.of_nat (String.length pre) - 1 + 1)
    with (Z.of_nat (String.length pre)) by lia.
  destruct bs as [| b2 bs].
  - cbn [join_with].
    rewrite (scan_alternative_segment escape b pre (String "}" tail) _ _ Hb)
      by (rewrite ?length_append; lia || (right; reflexivity)).
    cbn [obind]. rewrite slice_middle.
    destruct (recur (front ++ b ++ back) pats) as [pats' | e |];
      cbn [obind]; try reflexivity.
    apply alternatives_done.
  - change (join_with "?" (b :: b2 :: bs))
      with (b ++ String "?" (join_with "?" (b2 :: bs))).
    set (J := join_with "?" (b2 :: bs)) in *.
    assert (E : pre ++ (b ++ String "?" J) ++ String "}" tail
                = pre ++ b ++ String "?" (J ++ String "}" tail)).
    { now rewrite (append_assoc b). }
    rewrite E.
    rewrite (scan_alternative_segment escape b pre
               (String "?" (J ++ String "}" tail)) _ _ Hb).
    + cbn [obind]. rewrite slice_middle.
      destruct (recur (front ++ b ++ back) pats) as [pats' | e |];
        cbn [obind]; try reflexivity.
      specialize (IH (pre ++ b ++ String "?" "") fuel pats'
                    ltac:(discriminate) Hp ltac:(cbn in Hf |- *; lia)).
      assert (Hpre' : pre ++ b ++ String "?" "" <> "").
      { destruct pre; [congruence | discriminate]. }
      specialize (IH Hpre').
      assert (E' : (pre ++ b ++ String "?" "") ++ J ++ String "}" tail
                   = pre ++ b ++ String "?" (J ++ String "}" tail)).
      { now rewrite !append_assoc. }
      rewrite E' in IH. rewrite <- IH. f_equal.
      * rewrite !length_append. cbn [String.length]. lia.
      * rewrite !length_append. cbn [String.length]. lia.
    + rewrite !length_append. cbn [String.length]. lia.
    + left. split; [eauto |]. rewrite !length_append.
      cbn [String.length]. lia.
Qed.

Lemma all_chars_append (f : ascii -> bool) (a b : string) :
  Regexp.all_chars f (a ++ b)
  = Regexp.all_chars f a && Regexp.all_chars f b.
Proof.
  induction a as [| c a IH]; cbn; [reflexivity |].
  now rewrite IH, andb_assoc.
Qed.

Lemma plain_alternative_scan_plain (b : string) :
  plain_alternative b = true -> scan_plain b = true.
Proof.
  unfold plain_alternative, scan_plain.
  induction b as [| c b IH]; [reflexivity |].
  cbn [Regexp.all_chars]. intros H. apply andb_prop in H as [Hc Hb].
  apply andb_prop in Hc as [Hc _]. now rewrite Hc, (IH Hb).
Qed.

Lemma join_with_scan_plain (bs : list string) :
  forallb plain_alternative bs = true ->
  scan_plain (join_with "?" bs) = true.
Proof.
  induction bs as [| b bs IH]; [reflexivity |].
  cbn [forallb]. intros H. apply andb_prop in H as [Hb Hbs].
  destruct bs as [| b2 bs]; [now apply plain_alternative_scan_plain |].
  change (join_with "?" (b :: b2 :: bs))
    with (b ++ String "?" (join_with "?" (b2 :: bs))).
  unfold scan_plain. rewrite all_chars_append.
  fold (scan_plain b). rewrite (plain_alternative_scan_plain b Hb).
  cbn [Regexp.all_chars andb]. now apply IH.
Qed.

Lemma length_join_with (sep : ascii) (bs : list string) :
  (length bs <= S (String.length (join_with sep bs)))%nat.
Proof.
  induction bs as [| b bs IH]; [cbn; lia |].
  destruct bs as [| b2 bs]; [cbn; lia |].
  change (join_with sep (b :: b2 :: bs))
    with (b ++ String sep (join_with sep (b2 :: bs))).
  rewrite length_append. cbn [String.length length] in *. lia.
Qed.

Lemma slice_prefix (a b : string) :
  slice (a ++ b) 0 (Z.of_nat (String.length a)) = a.
Proof.
  pose proof (slice_middle "" a b) as H. cbn [append String.length] in H.
  exact H.
Qed.

Lemma slice_suffix (a b : string) :
  slice (a ++ b) (Z.of_nat (String.length a)) (len (a ++ b)) = b.
Proof.
  pose proof (slice_middle a b "") as H.
  rewrite append_nil_r in H. unfold len. rewrite length_append.
  exact H.
Qed.

(** [compile] on a pattern with one group of plain alternatives separated
    by ["?"], after a front without brace: one recursive call for each
    alternative put between the front and the back, in turn. *)
Lemma compile_group fuel front back flags (bs : list string) pats :
  bs <> [] -> brace_free front = true ->
  forallb plain_alternative bs = true ->
  compile (S fuel)
    (front ++ String "{" (join_with "?" bs ++ String "}" back)) flags pats =
  expand_each (fun p ps => compile fuel p flags ps) front back bs pats.
Proof.
  intros Hne Hfront Hbs.
  set (J := join_with "?" bs).
  assert (HJ := join_with_scan_plain bs Hbs). fold J in HJ.
  cbn [compile]. cbv zeta.
  rewrite (find_brace front _ Hfront).
  rewrite is_true_ltb by lia.
  rewrite (scan_braces_group (escape_of flags) front J back HJ).
  set (P := front ++ String "{" (J ++ String "}" back)).
  cbn [obind]. rewrite !is_true_ltb by lia. cbn [andb].
  assert (Efront : slice P 0 (Z.of_nat (String.length front)) = front).
  { apply slice_prefix. }
  assert (Eback : slice P
                    (Z.of_nat (String.length front + 1 + String.length J)
                     + 1) (len P) = back).
  { unfold P.
    assert (E : front ++ String "{" (J ++ String "}" back)
                = (front ++ String "{" (J ++ String "}" "")) ++ back).
    { rewrite !append_assoc. cbn [append]. now rewrite !append_assoc. }
    rewrite E.
    replace (Z.of_nat (String.length front + 1 + String.length J) + 1)
      with (Z.of_nat (String.length
                        (front ++ String "{" (J ++ String "}" ""))))
      by (rewrite !length_append; cbn [String.length];
          rewrite length_append; cbn [String.length]; lia).
    apply slice_suffix. }
  rewrite Efront, Eback.
  pose proof (alternatives_group
                (fun p ps => compile fuel p flags ps) (escape_of flags)
                front back back bs
                (front ++ String "{" "") (String.length P) pats Hne Hbs)
    as H.
  fold J in H. rewrite snoc_char in H. fold P in H.
  rewrite length_append in H. cbn [String.length] in H.
  replace (Z.of_nat (String.length front + 1) - 1)
    with (Z.of_nat (String.length front)) in H by lia.
  apply H.
  - pose proof (length_join_with "?" bs) as Hl. fold J in Hl.
    unfold P. rewrite length_append. cbn [String.length].
    rewrite length_append. cbn [String.length]. lia.
  - destruct front; discriminate.
Qed.

Lemma find_no_brace (p : string) :
  brace_free p = true -> Py.find "{" p = -1.
Proof.
  intros Hp. unfold Py.find.
  assert (H : String.index 0 "{" p = None).
  { induction p as [| c p IH]; [reflexivity |].
    unfold brace_free in Hp. cbn [Regexp.all_chars] in Hp.
    apply andb_prop in Hp as [Hc Hp].
    cbn [String.index]. rewrite prefix_brace, Ascii.eqb_sym.
    destruct (Ascii.eqb c "{"); [discriminate |]. now rewrite (IH Hp). }
  now rewrite H.
Qed.

(** Without a brace [compile] appends the chain of [single_compile]. *)
Lemma compile_no_brace fuel p flags pats :
  brace_free p = true ->
  compile (S fuel) p flags pats =
  obind (single_compile p flags None) (fun n => Ok (pats ++ [n])%list).
Proof.
  intros Hp. cbn [compile]. cbv zeta. now rewrite (find_no_brace p Hp).
Qed.

Lemma plain_alternative_brace_free (b : string) :
  plain_alternative b = true -> brace_free b = true.
Proof.
  unfold plain_alternative, brace_free.
  induction b as [| c b IH]; [reflexivity |].
  cbn [Regexp.all_chars]. intros H. apply andb_prop in H as [Hc Hb].
  rewrite (IH Hb), andb_true_r.
  apply andb_prop in Hc as [Hc _].
  apply scan_plain_char_inv in Hc as (Hc & _). now rewrite Hc.
Qed.

Lemma expand_each_ext recur recur' front back (bs : list string) :
  (forall b ps, In b bs ->
     recur (front ++ b ++ back) ps = recur' (front ++ b ++ back) ps) ->
  forall pats,
    expand_each recur front back bs pats
    = expand_each recur' front back bs pats.
Proof.
  induction bs as [| b bs IH]; intros H pats; [reflexivity |].
  cbn [expand_each]. rewrite (H b pats (or_introl eq_refl)).
  destruct (recur' (front ++ b ++ back) pats); cbn [obind];
    try reflexivity.
  apply IH. intros b' ps Hin. apply H. now right.
Qed.

(** X19.  On a pattern with one group of braces, [front{b1?b2?...}back],
    whose front, alternatives and back hold no other brace and whose
    alternatives, without backslash, are separated by ["?"], [compile]
    appends the chain of [front ++ b ++ back] for each alternative [b],
    in turn, and stops at the first that raises.  A comma does not
    separate alternatives. *)
Theorem compile_plain_group :
  forall fuel front bs back flags pats,
    bs <> [] -> brace_free front = true ->
    forallb plain_alternative bs = true -> brace_free back = true ->
    compile (S (S fuel))
      (front ++ String "{" (join_with "?" bs ++ String "}" back)) flags pats
    = expand_each
        (fun p ps =>
           obind (single_compile p flags None)
             (fun n => Ok (ps ++ [n])%list))
        front back bs pats.
Proof.
  intros fuel front bs back flags pats Hne Hfront Hbs Hback.
  rewrite (compile_group (S fuel) front back flags bs pats Hne Hfront Hbs).
  apply expand_each_ext. intros b ps Hin.
  apply compile_no_brace. unfold brace_free.
  rewrite !all_chars_append. fold (brace_free front).
  fold (brace_free b). fold (brace_free back).
  rewrite Hfront, Hback, andb_true_r. cbn [andb].
  apply plain_alternative_brace_free.
  rewrite forallb_forall in Hbs. now apply Hbs.
Qed.

(** The theorem at work on ["a{b,c?d}*"]. *)
Lemma compile_plain_group_on_comma :
  ["b,c"; "d"] <> [] /\ brace_free "a" = true
  /\ forallb plain_alternative ["b,c"; "d"] = true
  /\ brace_free "*" = true
  /\ compile 2 "a{b,c?d}*" 0 [] =
     Ok [EntryMatch None 0 None "ab,c*" [""];
         EntryMatch None 0 None "ad*" [""]].
Proof.
  split; [discriminate |]. split; [reflexivity |]. split; [reflexivity |].
  split; [reflexivity |].
  apply (compile_plain_group 0 "a" ["b,c"; "d"] "*" 0 []);
    reflexivity || discriminate.
Defined.

(** X20.  The same with any back: for each alternative, in turn, [compile]
    calls itself on [front ++ b ++ back], which may hold further groups. *)
Theorem compile_first_group :
  forall fuel front bs back flags pats,
    bs <> [] -> brace_free front = true ->
    forallb plain_alternative bs = true ->
    compile (S fuel)
      (front ++ String "{" (join_with "?" bs ++ String "}" back)) flags pats
    = expand_each (fun p ps => compile fuel p flags ps) front back bs pats.
Proof.
  intros fuel front bs back flags pats. apply compile_group.
Qed.

(** The theorem at work on ["{a?b}{*?x*}"]. *)
Lemma compile_first_group_twice :
  ["a"; "b"] <> [] /\ brace_free "" = true
  /\ forallb plain_alternative ["a"; "b"] = true
  /\ compile 3 "{a?b}{*?x*}" 0 [] =
     Ok [EntryMatch None 0 None "a*" [""]; EntryMatch None 0 None "ax*" [""];
         EntryMatch None 0 None "b*" [""]; EntryMatch None 0 None "bx*" [""]].
Proof.
  split; [discriminate |]. split; [reflexivity |]. split; [reflexivity |].
  apply (compile_first_group 2 "" ["a"; "b"] "{*?x*}" 0 []);
    reflexivity || discriminate.
Defined.
